(** * Lucky draw: the draw / round progression engine of [src/App.jsx]

    The React component [App] is embedded as a transition system.

    - The component state (the [useState] cells) is the record [AppState].
    - Every handler of the source is a function on a [World]: the component
      state together with the two refs, the pending timers that the
      handlers of the component have created, a logical clock, and the log
      of fire-and-forget effects (alerts, sounds, confetti).
    - A handler closes over the values of the render in which it was created.
      For a user-interface handler this render is the current one.  A timer
      callback keeps the render in which [handleSpin] created it, so every
      pending timer stores that render as its closure; the callback reads the
      closure and writes through the setters, exactly as the source does
      ([setX(v)] overwrites, [setX(prev => ...)] reads the current state).
    - [Math.random] and the passing of time are supplied by the environment
      as part of the event. *)

From Stdlib Require Import ZArith.
From stdpp Require Import base decidable option list gmap strings pretty.

Set Default Proof Using "Type".

(** ** JavaScript numbers produced by [parseInt]

    [parseInt] yields [NaN] or a double whose value is an integer or an
    infinity.  [Int z] is the double of value [z]; [Int INF] and
    [Int (- INF)], with [INF = 2^1024], stand for [Infinity] and
    [-Infinity].  Additions and subtractions are those of IEEE doubles:
    exact up to 2^53 in absolute value, rounded to the nearest double, ties
    to the even significand, beyond, and infinite from 2^1024 on.  A
    comparison with [NaN] is false and an addition with [NaN] is [NaN].
    The inputs of the component are results of [parseInt] and hence
    doubles; the events below carry any integer, so that what is proved of
    all runs holds of the runs of the component. *)

Inductive jsnum : Type :=
| Int (z : Z)
| NaN.

Global Instance jsnum_eq_dec : EqDecision jsnum.
Proof. solve_decision. Defined.

Definition INF : Z := 2 ^ 1024.

Definition is_inf (x : Z) : bool := (INF <=? Z.abs x)%Z.

(** The double nearest to the integer [z]: [z] itself up to 2^53; beyond,
    with [2^e <= |z| < 2^(e+1)], a multiple of the spacing [2^(e-52)]. *)
Definition round53 (z : Z) : Z :=
  let m := Z.abs z in
  if (m <=? 2 ^ 53)%Z then z
  else
    let e := Z.log2 m in
    let u := (2 ^ (e - 52))%Z in
    let q := (m / u)%Z in
    let r := (m mod u)%Z in
    let q' := if (2 * r <? u)%Z then q
              else if (u <? 2 * r)%Z then (q + 1)%Z
              else if Z.even q then q else (q + 1)%Z in
    let v := (q' * u)%Z in
    (Z.sgn z * (if (INF <=? v)%Z then INF else v))%Z.

Definition js_add (a b : jsnum) : jsnum :=
  match a, b with
  | Int x, Int y =>
      if is_inf x then
        if is_inf y && negb (Z.sgn x =? Z.sgn y)%Z then NaN
        else Int (Z.sgn x * INF)
      else if is_inf y then Int (Z.sgn y * INF)
      else Int (round53 (x + y))
  | _, _ => NaN
  end.

Definition js_sub (a b : jsnum) : jsnum :=
  match a, b with
  | Int x, Int y => js_add (Int x) (Int (- y))
  | _, _ => NaN
  end.

Definition js_gt (a b : jsnum) : bool :=
  match a, b with
  | Int x, Int y => (y <? x)%Z
  | _, _ => false
  end.

Definition js_ge (a b : jsnum) : bool :=
  match a, b with
  | Int x, Int y => (y <=? x)%Z
  | _, _ => false
  end.

Definition js_le (a b : jsnum) : bool :=
  match a, b with
  | Int x, Int y => (x <=? y)%Z
  | _, _ => false
  end.

(** A value shown in the wheel or stored in [winner]: [null], [undefined]
    (an array read out of range), a number, or a string. *)

Inductive jsval : Type :=
| VNull
| VUndefined
| VNum (z : Z)
| VStr (s : string).

Global Instance jsval_eq_dec : EqDecision jsval.
Proof. solve_decision. Defined.

(** [arr[i]] read as a displayed value. *)
Definition of_lookup (o : option Z) : jsval :=
  match o with
  | Some z => VNum z
  | None => VUndefined
  end.

(** ** Data model *)

(** A round of the plan: [{ id, name, count }].  [count] holds the number
    that [parseInt(step.count)] returns. *)
Module Step.
Record t : Type := mk { id : Z; name : string; count : jsnum }.
End Step.

Global Instance Step_eq_dec : EqDecision Step.t.
Proof. solve_decision. Defined.

(** A history entry: [{ number, stepId, stepName, timestamp }].  [number] is
    the array read [availableNumbers[finalIndex]]; [None] is [undefined]. *)
Module WinRecord.
Record t : Type :=
  mk { number : option Z; stepId : Z; stepName : string; timestamp : Z }.
End WinRecord.

Global Instance WinRecord_eq_dec : EqDecision WinRecord.t.
Proof. solve_decision. Defined.

(** The [useState] cells of [App].  [range_min] and [range_max] hold the
    numbers that [parseInt(range.min)] and [parseInt(range.max)] return. *)
Record AppState : Type := mkAppState {
  range_min : jsnum;
  range_max : jsnum;
  steps : list Step.t;
  availableNumbers : list Z;
  history : list WinRecord.t;
  currentNumber : jsval;
  isSpinning : bool;
  showConfig : bool;
  winner : jsval;
  currentStepIndex : nat;
  isTransitioning : bool;
  expandedSteps : gmap Z bool
}.

Global Instance AppState_eq_dec : EqDecision AppState.
Proof. solve_decision. Defined.

(** The setters returned by [useState]. *)
Definition setRangeMin (v : jsnum) (s : AppState) : AppState :=
  mkAppState v (range_max s) (steps s) (availableNumbers s) (history s)
    (currentNumber s) (isSpinning s) (showConfig s) (winner s)
    (currentStepIndex s) (isTransitioning s) (expandedSteps s).

Definition setRangeMax (v : jsnum) (s : AppState) : AppState :=
  mkAppState (range_min s) v (steps s) (availableNumbers s) (history s)
    (currentNumber s) (isSpinning s) (showConfig s) (winner s)
    (currentStepIndex s) (isTransitioning s) (expandedSteps s).

Definition setSteps (v : list Step.t) (s : AppState) : AppState :=
  mkAppState (range_min s) (range_max s) v (availableNumbers s) (history s)
    (currentNumber s) (isSpinning s) (showConfig s) (winner s)
    (currentStepIndex s) (isTransitioning s) (expandedSteps s).

Definition setAvailableNumbers (v : list Z) (s : AppState) : AppState :=
  mkAppState (range_min s) (range_max s) (steps s) v (history s)
    (currentNumber s) (isSpinning s) (showConfig s) (winner s)
    (currentStepIndex s) (isTransitioning s) (expandedSteps s).

Definition setHistory (v : list WinRecord.t) (s : AppState) : AppState :=
  mkAppState (range_min s) (range_max s) (steps s) (availableNumbers s) v
    (currentNumber s) (isSpinning s) (showConfig s) (winner s)
    (currentStepIndex s) (isTransitioning s) (expandedSteps s).

Definition setCurrentNumber (v : jsval) (s : AppState) : AppState :=
  mkAppState (range_min s) (range_max s) (steps s) (availableNumbers s)
    (history s) v (isSpinning s) (showConfig s) (winner s)
    (currentStepIndex s) (isTransitioning s) (expandedSteps s).

Definition setIsSpinning (v : bool) (s : AppState) : AppState :=
  mkAppState (range_min s) (range_max s) (steps s) (availableNumbers s)
    (history s) (currentNumber s) v (showConfig s) (winner s)
    (currentStepIndex s) (isTransitioning s) (expandedSteps s).

Definition setShowConfig (v : bool) (s : AppState) : AppState :=
  mkAppState (range_min s) (range_max s) (steps s) (availableNumbers s)
    (history s) (currentNumber s) (isSpinning s) v (winner s)
    (currentStepIndex s) (isTransitioning s) (expandedSteps s).

Definition setWinner (v : jsval) (s : AppState) : AppState :=
  mkAppState (range_min s) (range_max s) (steps s) (availableNumbers s)
    (history s) (currentNumber s) (isSpinning s) (showConfig s) v
    (currentStepIndex s) (isTransitioning s) (expandedSteps s).

Definition setCurrentStepIndex (v : nat) (s : AppState) : AppState :=
  mkAppState (range_min s) (range_max s) (steps s) (availableNumbers s)
    (history s) (currentNumber s) (isSpinning s) (showConfig s) (winner s)
    v (isTransitioning s) (expandedSteps s).

Definition setIsTransitioning (v : bool) (s : AppState) : AppState :=
  mkAppState (range_min s) (range_max s) (steps s) (availableNumbers s)
    (history s) (currentNumber s) (isSpinning s) (showConfig s) (winner s)
    (currentStepIndex s) v (expandedSteps s).

Definition setExpandedSteps (v : gmap Z bool) (s : AppState) : AppState :=
  mkAppState (range_min s) (range_max s) (steps s) (availableNumbers s)
    (history s) (currentNumber s) (isSpinning s) (showConfig s) (winner s)
    (currentStepIndex s) (isTransitioning s) v.

(** ** Effects, timers and the world around the component *)

Inductive AlertMsg : Type :=
| InsufficientPool (needed available : jsnum)
| AllNumbersDrawn
| AllRoundsCompleted.

(** The effects that the component fires and forgets.  [FireConfetti] is
    the call of [fire] of [useConfetti]: an animation that the hook drives
    for 3000 ms with a 250 ms interval of its own.  That interval reads and
    writes nothing of the component and no handler cancels it; it is part
    of the effect and not one of the [timers] of the world, which are the
    timers that [handleSpin] and [stopSpin] create. *)
Inductive Effect : Type :=
| Alert (m : AlertMsg)
| PlayTick
| PlayWin
| PlayComplete
| StopAll
| FireConfetti.

(** A timer callback together with the render it closes over. *)
Inductive Callback : Type :=
| CbTick (c : AppState)
| CbStopSpin (c : AppState)
| CbRoundComplete (c : AppState).

(** A pending timer: [period = Some p] for [setInterval], [None] for
    [setTimeout]; [delay] is the duration it was scheduled with. *)
Record Timer : Type := mkTimer {
  tid : nat;
  due : Z;
  delay : Z;
  period : option Z;
  callback : Callback
}.

(** The component in its environment.  [timers] holds the pending timers of
    [handleSpin] (the flicker and the [stopSpin] timeout) and of [stopSpin]
    (the round transition), the timers that the refs and the state of the
    component depend on; the interval inside the confetti animation belongs
    to the effect [FireConfetti]. *)
Record World : Type := mkWorld {
  st : AppState;
  timerRef : option nat;
  intervalRef : option nat;
  timers : list Timer;
  nextTimerId : nat;
  clock : Z;
  mounted : bool;
  log : list Effect
}.

Definition with_st (s : AppState) (w : World) : World :=
  mkWorld s (timerRef w) (intervalRef w) (timers w) (nextTimerId w)
    (clock w) (mounted w) (log w).

(** A state update requested through a setter; React drops it once the
    component is unmounted. *)
Definition setState (f : AppState → AppState) (w : World) : World :=
  if mounted w then with_st (f (st w)) w else w.

(** An effect of the effects sink; the newest entry is first. *)
Definition emit (e : Effect) (w : World) : World :=
  mkWorld (st w) (timerRef w) (intervalRef w) (timers w) (nextTimerId w)
    (clock w) (mounted w) (e :: log w).

Definition with_timers (ts : list Timer) (w : World) : World :=
  mkWorld (st w) (timerRef w) (intervalRef w) ts (nextTimerId w)
    (clock w) (mounted w) (log w).

(** [setTimeout(cb, d)] and [setInterval(cb, d)]: the new handle is
    [nextTimerId w]. *)
Definition schedule (d : Z) (p : option Z) (cb : Callback) (w : World) : World :=
  mkWorld (st w) (timerRef w) (intervalRef w)
    (timers w ++ [mkTimer (nextTimerId w) (clock w + d) d p cb])
    (S (nextTimerId w)) (clock w) (mounted w) (log w).

Definition setTimerRef (r : option nat) (w : World) : World :=
  mkWorld (st w) r (intervalRef w) (timers w) (nextTimerId w)
    (clock w) (mounted w) (log w).

Definition setIntervalRef (r : option nat) (w : World) : World :=
  mkWorld (st w) (timerRef w) r (timers w) (nextTimerId w)
    (clock w) (mounted w) (log w).

(** [if (ref.current) clearTimeout(ref.current)]: handles start at 1, so a
    stored handle is truthy; clearing an expired handle does nothing. *)
Definition clearRef (r : option nat) (w : World) : World :=
  match r with
  | Some i => with_timers (filter (λ t, tid t ≠ i) (timers w)) w
  | None => w
  end.

(** [Math.random()] is the rational [u_num / u_den], in [0, 1) when
    [u_num < u_den]. *)
Record Rand : Type := mkRand { u_num : nat; u_den : nat }.

Definition rand_ok (u : Rand) : bool := u_num u <? u_den u.

(** [Math.floor(Math.random() * n)] *)
Definition floor_random_times (u : Rand) (n : nat) : nat :=
  (u_num u * n) `div` u_den u.

(** ** Configuration handlers *)

(** [Math.max(...xs)] on a non-empty array. *)
Definition Math_max (xs : list Z) : Z :=
  match xs with
  | [] => 0%Z
  | x :: xs' => foldl Z.max x xs'
  end.

Definition addStep (w : World) : World :=
  let s := st w in
  let newId :=
    if bool_decide (0 < length (steps s))
    then (Math_max (Step.id <$> steps s) + 1)%Z
    else 1%Z in
  setState
    (setSteps
       (steps s ++
        [Step.mk newId ("Round " +:+ pretty (length (steps s) + 1)) (Int 1)]))
    w.

Definition removeStep (i : Z) (w : World) : World :=
  let s := st w in
  if bool_decide (length (steps s) = 1) then w
  else setState (setSteps (filter (λ x, Step.id x ≠ i) (steps s))) w.

(** The two fields the configuration screen edits through [updateStep]. *)
Inductive StepField : Type :=
| FName (v : string)
| FCount (v : jsnum).

Definition updateStep (i : Z) (f : StepField) (w : World) : World :=
  let s := st w in
  setState
    (setSteps
       ((λ x, if bool_decide (Step.id x = i)
              then match f with
                   | FName v => Step.mk (Step.id x) v (Step.count x)
                   | FCount v => Step.mk (Step.id x) (Step.name x) v
                   end
              else x) <$> steps s))
    w.

Definition toggleStepExpansion (stepId : Z) (w : World) : World :=
  setState
    (λ prev,
       setExpandedSteps
         (<[stepId := negb (default false (expandedSteps prev !! stepId))]>
            (expandedSteps prev))
         prev)
    w.

(** ** [initializeNumbers] *)

(** [i++] on a double. *)
Definition incr (i : Z) : Z :=
  match js_add (Int i) (Int 1) with
  | Int j => j
  | NaN => i
  end.

(** An array holds at most 2^32 - 1 elements; the [push] that would make it
    longer throws a [RangeError]. *)
Definition MAX_ARRAY : Z := 2 ^ 32 - 1.

(** [for (let i = min; i <= max; i++) nums.push(i)], run for at most [fuel]
    pushes.  [None]: the loop does not end.  That is the case when [i++]
    leaves [i] where it is (from 2^53 on the next integer is not a double,
    and [Infinity + 1] is [Infinity]): the test [i <= max] then holds for
    ever; and it is what is left when [fuel] pushes were made and the test
    still holds. *)
Fixpoint push_loop (fuel : nat) (i max : Z) (nums : list Z) : option (list Z) :=
  match fuel with
  | O => if (i <=? max)%Z then None else Some nums
  | S fuel' =>
      if (i <=? max)%Z then
        if (incr i <=? i)%Z then None
        else push_loop fuel' (incr i) max (nums ++ [i])
      else Some nums
  end.

(** The loop of [initializeNumbers].  When a bound is [NaN] the test
    [i <= max] is false at once.  A counter that moves goes up by at least
    1, so the loop makes at most [max - min + 1] pushes, and it may make
    at most [MAX_ARRAY]: [None] is the loop that does not end by itself and
    is ended by the [RangeError] of [push] (or by the memory of the
    browser). *)
Definition loop (min max : jsnum) : option (list Z) :=
  match min, max with
  | Int a, Int b => push_loop (Z.to_nat (Z.min (b - a + 1) MAX_ARRAY)) a b []
  | _, _ => Some []
  end.

Definition loop_throws (min max : jsnum) : bool :=
  match loop min max with
  | Some _ => false
  | None => true
  end.

(** The array [nums] after a loop that ends. *)
Definition build_nums (min max : jsnum) : list Z := default [] (loop min max).

Definition totalAvailable (s : AppState) : jsnum :=
  js_add (js_sub (range_max s) (range_min s)) (Int 1).

Definition totalWinnersNeeded (s : AppState) : jsnum :=
  foldl (λ sum step, js_add sum (Step.count step)) (Int 0) (steps s).

(** Inputs for which the doubles of [initializeNumbers] are exact: a bound
    between -2^52 and 2^52, so that [max - min + 1] is at most 2^53 in
    absolute value; counts whose running sums, from [acc] on, are. *)
Definition safe_bound (z : Z) : Prop := (- 2 ^ 52 ≤ z < 2 ^ 52)%Z.

Fixpoint sums_safe (acc : Z) (cs : list Z) : bool :=
  match cs with
  | [] => true
  | k :: cs' => (Z.abs (acc + k) <=? 2 ^ 53)%Z && sums_safe (acc + k) cs'
  end.

(** A plan whose counts are integers that are not negative and add up to
    at most 2^53: its running sums are exact. *)
Definition counts_exact (ss : list Step.t) : Prop :=
  ∃ cs, Step.count <$> ss = Int <$> cs
        ∧ Forall (λ c, (0 ≤ c)%Z) cs ∧ (foldr Z.add 0 cs ≤ 2 ^ 53)%Z.

(** When the loop throws, the handler is left before any setter ran. *)
Definition initializeNumbers (w : World) : World :=
  let s := st w in
  if js_gt (totalWinnersNeeded s) (totalAvailable s) then
    emit (Alert (InsufficientPool (totalWinnersNeeded s) (totalAvailable s))) w
  else if loop_throws (range_min s) (range_max s) then w
  else
    let nums := build_nums (range_min s) (range_max s) in
    let w := setState (setAvailableNumbers nums) w in
    let w := setState (setHistory []) w in
    let w := setState (setWinner VNull) w in
    let w := setState (setCurrentNumber (VStr "?")) w in
    let w := setState (setCurrentStepIndex 0) w in
    let w := setState (setIsTransitioning false) w in
    let w := setState (setShowConfig false) w in
    let w :=
      match steps s with
      | s0 :: _ => setState (setExpandedSteps {[ Step.id s0 := true ]}) w
      | [] => w
      end in
    emit StopAll w.

(** ** The spin cycle *)

(** The callback of [setInterval(..., 120)]: a cosmetic flicker over the
    pool of the render that started the spin. *)
Definition tick (c : AppState) (u : Rand) (w : World) : World :=
  let randomIndex := floor_random_times u (length (availableNumbers c)) in
  let w := setState (setCurrentNumber (of_lookup (availableNumbers c !! randomIndex))) w in
  emit PlayTick w.

(** The callback of [setTimeout(..., 2000)] created by [stopSpin]. *)
Definition roundComplete (c : AppState) (w : World) : World :=
  let w := emit PlayComplete w in
  if bool_decide (Z.of_nat (currentStepIndex c) < Z.of_nat (length (steps c)) - 1)%Z then
    let nextStepIndex := currentStepIndex c + 1 in
    match steps c !! currentStepIndex c, steps c !! nextStepIndex with
    | Some cur, Some next =>
        let w := setState (setCurrentStepIndex nextStepIndex) w in
        let w :=
          setState
            (λ prev,
               setExpandedSteps
                 (<[Step.id next := true]>
                    (<[Step.id cur := false]> (expandedSteps prev)))
                 prev)
            w in
        setState (setIsTransitioning false) w
    | _, _ => w
    end
  else
    let w := setState (λ prev, setCurrentStepIndex (currentStepIndex prev + 1) prev) w in
    setState (setIsTransitioning false) w.

(** [stopSpin], the callback of [setTimeout(() => stopSpin(), 3000)].  It
    reads [availableNumbers], [steps], [currentStepIndex] and [history] from
    the render [c] that created it.  When [steps[currentStepIndex]] is
    [undefined] the read of [currentStep.id] throws, after the two timers
    were cleared and before any setter ran. *)
Definition stopSpin (c : AppState) (u : Rand) (w : World) : World :=
  let w := clearRef (intervalRef w) w in
  let w := clearRef (timerRef w) w in
  let finalIndex := floor_random_times u (length (availableNumbers c)) in
  let winningNumber := availableNumbers c !! finalIndex in
  match steps c !! currentStepIndex c with
  | None => w
  | Some currentStep =>
      let winRecord :=
        WinRecord.mk winningNumber (Step.id currentStep)
          (Step.name currentStep) (clock w) in
      let w := setState (setWinner (of_lookup winningNumber)) w in
      let w := setState (setCurrentNumber (of_lookup winningNumber)) w in
      let w := setState (λ prev, setHistory (winRecord :: history prev) prev) w in
      let w :=
        setState
          (setAvailableNumbers
             (filter (λ n, Some n ≠ winningNumber) (availableNumbers c)))
          w in
      let w := setState (setIsSpinning false) w in
      let w := emit FireConfetti w in
      let w := emit PlayWin w in
      let winnersInThisStep :=
        length (filter (λ h, WinRecord.stepId h = Step.id currentStep) (history c)) + 1 in
      if js_ge (Int (Z.of_nat winnersInThisStep)) (Step.count currentStep) then
        let w := setState (setIsTransitioning true) w in
        schedule 2000 None (CbRoundComplete c) w
      else w
  end.

Definition handleSpin (w : World) : World :=
  let s := st w in
  if bool_decide (length (availableNumbers s) = 0) then
    emit (Alert AllNumbersDrawn) w
  else if bool_decide (length (steps s) ≤ currentStepIndex s) then
    emit (Alert AllRoundsCompleted) w
  else if isTransitioning s then w
  else
    let w := setState (setIsSpinning true) w in
    let w := setState (setWinner VNull) w in
    let w := emit StopAll w in
    let w := setIntervalRef (Some (nextTimerId w)) (schedule 120 (Some 120%Z) (CbTick s) w) in
    setTimerRef (Some (nextTimerId w)) (schedule 3000 None (CbStopSpin s) w).

(** The cleanup of the mount effect: the two refs are cleared and the
    component is gone. *)
Definition cleanup (w : World) : World :=
  let w := clearRef (intervalRef w) w in
  let w := clearRef (timerRef w) w in
  mkWorld (st w) (timerRef w) (intervalRef w) (timers w) (nextTimerId w)
    (clock w) false (log w).

(** ** The rendered controls *)

Definition isGameFinished (s : AppState) : bool :=
  bool_decide (length (steps s) ≤ currentStepIndex s).

(** The [disabled] attribute of the spin button. *)
Definition spinDisabled (s : AppState) : bool :=
  isSpinning s || isTransitioning s
  || bool_decide (length (availableNumbers s) = 0) || isGameFinished s.

(** A click on the spin button: a disabled button does not run [onClick]. *)
Definition clickSpin (w : World) : World :=
  if spinDisabled (st w) then w else handleSpin w.

(** The "Reset Game" button is rendered while the history is non-empty; its
    [onClick] is [initializeNumbers]. *)
Definition resetVisible (s : AppState) : bool :=
  bool_decide (0 < length (history s)).

Definition clickReset (w : World) : World := initializeNumbers w.

Definition clickSettings (w : World) : World := setState (setShowConfig true) w.

(** The configuration screen shows one row of inputs per round of the
    plan. *)
Definition stepRowVisible (i : Z) (s : AppState) : bool :=
  bool_decide (i ∈ Step.id <$> steps s).

(** The history panel shows the header of a round, which toggles its
    expansion, once the history is non-empty and the round has a winner or
    is the current round. *)
Definition stepHeaderVisible (i : Z) (s : AppState) : bool :=
  bool_decide (0 < length (history s))
  && bool_decide
       (Exists
          (λ x, Step.id x = i
                ∧ (0 < length (filter (λ h, WinRecord.stepId h = Step.id x) (history s))
                   ∨ Step.id <$> steps s !! currentStepIndex s = Some (Step.id x)))
          (steps s)).

(** ** Events and the transition function *)

Inductive Event : Type :=
| EditRangeMin (v : jsnum)
| EditRangeMax (v : jsnum)
| ClickAddStep
| ClickRemoveStep (i : Z)
| EditStep (i : Z) (f : StepField)
| ClickInitialize
| ClickSpin
| ClickSettings
| ClickReset
| ClickToggle (stepId : Z)
| Wait (d : Z)
| Fire (i : nat) (u : Rand)
| Unmount.

Definition run_callback (cb : Callback) (u : Rand) (w : World) : World :=
  match cb with
  | CbTick c => tick c u w
  | CbStopSpin c => stopSpin c u w
  | CbRoundComplete c => roundComplete c w
  end.

(** The timer leaves the pending list when it fires, unless it is an
    interval, which is re-armed one period later. *)
Definition rearm (t : Timer) (ts : list Timer) : list Timer :=
  match period t with
  | Some p =>
      (λ x, if bool_decide (tid x = tid t)
            then mkTimer (tid x) (due x + p) (delay x) (period x) (callback x)
            else x) <$> ts
  | None => filter (λ x, tid x ≠ tid t) ts
  end.

Definition find_timer (i : nat) (ts : list Timer) : option Timer :=
  list_find (λ t, tid t = i) ts ≫= λ p, Some p.2.

(** One step of the system.  [None]: the event cannot happen in [w] (the
    control is not on the screen, the timer is not pending or not yet due,
    the clock would pass a pending timer, or the draw is not in [0, 1)). *)
Definition step (w : World) (e : Event) : option World :=
  match e with
  | Wait d =>
      if bool_decide (0 < d)%Z
         && forallb (λ t, bool_decide (clock w + d ≤ due t)%Z) (timers w)
      then Some (mkWorld (st w) (timerRef w) (intervalRef w) (timers w)
                   (nextTimerId w) (clock w + d) (mounted w) (log w))
      else None
  | Fire i u =>
      match find_timer i (timers w) with
      | Some t =>
          if bool_decide (due t ≤ clock w)%Z && rand_ok u
          then Some (run_callback (callback t) u (with_timers (rearm t (timers w)) w))
          else None
      | None => None
      end
  | Unmount => if mounted w then Some (cleanup w) else None
  | _ =>
      if negb (mounted w) then None
      else if showConfig (st w) then
        match e with
        | EditRangeMin v => Some (setState (setRangeMin v) w)
        | EditRangeMax v => Some (setState (setRangeMax v) w)
        | ClickAddStep => Some (addStep w)
        | ClickRemoveStep i =>
            if stepRowVisible i (st w) then Some (removeStep i w) else None
        | EditStep i f =>
            if stepRowVisible i (st w) then Some (updateStep i f w) else None
        | ClickInitialize => Some (initializeNumbers w)
        | _ => None
        end
      else
        match e with
        | ClickSpin => Some (clickSpin w)
        | ClickSettings => Some (clickSettings w)
        | ClickReset => if resetVisible (st w) then Some (clickReset w) else None
        | ClickToggle i =>
            if stepHeaderVisible i (st w) then Some (toggleStepExpansion i w) else None
        | _ => None
        end
  end.

Fixpoint run (w : World) (es : list Event) : option World :=
  match es with
  | [] => Some w
  | e :: es' =>
      match step w e with
      | Some w' => run w' es'
      | None => None
      end
  end.

(** The component as first rendered. *)
Definition initial_state : AppState :=
  mkAppState (Int 1) (Int 100) [Step.mk 1 "Round 1" (Int 1)] [] [] VNull
    false true VNull 0 false ∅.

Definition initial_world : World :=
  mkWorld initial_state None None [] 1 0 true [].

(** ** Notions used in the statements *)

(** The conditions under which a spin may start. *)
Definition spin_valid (s : AppState) : Prop :=
  isSpinning s = false ∧ isTransitioning s = false
  ∧ availableNumbers s ≠ [] ∧ currentStepIndex s < length (steps s).

Global Instance spin_valid_dec s : Decision (spin_valid s).
Proof. unfold spin_valid. apply _. Defined.

(** The numbers recorded in the history, newest first. *)
Definition drawn (s : AppState) : list (option Z) :=
  WinRecord.number <$> history s.

(** [history.filter(h => h.stepId === i).length] *)
Definition winnersOf (i : Z) (h : list WinRecord.t) : nat :=
  length (filter (λ r, WinRecord.stepId r = i) h).

Definition is_spin_timer (t : Timer) : Prop :=
  match callback t with CbStopSpin _ => True | _ => False end.

Definition is_transition_timer (t : Timer) : Prop :=
  match callback t with CbRoundComplete _ => True | _ => False end.

Global Instance is_spin_timer_dec t : Decision (is_spin_timer t).
Proof. unfold is_spin_timer. destruct (callback t); apply _. Defined.

Global Instance is_transition_timer_dec t : Decision (is_transition_timer t).
Proof. unfold is_transition_timer. destruct (callback t); apply _. Defined.

(** The state written by a successful initialisation. *)
Definition initialized (s : AppState) : AppState :=
  mkAppState (range_min s) (range_max s) (steps s)
    (build_nums (range_min s) (range_max s)) [] (VStr "?") (isSpinning s)
    false VNull 0 false
    (match steps s with
     | s0 :: _ => {[ Step.id s0 := true ]}
     | [] => expandedSteps s
     end).

(** The five state writes of [stopSpin], applied to the current state
    [prev]; [c] is the render the callback closes over. *)
Definition committed (c : AppState) (win : option Z) (r : WinRecord.t)
    (prev : AppState) : AppState :=
  setIsSpinning false
    (setAvailableNumbers (filter (λ n, Some n ≠ win) (availableNumbers c))
       (setHistory (r :: history prev)
          (setCurrentNumber (of_lookup win) (setWinner (of_lookup win) prev)))).

Definition winning_number (c : AppState) (u : Rand) : option Z :=
  availableNumbers c !! floor_random_times u (length (availableNumbers c)).

Definition round_done (c : AppState) (cur : Step.t) : bool :=
  js_ge (Int (Z.of_nat (winnersOf (Step.id cur) (history c) + 1))) (Step.count cur).

(** The transition timer that [stopSpin] schedules in [w]. *)
Definition transition_timer (c : AppState) (w : World) : Timer :=
  mkTimer (nextTimerId w) (clock w + 2000) 2000 None (CbRoundComplete c).

(** The capacity property as the specification words it. *)
Definition round_capacity (w : World) : Prop :=
  ∀ r, r ∈ steps (st w) →
    js_le (Int (Z.of_nat (winnersOf (Step.id r) (history (st w))))) (Step.count r) = true.

(** ** Clean runs

    A run is clean when "Initialize & Start" and "Reset Game" are only
    clicked while no timer is pending. *)

Definition clean_ok (w : World) (e : Event) : bool :=
  match e with
  | ClickInitialize | ClickReset => bool_decide (timers w = [])
  | _ => true
  end.

Definition step_clean (w : World) (e : Event) : option World :=
  if clean_ok w e then step w e else None.

Fixpoint run_clean (w : World) (es : list Event) : option World :=
  match es with
  | [] => Some w
  | e :: es' =>
      match step_clean w e with
      | Some w' => run_clean w' es'
      | None => None
      end
  end.

(** ** Invariants *)

(** What a pending [stopSpin] needs from the render [c] it closes over. *)
Definition spin_closure_ok (w : World) (c : AppState) : Prop :=
  NoDup (availableNumbers c) ∧ availableNumbers c ≠ []
  ∧ currentStepIndex c < length (steps c)
  ∧ ∀ n, n ∈ availableNumbers c → Some n ∉ drawn (st w).

Record draw_inv (w : World) : Prop := mk_draw_inv {
  inv_pool : NoDup (availableNumbers (st w));
  inv_drawn : NoDup (drawn (st w));
  inv_numbers : ∀ o, o ∈ drawn (st w) → is_Some o;
  inv_fresh : ∀ n, n ∈ availableNumbers (st w) → Some n ∉ drawn (st w);
  inv_spin : ∀ t c, t ∈ timers w → callback t = CbStopSpin c →
    timerRef w = Some (tid t) ∧ isSpinning (st w) = true ∧ spin_closure_ok w c;
  inv_config : showConfig (st w) = false →
    js_gt (totalWinnersNeeded (st w)) (totalAvailable (st w)) = false
    ∧ loop_throws (range_min (st w)) (range_max (st w)) = false
}.

(** A pending [stopSpin] belongs to a mounted component: the cleanup of the
    mount effect clears [timerRef]. *)
Definition spin_mounted (w : World) : Prop :=
  ∀ t c, t ∈ timers w → callback t = CbStopSpin c → mounted w = true.

(** [w'] keeps the pool, the history, the spinning flag and [timerRef] of
    [w], has no timer that [w] did not have, and, if it shows the draw
    screen, [w] showed it with the same configuration. *)
Definition same_draw (w w' : World) : Prop :=
  availableNumbers (st w') = availableNumbers (st w)
  ∧ history (st w') = history (st w)
  ∧ isSpinning (st w') = isSpinning (st w)
  ∧ timerRef w' = timerRef w
  ∧ (∀ t, t ∈ timers w' → ∃ y, y ∈ timers w ∧ tid y = tid t ∧ callback y = callback t)
  ∧ (showConfig (st w') = false →
     showConfig (st w) = false ∧ range_min (st w') = range_min (st w)
     ∧ range_max (st w') = range_max (st w) ∧ steps (st w') = steps (st w)).

(** The four kinds of step: one that keeps the pool and the history, an
    initialisation, an accepted spin, and the firing of a [stopSpin]. *)
Inductive step_kind (w w' : World) : Prop :=
| sk_same : same_draw w w' → mounted w' = mounted w ∨ w' = cleanup w → step_kind w w'
| sk_init : mounted w = true → w' = initializeNumbers w → step_kind w w'
| sk_spin : mounted w = true → spin_valid (st w) → w' = handleSpin w → step_kind w w'
| sk_commit (t : Timer) (c : AppState) (u : Rand) :
    t ∈ timers w → callback t = CbStopSpin c → rand_ok u = true →
    w' = stopSpin c u (with_timers (rearm t (timers w)) w) → step_kind w w'.

(** The progress of the rounds of the plan: rounds after the current one
    have no record; a round with an integer count [k] has at most
    [max k 1] records; the current round, outside a transition, has no
    record yet or has not reached its count. *)
Definition round_counts (s : AppState) : Prop :=
  ∀ j r, steps s !! j = Some r →
    (currentStepIndex s < j → winnersOf (Step.id r) (history s) = 0)
    ∧ (∀ k, Step.count r = Int k →
       (Z.of_nat (winnersOf (Step.id r) (history s)) ≤ Z.max k 1)%Z)
    ∧ (j = currentStepIndex s → isTransitioning s = false →
       winnersOf (Step.id r) (history s) = 0
       ∨ js_ge (Int (Z.of_nat (winnersOf (Step.id r) (history s)))) (Step.count r) = false).

Record game_inv (w : World) : Prop := mk_game_inv {
  g_ids : NoDup (Step.id <$> steps (st w));
  g_spin : ∀ t c, t ∈ timers w → callback t = CbStopSpin c →
    availableNumbers c = availableNumbers (st w)
    ∧ history c = history (st w)
    ∧ currentStepIndex c = currentStepIndex (st w)
    ∧ isTransitioning (st w) = false
    ∧ (showConfig (st w) = false → steps c = steps (st w));
  g_trans : ∀ t c, t ∈ timers w → callback t = CbRoundComplete c →
    currentStepIndex c = currentStepIndex (st w)
    ∧ isTransitioning (st w) = true
    ∧ delay t = 2000%Z ∧ period t = None
    ∧ (showConfig (st w) = false → steps c = steps (st w))
    ∧ ∃ cur, steps c !! currentStepIndex c = Some cur
        ∧ 1 ≤ winnersOf (Step.id cur) (history (st w))
        ∧ js_ge (Int (Z.of_nat (winnersOf (Step.id cur) (history (st w)))))
            (Step.count cur) = true;
  g_trans_one : ∀ t1 t2 c1 c2, t1 ∈ timers w → t2 ∈ timers w →
    callback t1 = CbRoundComplete c1 → callback t2 = CbRoundComplete c2 →
    tid t1 = tid t2;
  g_counts : showConfig (st w) = false → round_counts (st w)
}.

(** [w'] keeps the pool, the history, the round index and the transition
    flag of [w], has no timer that [w] did not have, and, if it shows the
    draw screen, [w] showed it with the same plan. *)
Definition same_game (w w' : World) : Prop :=
  availableNumbers (st w') = availableNumbers (st w)
  ∧ history (st w') = history (st w)
  ∧ currentStepIndex (st w') = currentStepIndex (st w)
  ∧ isTransitioning (st w') = isTransitioning (st w)
  ∧ (∀ t, t ∈ timers w' →
     ∃ y, y ∈ timers w ∧ tid y = tid t ∧ callback y = callback t
          ∧ delay y = delay t ∧ period y = period t)
  ∧ (showConfig (st w') = false →
     showConfig (st w) = false ∧ steps (st w') = steps (st w)).

(** The five kinds of step of a game. *)
Inductive game_step (w : World) (e : Event) (w' : World) : Prop :=
| gs_same : same_game w w' →
    (NoDup (Step.id <$> steps (st w)) → NoDup (Step.id <$> steps (st w'))) →
    game_step w e w'
| gs_init : e = ClickInitialize ∨ e = ClickReset →
    mounted w = true → w' = initializeNumbers w → game_step w e w'
| gs_spin : e = ClickSpin →
    mounted w = true → showConfig (st w) = false → spin_valid (st w) →
    w' = handleSpin w → game_step w e w'
| gs_commit (t : Timer) (c : AppState) (u : Rand) :
    e = Fire (tid t) u →
    t ∈ timers w → callback t = CbStopSpin c → rand_ok u = true →
    w' = stopSpin c u (with_timers (rearm t (timers w)) w) → game_step w e w'
| gs_round (t : Timer) (c : AppState) (u : Rand) :
    e = Fire (tid t) u →
    t ∈ timers w → callback t = CbRoundComplete c →
    w' = roundComplete c (with_timers (rearm t (timers w)) w) → game_step w e w'.

(** ** Scenarios *)

Definition half : Rand := mkRand 1 2.

Definition zero : Rand := mkRand 0 1.

(** The 120 ms flicker of one spin: [n] ticks of the interval [i]. *)
Definition flicker (i : nat) (u : Rand) (n : nat) : list Event :=
  mjoin (replicate n [Wait 120; Fire i u]).

(** One full spin from a state with next timer handle [i]: the click, 24
    ticks of the flicker, and the timeout (handle [i + 1]) at 3000 ms. *)
Definition spin_once (i : nat) (u : Rand) : list Event :=
  [ClickSpin] ++ flicker i u 24 ++ [Wait 120; Fire (S i) u].

(** Range 1..5 and two rounds of one winner, initialised. *)
Definition game_1_5 : list Event :=
  [EditRangeMax (Int 5); ClickAddStep; ClickInitialize].

(** Range 1..5, two rounds of one winner: both rounds are played. *)
Definition two_rounds_played : list Event :=
  game_1_5 ++ spin_once 1 half ++ [Wait 2000; Fire 3 zero]
  ++ spin_once 4 half ++ [Wait 2000; Fire 6 zero].



(** Range 1..3 and one round whose count is 0; one spin. *)
Definition zero_count_start : list Event :=
  [EditRangeMax (Int 3); EditStep 1 (FCount (Int 0)); ClickInitialize].

Definition zero_count_game : list Event := zero_count_start ++ spin_once 1 half.

(** Range 1..5, two rounds of one winner.  Round 1 is played; the spin of
    round 2 is started and "Reset Game" is clicked while it runs. *)
Definition stale_spin : list Event :=
  game_1_5 ++ spin_once 1 half ++ [Wait 2000; Fire 3 zero]
  ++ [ClickSpin; ClickReset].

(** ... the timeout of the old spin then commits into the new game, its
    transition moves the new game to round 2, and one more spin is made. *)
Definition stale_game : list Event :=
  stale_spin ++ flicker 4 zero 24 ++ [Wait 120; Fire 5 zero]
  ++ [Wait 2000; Fire 6 zero] ++ spin_once 7 zero.

(** Range 1..5, one round of two winners, played to the end; then the
    settings are opened and the count is edited to 1. *)
Definition edited_game : list Event :=
  [EditRangeMax (Int 5); EditStep 1 (FCount (Int 2)); ClickInitialize]
  ++ spin_once 1 half ++ spin_once 3 half ++ [Wait 2000; Fire 5 zero]
  ++ [ClickSettings; EditStep 1 (FCount (Int 1))].

(** Three rounds of one winner on 1..5. *)
Definition three_rounds : list Event :=
  [EditRangeMax (Int 5); ClickAddStep; ClickAddStep; ClickInitialize].


(** ** The plan of rounds *)

(** The ids of a plan are in strictly increasing order. *)
Fixpoint increasing (l : list Z) : Prop :=
  match l with
  | [] => True
  | x :: l' => Forall (Z.lt x) l' ∧ increasing l'
  end.

(** [expandedSteps[i]] as the history panel tests it: a missing key is
    falsy. *)
Definition isExpanded (i : Z) (s : AppState) : bool :=
  default false (expandedSteps s !! i).

(** ** Timers *)

Definition is_tick_timer (t : Timer) : Prop :=
  match callback t with CbTick _ => True | _ => False end.

(** The discipline of the pending timers.  Handles are distinct and below
    the next handle.  A pending flicker is the interval [intervalRef]
    holds, and the timeout of its spin, with the same closure, is pending
    too; a pending [stopSpin] is a timeout and its flicker is pending; a
    pending transition is a timeout.  A mounted component that shows the
    wheel spinning has its [stopSpin] pending. *)
Record timer_inv (w : World) : Prop := mk_timer_inv {
  t_ids : NoDup (tid <$> timers w);
  t_fresh : ∀ t, t ∈ timers w → 1 ≤ tid t < nextTimerId w;
  t_tick : ∀ t c, t ∈ timers w → callback t = CbTick c →
    intervalRef w = Some (tid t) ∧ period t = Some 120%Z
    ∧ availableNumbers c ≠ []
    ∧ ∃ t', t' ∈ timers w ∧ callback t' = CbStopSpin c;
  t_spin : ∀ t c, t ∈ timers w → callback t = CbStopSpin c →
    period t = None ∧ delay t = 3000%Z
    ∧ ∃ t', t' ∈ timers w ∧ callback t' = CbTick c;
  t_trans : ∀ t c, t ∈ timers w → callback t = CbRoundComplete c →
    period t = None ∧ delay t = 2000%Z
    ∧ timerRef w ≠ Some (tid t) ∧ intervalRef w ≠ Some (tid t);
  t_refs : ∀ i, timerRef w = Some i ∨ intervalRef w = Some i → i < nextTimerId w;
  t_spinning : mounted w = true → isSpinning (st w) = true →
    ∃ t c, t ∈ timers w ∧ callback t = CbStopSpin c;
  t_next : 1 ≤ nextTimerId w
}.

(** The kinds of step, by what they do to the timers. *)
Inductive timer_step (w : World) (e : Event) (w' : World) : Prop :=
| ts_keep :
    timers w' = timers w → nextTimerId w' = nextTimerId w →
    timerRef w' = timerRef w → intervalRef w' = intervalRef w →
    mounted w' = mounted w → isSpinning (st w') = isSpinning (st w) →
    timer_step w e w'
| ts_spin : mounted w = true → spin_valid (st w) → w' = handleSpin w →
    timer_step w e w'
| ts_tick (t : Timer) (c : AppState) (u : Rand) :
    e = Fire (tid t) u → t ∈ timers w → callback t = CbTick c → rand_ok u = true →
    w' = tick c u (with_timers (rearm t (timers w)) w) → timer_step w e w'
| ts_commit (t : Timer) (c : AppState) (u : Rand) :
    e = Fire (tid t) u → t ∈ timers w → callback t = CbStopSpin c → rand_ok u = true →
    w' = stopSpin c u (with_timers (rearm t (timers w)) w) → timer_step w e w'
| ts_round (t : Timer) (c : AppState) (u : Rand) :
    e = Fire (tid t) u → t ∈ timers w → callback t = CbRoundComplete c →
    w' = roundComplete c (with_timers (rearm t (timers w)) w) → timer_step w e w'
| ts_unmount : e = Unmount → mounted w = true → w' = cleanup w → timer_step w e w'.

(** A list of effects without an alert. *)
Definition quiet (l : list Effect) : Prop := ∀ m, Alert m ∉ l.

(** The label of the spin button. *)
Definition spinLabel (s : AppState) : string :=
  if isSpinning s then "Spinning..."
  else if isTransitioning s then "Next round..."
  else if isGameFinished s then "Finished"
  else if bool_decide (length (availableNumbers s) = 0) then "No numbers left"
  else "SPIN".

(** The books of a game on the draw screen: every record carries the id
    and the name of a round of the plan; the pool and the drawn numbers
    together are the numbers of the configured range; every round before
    the current one has a winner and has reached its count. *)
Record ledger_inv (s : AppState) : Prop := mk_ledger_inv {
  l_plan : ∀ r, r ∈ history s →
    ∃ x, x ∈ steps s ∧ Step.id x = WinRecord.stepId r
         ∧ Step.name x = WinRecord.stepName r;
  l_numbers : (Some <$> availableNumbers s) ++ drawn s
              ≡ₚ Some <$> build_nums (range_min s) (range_max s);
  l_closed : ∀ j x, steps s !! j = Some x → j < currentStepIndex s →
    1 ≤ winnersOf (Step.id x) (history s)
    ∧ js_ge (Int (Z.of_nat (winnersOf (Step.id x) (history s)))) (Step.count x) = true
}.

Definition ledger (w : World) : Prop := showConfig (st w) = false → ledger_inv (st w).

(** JavaScript truthiness of a displayed value. *)
Definition truthy (v : jsval) : bool :=
  match v with
  | VNull | VUndefined => false
  | VNum z => negb (z =? 0)%Z
  | VStr s => negb (String.eqb s EmptyString)
  end.

(** The result area under the wheel: the congratulation with the round
    name [history[0]?.stepName ?? 'Lucky number'], the end-of-game message,
    or nothing. *)
Inductive Banner : Type :=
| Congratulation (roundName : string)
| GameOver
| NoBanner.

Definition banner (s : AppState) : Banner :=
  if truthy (winner s) then
    Congratulation
      (match history s !! 0 with
       | Some r => WinRecord.stepName r
       | None => "Lucky number"
       end)
  else if isGameFinished s then GameOver
  else NoBanner.

(** The winner shown is the number of the newest record. *)
Definition winner_inv (s : AppState) : Prop :=
  winner s = VNull
  ∨ ∃ r rest n, history s = r :: rest ∧ WinRecord.number r = Some n ∧ winner s = VNum n.

(** ** The audio fallback

    An audio element as [applyFallback] sees it: its [src] and whether the
    one-shot error listener is still registered. *)
Module Audio.
Record t : Type := mk { src : string; listening : bool }.
End Audio.

(** [urls.indexOf(x)], [-1] when [x] is not in [urls]. *)
Fixpoint indexOf (urls : list string) (x : string) : Z :=
  match urls with
  | [] => (-1)%Z
  | y :: urls' =>
      if String.eqb y x then 0%Z
      else let i := indexOf urls' x in
           if (i =? -1)%Z then (-1)%Z else (i + 1)%Z
  end.

Definition onError (urls : list string) (el : Audio.t) : Audio.t :=
  let next := (indexOf urls (Audio.src el) + 1)%Z in
  if (next <? Z.of_nat (length urls))%Z then
    match urls !! Z.to_nat next with
    | Some url => Audio.mk url (Audio.listening el)
    | None => el
    end
  else el.

Definition applyFallback (el : Audio.t) : Audio.t := Audio.mk (Audio.src el) true.

(** An [error] event on the element: a listener registered with
    [{ once: true }] is removed before it runs. *)
Definition error_event (urls : list string) (el : Audio.t) : Audio.t :=
  if Audio.listening el then onError urls (Audio.mk (Audio.src el) false) else el.

Fixpoint error_events (n : nat) (urls : list string) (el : Audio.t) : Audio.t :=
  match n with
  | O => el
  | S n' => error_events n' urls (error_event urls el)
  end.

(** The two sources of the tick sound. *)
Definition SOUND_URLS_tick : list string :=
  ["https://assets.mixkit.co/active_storage/sfx/2568/2568-preview.m4a";
   "https://assets.mixkit.co/active_storage/sfx/2568/2568.wav"].

(** ** The progress of the current round *)

Module Progress.
Record t : Type := mk { current : nat; total : jsnum; finished : bool }.
End Progress.

(** [None]: the read of [currentStep.id] throws, [steps[currentStepIndex]]
    being [undefined]. *)
Definition getCurrentStepProgress (s : AppState) : option Progress.t :=
  if bool_decide (length (steps s) ≤ currentStepIndex s) then
    Some (Progress.mk 0 (Int 0) true)
  else
    match steps s !! currentStepIndex s with
    | Some currentStep =>
        let winnersInThisStep := winnersOf (Step.id currentStep) (history s) in
        Some (Progress.mk winnersInThisStep (Step.count currentStep)
                (js_ge (Int (Z.of_nat winnersInThisStep)) (Step.count currentStep)))
    | None => None
    end.

(** ** Basic facts about the handlers *)

Section setters.
Context (w : World).

Lemma setState_mounted f : mounted w = true → setState f w = with_st (f (st w)) w.
Proof. unfold setState. by intros ->. Qed.

Lemma setState_unmounted f : mounted w = false → setState f w = w.
Proof. unfold setState. by intros ->. Qed.

Lemma setState_timers f : timers (setState f w) = timers w.
Proof. unfold setState. by destruct (mounted w). Qed.

Lemma setState_mounted_eq f : mounted (setState f w) = mounted w.
Proof. unfold setState. by destruct (mounted w) eqn:E. Qed.


Lemma setState_clock f : clock (setState f w) = clock w.
Proof. unfold setState. by destruct (mounted w). Qed.

Lemma setState_next f : nextTimerId (setState f w) = nextTimerId w.
Proof. unfold setState. by destruct (mounted w). Qed.

Lemma setState_refs f :
    timerRef (setState f w) = timerRef w ∧ intervalRef (setState f w) = intervalRef w.
Proof. unfold setState. by destruct (mounted w). Qed.
End setters.

(** ** Doubles that are exact *)

Lemma INF_big : (2 ^ 54 < INF)%Z.
Proof. by vm_compute. Qed.

Global Opaque INF.

Lemma is_inf_small (x : Z) : (Z.abs x ≤ 2 ^ 54)%Z → is_inf x = false.
Proof. intros Hx. unfold is_inf. apply Z.leb_gt. pose proof INF_big. lia. Qed.

Lemma round53_small (z : Z) : (Z.abs z ≤ 2 ^ 53)%Z → round53 z = z.
Proof. intros Hz. unfold round53. by rewrite (proj2 (Z.leb_le _ _) Hz). Qed.

Lemma js_add_small (x y : Z) :
  (Z.abs x ≤ 2 ^ 54)%Z → (Z.abs y ≤ 2 ^ 54)%Z → (Z.abs (x + y) ≤ 2 ^ 53)%Z →
  js_add (Int x) (Int y) = Int (x + y).
Proof.
  intros Hx Hy Hxy. unfold js_add.
  by rewrite (is_inf_small x Hx), (is_inf_small y Hy), (round53_small _ Hxy).
Qed.

Lemma js_sub_small (x y : Z) :
  (Z.abs x ≤ 2 ^ 54)%Z → (Z.abs y ≤ 2 ^ 54)%Z → (Z.abs (x - y) ≤ 2 ^ 53)%Z →
  js_sub (Int x) (Int y) = Int (x - y).
Proof.
  intros Hx Hy Hxy. unfold js_sub. rewrite js_add_small; [done|done|lia|].
  by replace (x + - y)%Z with (x - y)%Z by lia.
Qed.

Lemma js_add_NaN_r (a : jsnum) : js_add a NaN = NaN.
Proof. by destruct a. Qed.

Lemma js_sub_NaN_r (a : jsnum) : js_sub a NaN = NaN.
Proof. by destruct a. Qed.

Lemma incr_small (i : Z) : (- 2 ^ 53 ≤ i < 2 ^ 53)%Z → incr i = (i + 1)%Z.
Proof. intros Hi. unfold incr. rewrite js_add_small; [done|lia..]. Qed.

(** The size that [initializeNumbers] computes for bounds that are exact. *)
Lemma totalAvailable_small (s : AppState) (a b : Z) :
  range_min s = Int a → range_max s = Int b → safe_bound a → safe_bound b →
  totalAvailable s = Int (b - a + 1).
Proof.
  unfold safe_bound. intros Ha Hb Hsa Hsb. unfold totalAvailable. rewrite Ha, Hb.
  rewrite js_sub_small by lia. rewrite js_add_small; [done|lia..].
Qed.

(** ** The loop of [initializeNumbers] *)

(** A loop that ends returned numbers between its bounds, in increasing
    order, whatever the doubles are. *)
Lemma push_loop_Some (fuel : nat) (i max : Z) (nums l : list Z) :
  push_loop fuel i max nums = Some l →
  ∃ k, l = nums ++ k ∧ (∀ x, x ∈ k → (i ≤ x ≤ max)%Z) ∧ NoDup k.
Proof.
  revert i nums. induction fuel as [|fuel IH]; intros i nums; simpl.
  - destruct (Z.leb_spec i max); [done|]. intros [= <-].
    exists []. rewrite app_nil_r. split_and!; [done| |constructor].
    by intros x ?%elem_of_nil.
  - destruct (Z.leb_spec i max) as [Hle|Hgt].
    + destruct (Z.leb_spec (incr i) i) as [|Hup]; [done|].
      intros (k & -> & Hk & Hnd)%IH. exists (i :: k).
      rewrite <- app_assoc. split_and!; [done| |].
      * intros x [->|Hx]%elem_of_cons; [lia|]. specialize (Hk x Hx). lia.
      * apply NoDup_cons. split; [|done]. intros Hi. specialize (Hk i Hi). lia.
    + intros [= <-]. exists []. rewrite app_nil_r. split_and!; [done| |constructor].
      by intros x ?%elem_of_nil.
Qed.

(** Between -2^53 and 2^53 the counter is exact: with enough pushes allowed
    the loop returns the integers from [i] to [max]; with fewer it does not
    end. *)
Lemma push_loop_enough (fuel : nat) (i max : Z) (nums : list Z) :
  (- 2 ^ 53 ≤ i)%Z → (max < 2 ^ 53)%Z → (max - i + 1 ≤ Z.of_nat fuel)%Z →
  push_loop fuel i max nums = Some (nums ++ seqZ i (max - i + 1)).
Proof.
  revert i nums. induction fuel as [|fuel IH]; intros i nums Hi Hmax Hfuel; simpl.
  - rewrite (proj2 (Z.leb_gt _ _)) by lia. rewrite seqZ_nil by lia.
    by rewrite app_nil_r.
  - destruct (Z.leb_spec i max) as [Hle|Hgt].
    + rewrite incr_small by lia. rewrite (proj2 (Z.leb_gt _ _)) by lia.
      rewrite IH by lia. rewrite <- app_assoc. do 2 f_equal.
      rewrite (seqZ_cons i (max - i + 1)) by lia. simpl. do 2 f_equal; lia.
    + rewrite seqZ_nil by lia. by rewrite app_nil_r.
Qed.

Lemma push_loop_short (fuel : nat) (i max : Z) (nums : list Z) :
  (- 2 ^ 53 ≤ i)%Z → (max < 2 ^ 53)%Z → (Z.of_nat fuel < max - i + 1)%Z →
  push_loop fuel i max nums = None.
Proof.
  revert i nums. induction fuel as [|fuel IH]; intros i nums Hi Hmax Hfuel; simpl.
  - by rewrite (proj2 (Z.leb_le _ _)) by lia.
  - rewrite (proj2 (Z.leb_le i max)) by lia.
    rewrite incr_small by lia. rewrite (proj2 (Z.leb_gt _ _)) by lia.
    apply IH; lia.
Qed.

(** The loop on bounds between -2^53 and 2^53: it returns the integers from
    [a] to [b] when they are at most [MAX_ARRAY], and throws otherwise. *)
Lemma loop_int (a b : Z) :
  (- 2 ^ 53 ≤ a)%Z → (b < 2 ^ 53)%Z →
  loop (Int a) (Int b)
  = if (b - a + 1 <=? MAX_ARRAY)%Z then Some (seqZ a (b - a + 1)) else None.
Proof.
  intros Ha Hb. unfold loop. destruct (Z.leb_spec (b - a + 1) MAX_ARRAY) as [Hle|Hgt].
  - rewrite Z.min_l by done. apply (push_loop_enough _ a b []); [done..|lia].
  - rewrite Z.min_r by lia. apply push_loop_short; [done..|].
    unfold MAX_ARRAY in *. lia.
Qed.

Lemma build_nums_int (a b : Z) :
  (- 2 ^ 53 ≤ a)%Z → (b < 2 ^ 53)%Z → (b - a + 1 ≤ MAX_ARRAY)%Z →
  build_nums (Int a) (Int b) = seqZ a (b - a + 1).
Proof.
  intros Ha Hb Hsize. unfold build_nums. rewrite loop_int by done.
  by rewrite (proj2 (Z.leb_le _ _) Hsize).
Qed.

Lemma build_nums_elem (a b x : Z) :
  (- 2 ^ 53 ≤ a)%Z → (b < 2 ^ 53)%Z → (b - a + 1 ≤ MAX_ARRAY)%Z →
  x ∈ build_nums (Int a) (Int b) ↔ (a ≤ x ≤ b)%Z.
Proof. intros Ha Hb Hsize. rewrite build_nums_int, elem_of_seqZ by done. lia. Qed.

(** Whatever the doubles are, the numbers of the array are numbers of the
    range, each once. *)
Lemma build_nums_range (a b x : Z) :
  x ∈ build_nums (Int a) (Int b) → (a ≤ x ≤ b)%Z.
Proof.
  unfold build_nums, loop.
  destruct (push_loop _ a b []) as [l|] eqn:Hl; simpl; [|by intros ?%elem_of_nil].
  apply push_loop_Some in Hl as (k & -> & Hk & _). simpl. apply Hk.
Qed.

Lemma build_nums_NoDup (lo hi : jsnum) : NoDup (build_nums lo hi).
Proof.
  unfold build_nums, loop. destruct lo as [a|], hi as [b|]; simpl;
    try apply NoDup_nil_2.
  destruct (push_loop _ a b []) as [l|] eqn:Hl; simpl; [|apply NoDup_nil_2].
  by apply push_loop_Some in Hl as (k & -> & _ & Hnd).
Qed.

Lemma loop_throws_NaN (lo hi : jsnum) : lo = NaN ∨ hi = NaN → loop_throws lo hi = false.
Proof. intros [->| ->]; [done|by destruct lo]. Qed.


(** The sum computed by [steps.reduce] when every count is an integer and
    the running sums are exact. *)
Lemma foldl_js_add (cs : list Z) (acc : Z) (ss : list Step.t) :
  Step.count <$> ss = Int <$> cs →
  (Z.abs acc ≤ 2 ^ 53)%Z → sums_safe acc cs = true →
  foldl (λ sum step, js_add sum (Step.count step)) (Int acc) ss
  = Int (acc + foldr Z.add 0 cs)%Z.
Proof.
  revert cs acc. induction ss as [|x ss IH]; intros [|c cs] acc Heq Hacc Hsafe;
    try done.
  - simpl. f_equal; lia.
  - rewrite !fmap_cons in Heq. injection Heq as Hc Hcs.
    cbn [foldl sums_safe foldr] in *. rewrite Hc.
    apply andb_true_iff in Hsafe as [Hk%Z.leb_le Hsafe].
    rewrite js_add_small by lia.
    rewrite (IH cs) by done. f_equal. lia.
Qed.

Lemma totalWinnersNeeded_int (s : AppState) (cs : list Z) :
  Step.count <$> steps s = Int <$> cs → sums_safe 0 cs = true →
  totalWinnersNeeded s = Int (foldr Z.add 0 cs)%Z.
Proof.
  intros H Hs. unfold totalWinnersNeeded. by rewrite (foldl_js_add cs); [|done|lia|done].
Qed.

(** ** Starting a spin *)

Lemma spinDisabled_false (s : AppState) : spinDisabled s = false ↔ spin_valid s.
Proof.
  unfold spinDisabled, spin_valid, isGameFinished.
  rewrite !orb_false_iff, !bool_decide_eq_false.
  destruct (availableNumbers s); simpl; intuition (try done; try lia).
Qed.

(** [handleSpin] passes its three tests whatever [isSpinning] is. *)
Lemma handleSpin_runs (w : World) :
  isTransitioning (st w) = false → availableNumbers (st w) ≠ [] →
  currentStepIndex (st w) < length (steps (st w)) →
  handleSpin w
  = setTimerRef (Some (S (nextTimerId w)))
      (schedule 3000 None (CbStopSpin (st w))
         (setIntervalRef (Some (nextTimerId w))
            (schedule 120 (Some 120%Z) (CbTick (st w))
               (emit StopAll
                  (setState (setWinner VNull) (setState (setIsSpinning true) w)))))).
Proof.
  intros Htr Hpool Hidx. unfold handleSpin.
  rewrite bool_decide_eq_false_2 by (destruct (availableNumbers (st w)); simpl; [done|lia]).
  rewrite bool_decide_eq_false_2 by lia. rewrite Htr.
  by destruct w as [s tr ir ts n c [] l].
Qed.

Lemma handleSpin_accepted (w : World) :
  spin_valid (st w) →
  handleSpin w
  = setTimerRef (Some (S (nextTimerId w)))
      (schedule 3000 None (CbStopSpin (st w))
         (setIntervalRef (Some (nextTimerId w))
            (schedule 120 (Some 120%Z) (CbTick (st w))
               (emit StopAll
                  (setState (setWinner VNull) (setState (setIsSpinning true) w)))))).
Proof. intros (_ & Htr & Hpool & Hidx). by apply handleSpin_runs. Qed.

(** C1.  A click on the spin button starts a spin exactly when the engine is
    not spinning, not transitioning, the pool is non-empty and the current
    round exists; it then schedules the 120 ms flicker and the 3000 ms
    timeout.  In every other state the click changes nothing at all (state,
    refs, timers, log).  [handleSpin] itself tests the empty pool, the
    missing round and the transition, each on its own; the spinning case is
    kept out by the [disabled] attribute of the button, the only caller. *)
Theorem C1_startSpin_guard (w : World) :
  (clickSpin w ≠ w ↔ spin_valid (st w))
  ∧ (¬ spin_valid (st w) → clickSpin w = w)
  ∧ (spin_valid (st w) →
     timers (clickSpin w)
     = timers w
       ++ [mkTimer (nextTimerId w) (clock w + 120) 120 (Some 120%Z) (CbTick (st w));
           mkTimer (S (nextTimerId w)) (clock w + 3000) 3000 None (CbStopSpin (st w))]
     ∧ (mounted w = true → isSpinning (st (clickSpin w)) = true))
  ∧ (isTransitioning (st w) = true ∨ availableNumbers (st w) = []
     ∨ length (steps (st w)) ≤ currentStepIndex (st w) →
     st (handleSpin w) = st w ∧ timers (handleSpin w) = timers w
     ∧ timerRef (handleSpin w) = timerRef w
     ∧ intervalRef (handleSpin w) = intervalRef w).
Proof.
  assert (Hno : ¬ spin_valid (st w) → clickSpin w = w).
  { intros Hn. unfold clickSpin.
    destruct (spinDisabled (st w)) eqn:Hd; [done|].
    by apply spinDisabled_false in Hd. }
  assert (Hyes : spin_valid (st w) → clickSpin w = handleSpin w).
  { intros Hv. unfold clickSpin. by rewrite (proj2 (spinDisabled_false _) Hv). }
  split_and!; [split| done | |].
  - intros Hne. destruct (decide (spin_valid (st w))) as [|Hn]; [done|].
    by destruct Hne; apply Hno.
  - intros Hv Heq. rewrite (Hyes Hv), (handleSpin_accepted _ Hv) in Heq.
    apply (f_equal nextTimerId) in Heq. simpl in Heq.
    rewrite !setState_next in Heq. lia.
  - intros Hv. rewrite (Hyes Hv), (handleSpin_accepted _ Hv). split.
    + simpl. rewrite !setState_timers, !setState_next, !setState_clock.
      by rewrite <- app_assoc.
    + intros Hm. simpl. unfold setState. rewrite Hm. simpl. by rewrite Hm.
  - intros Hrej. unfold handleSpin.
    repeat case_bool_decide; simpl; try done.
    destruct (isTransitioning (st w)) eqn:Htr; [done|].
    destruct Hrej as [|[Hnil|]]; [done| |lia].
    rewrite Hnil in *. simpl in *. lia.
Qed.

Lemma C1_startSpin_guard_witness :
  ∃ w, run initial_world game_1_5 = Some w
       ∧ spin_valid (st w) ∧ clickSpin w ≠ w
       ∧ clickSpin (clickSpin w) = clickSpin w.
Proof.
  eexists. split; [vm_compute; reflexivity|].
  match goal with |- spin_valid (st ?w) ∧ _ =>
    assert (Hv : spin_valid (st w)) by (vm_compute; intuition (done || lia));
    pose proof (C1_startSpin_guard w) as (Hiff & _);
    pose proof (C1_startSpin_guard (clickSpin w)) as (_ & Hno & _)
  end.
  split; [exact Hv|]. split; [by apply Hiff|].
  apply Hno. vm_compute. intros (? & _). done.
Defined.

(** ** Initialisation *)

Lemma initializeNumbers_rejected (w : World) :
  js_gt (totalWinnersNeeded (st w)) (totalAvailable (st w)) = true →
  initializeNumbers w
  = emit (Alert (InsufficientPool (totalWinnersNeeded (st w)) (totalAvailable (st w)))) w.
Proof. unfold initializeNumbers. by intros ->. Qed.

Lemma initializeNumbers_throws (w : World) :
  js_gt (totalWinnersNeeded (st w)) (totalAvailable (st w)) = false →
  loop_throws (range_min (st w)) (range_max (st w)) = true →
  initializeNumbers w = w.
Proof. unfold initializeNumbers. by intros -> ->. Qed.

Lemma initializeNumbers_accepted (w : World) :
  js_gt (totalWinnersNeeded (st w)) (totalAvailable (st w)) = false →
  loop_throws (range_min (st w)) (range_max (st w)) = false →
  initializeNumbers w
  = emit StopAll (setState (λ _, initialized (st w)) w).
Proof.
  unfold initializeNumbers. intros -> ->.
  destruct w as [[? ? ss ? ? ? ? ? ? ? ? ?] tr ir ts n c [] l]; by destruct ss.
Qed.







(** ** The invariant of every run *)

Lemma draw_inv_same (w w' : World) : same_draw w w' → draw_inv w → draw_inv w'.
Proof.
  intros (Hp & Hh & Hs & Hr & Ht & Hc) [I1 I2 I3 I4 I5 I6].
  unfold drawn in *. split; unfold spin_closure_ok, drawn; rewrite ?Hp, ?Hh, ?Hs, ?Hr; try done.
  - intros t c [y (Hy & Htid & Hcb)]%Ht Hcall. rewrite <- Htid.
    apply (I5 y c Hy). congruence.
  - intros (Hshow & Hlo & Hhi & Hst)%Hc.
    unfold totalWinnersNeeded, totalAvailable. rewrite Hlo, Hhi, Hst. by apply I6.
Qed.

Lemma rearm_elem (t x : Timer) (ts : list Timer) :
  x ∈ rearm t ts → ∃ y, y ∈ ts ∧ tid y = tid x ∧ callback y = callback x.
Proof.
  unfold rearm. destruct (period t) as [p|].
  - intros (y & -> & Hy)%list_elem_of_fmap. exists y. by case_bool_decide.
  - intros [_ Hx]%list_elem_of_filter. by exists x.
Qed.

Lemma rearm_oneshot_elem (t x : Timer) (ts : list Timer) :
  period t = None → x ∈ rearm t ts → x ∈ ts ∧ tid x ≠ tid t.
Proof. unfold rearm. intros ->. by intros [? ?]%list_elem_of_filter. Qed.

Lemma clearRef_elem (r : option nat) (w : World) (x : Timer) :
  x ∈ timers (clearRef r w) ↔ x ∈ timers w ∧ r ≠ Some (tid x).
Proof.
  destruct r as [i|]; simpl; [|naive_solver].
  rewrite list_elem_of_filter. naive_solver.
Qed.

Lemma clearRef_st r w : st (clearRef r w) = st w.
Proof. by destruct r. Qed.

Lemma clearRef_fields r w :
  timerRef (clearRef r w) = timerRef w ∧ intervalRef (clearRef r w) = intervalRef w
  ∧ mounted (clearRef r w) = mounted w ∧ clock (clearRef r w) = clock w
  ∧ log (clearRef r w) = log w ∧ nextTimerId (clearRef r w) = nextTimerId w.
Proof. by destruct r. Qed.

Lemma find_timer_Some (i : nat) (ts : list Timer) (t : Timer) :
  find_timer i ts = Some t → t ∈ ts ∧ tid t = i.
Proof.
  unfold find_timer. destruct (list_find _ ts) as [[k y]|] eqn:Hf; simpl; [|done].
  intros [= <-]. apply list_find_Some in Hf as (Hk & Hy & _).
  split; [by eapply list_elem_of_lookup_2|done].
Qed.

(** [Math.floor(Math.random() * n)] is an index of a non-empty array. *)
Lemma floor_random_times_lt (u : Rand) (n : nat) :
  rand_ok u = true → 0 < n → floor_random_times u n < n.
Proof.
  unfold rand_ok, floor_random_times. intros Hu%Nat.ltb_lt Hn.
  apply Nat.Div0.div_lt_upper_bound. nia.
Qed.

Lemma same_draw_refl (w : World) : same_draw w w.
Proof. unfold same_draw. naive_solver. Qed.

Lemma same_draw_trans (w1 w2 w3 : World) :
  same_draw w1 w2 → same_draw w2 w3 → same_draw w1 w3.
Proof.
  intros (Hp & Hh & Hs & Hr & Ht & Hc) (Hp' & Hh' & Hs' & Hr' & Ht' & Hc').
  unfold same_draw. split_and!; try congruence.
  - intros t [y (Hy & Htid & Hcb)]%Ht'. destruct (Ht y Hy) as (z & Hz & ? & ?).
    exists z. split_and!; congruence.
  - intros (Hshow & ? & ? & ?)%Hc'. destruct (Hc Hshow) as (? & ? & ? & ?).
    split_and!; congruence.
Qed.

Lemma same_draw_setState (f : AppState → AppState) (w : World) :
  availableNumbers (f (st w)) = availableNumbers (st w) →
  history (f (st w)) = history (st w) →
  isSpinning (f (st w)) = isSpinning (st w) →
  (showConfig (f (st w)) = false →
   showConfig (st w) = false ∧ range_min (f (st w)) = range_min (st w)
   ∧ range_max (f (st w)) = range_max (st w) ∧ steps (f (st w)) = steps (st w)) →
  same_draw w (setState f w).
Proof.
  intros. unfold setState. destruct (mounted w); [|apply same_draw_refl].
  unfold same_draw. simpl. naive_solver.
Qed.

Lemma same_draw_emit (e : Effect) (w : World) : same_draw w (emit e w).
Proof. unfold same_draw. simpl. naive_solver. Qed.

Lemma same_draw_timers (ts : list Timer) (w : World) :
  (∀ t, t ∈ ts → ∃ y, y ∈ timers w ∧ tid y = tid t ∧ callback y = callback t) →
  same_draw w (with_timers ts w).
Proof. unfold same_draw. simpl. naive_solver. Qed.

Lemma same_draw_clearRef (r : option nat) (w : World) : same_draw w (clearRef r w).
Proof.
  destruct r as [i|]; [|apply same_draw_refl].
  apply same_draw_timers. intros t [_ Ht]%list_elem_of_filter. by exists t.
Qed.

Lemma same_draw_tick (c : AppState) (u : Rand) (w : World) : same_draw w (tick c u w).
Proof.
  unfold tick. eapply same_draw_trans; [|apply same_draw_emit].
  by apply same_draw_setState.
Qed.

Lemma same_draw_roundComplete (c : AppState) (w : World) :
  same_draw w (roundComplete c w).
Proof.
  unfold roundComplete.
  repeat first
    [ case_bool_decide | case_match
    | apply same_draw_refl
    | (eapply same_draw_trans; [|by apply same_draw_setState])
    | apply same_draw_emit ].
Qed.

Lemma same_draw_cleanup (w : World) : same_draw w (cleanup w).
Proof.
  unfold cleanup.
  eapply same_draw_trans;
    [eapply same_draw_trans; [apply (same_draw_clearRef (intervalRef w))|
                              apply same_draw_clearRef]|].
  unfold same_draw. simpl. naive_solver.
Qed.

Lemma same_draw_config_edit (f : AppState → AppState) (w : World) :
  showConfig (st w) = true →
  availableNumbers (f (st w)) = availableNumbers (st w) →
  history (f (st w)) = history (st w) →
  isSpinning (f (st w)) = isSpinning (st w) →
  showConfig (f (st w)) = showConfig (st w) →
  same_draw w (setState f w).
Proof. intros Hshow ? ? ? Hsame. apply same_draw_setState; try done. congruence. Qed.

(** Every pending [stopSpin] is the one [timerRef] holds, so a spin that
    the button lets through finds none pending. *)
Lemma draw_inv_handleSpin (w : World) :
  mounted w = true → draw_inv w → spin_valid (st w) → draw_inv (handleSpin w).
Proof.
  intros Hm [I1 I2 I3 I4 I5 I6] Hv. rewrite (handleSpin_accepted _ Hv).
  destruct Hv as (Hspin & Htr & Hpool & Hidx).
  destruct w as [s tr ir ts n c m l]. simpl in *. subst m. simpl.
  split; simpl; try done.
  intros t c' Ht Hcb. rewrite <- app_assoc in Ht.
  apply elem_of_app in Ht as [Ht|Ht].
  - destruct (I5 t c' Ht Hcb) as (_ & Hs & _). congruence.
  - apply elem_of_cons in Ht as [->|Ht]; [done|].
    apply list_elem_of_singleton in Ht as ->. simpl in *. simplify_eq.
    by split_and!.
Qed.

Lemma draw_inv_initializeNumbers (w : World) :
  draw_inv w → draw_inv (initializeNumbers w).
Proof.
  intros Hinv.
  destruct (js_gt (totalWinnersNeeded (st w)) (totalAvailable (st w))) eqn:Hgt.
  - rewrite initializeNumbers_rejected by done.
    eapply draw_inv_same; [apply same_draw_emit|done].
  - destruct (loop_throws (range_min (st w)) (range_max (st w))) eqn:Hloop;
      [by rewrite initializeNumbers_throws|].
    rewrite initializeNumbers_accepted by done.
    destruct (mounted w) eqn:Hm.
    + destruct Hinv as [I1 I2 I3 I4 I5 I6].
      rewrite setState_mounted by done. split; simpl.
      * apply build_nums_NoDup.
      * apply NoDup_nil_2.
      * by intros o ?%elem_of_nil.
      * by intros n _ ?%elem_of_nil.
      * intros t c Ht Hcb. destruct (I5 t c Ht Hcb) as (? & ? & ? & ? & ? & ?).
        split_and!; try done. split_and!; try done.
        intros n _. unfold drawn. simpl. apply not_elem_of_nil.
      * done.
    + rewrite setState_unmounted by done.
      eapply draw_inv_same; [apply same_draw_emit|done].
Qed.

(** ** The commit *)

Lemma stopSpin_unfold (c : AppState) (u : Rand) (w : World) (cur : Step.t) :
  steps c !! currentStepIndex c = Some cur →
  let w0 := clearRef (timerRef w) (clearRef (intervalRef w) w) in
  let r := WinRecord.mk (winning_number c u) (Step.id cur) (Step.name cur) (clock w) in
  let w1 := emit PlayWin (emit FireConfetti (setState (committed c (winning_number c u) r) w0)) in
  stopSpin c u w
  = if round_done c cur
    then schedule 2000 None (CbRoundComplete c) (setState (setIsTransitioning true) w1)
    else w1.
Proof.
  intros Hcur. unfold stopSpin, round_done, winnersOf, winning_number. rewrite Hcur.
  destruct w as [s tr ir ts n k [] l], ir, tr; simpl; by case_match.
Qed.

Lemma stopSpin_throw (c : AppState) (u : Rand) (w : World) :
  steps c !! currentStepIndex c = None →
  stopSpin c u w = clearRef (timerRef w) (clearRef (intervalRef w) w).
Proof.
  intros Hcur. unfold stopSpin. rewrite Hcur. by destruct (intervalRef w).
Qed.

Lemma winning_number_Some (c : AppState) (u : Rand) :
  rand_ok u = true → availableNumbers c ≠ [] →
  ∃ n, winning_number c u = Some n ∧ n ∈ availableNumbers c.
Proof.
  intros Hu Hne. unfold winning_number.
  destruct (lookup_lt_is_Some_2 (availableNumbers c)
              (floor_random_times u (length (availableNumbers c)))) as [n Hn].
  { apply floor_random_times_lt; [done|].
    destruct (availableNumbers c); simpl; [done|lia]. }
  exists n. split; [done|]. by eapply list_elem_of_lookup_2.
Qed.

(** The pool after the commit is the pool the draw was made from without
    the winner: one element shorter when that pool has no repetition. *)
Lemma filter_winner (pool : list Z) (n : Z) :
  NoDup pool → n ∈ pool →
  S (length (filter (λ m, Some m ≠ Some n) pool)) = length pool
  ∧ (n ∉ filter (λ m, Some m ≠ Some n) pool)
  ∧ (∀ m, m ∈ filter (λ m, Some m ≠ Some n) pool ↔ m ∈ pool ∧ m ≠ n).
Proof.
  intros Hnd Hin. split_and!.
  - induction Hnd as [|x l Hx Hnd IH]; [by apply elem_of_nil in Hin|].
    rewrite filter_cons. case_decide as Hd.
    + simpl. f_equal. apply IH.
      apply elem_of_cons in Hin as [->|]; [done|done].
    + injection Hd as ->.
      simpl. f_equal. clear IH Hin. induction l as [|y l IH]; [done|].
      apply not_elem_of_cons in Hx as [Hne Hx]. apply NoDup_cons in Hnd as [_ Hnd].
      rewrite filter_cons. rewrite decide_True by congruence.
      simpl. f_equal. by apply IH.
  - rewrite list_elem_of_filter. naive_solver.
  - intros m. rewrite list_elem_of_filter. naive_solver.
Qed.

Lemma draw_inv_stopSpin (c : AppState) (u : Rand) (w : World) :
  draw_inv w → spin_closure_ok w c → rand_ok u = true →
  (∀ t c', t ∈ timers w → callback t = CbStopSpin c' → timerRef w = Some (tid t)) →
  draw_inv (stopSpin c u w).
Proof.
  intros Hinv (Hnd & Hne & Hidx & Hfresh) Hu Href.
  destruct (lookup_lt_is_Some_2 _ _ Hidx) as [cur Hcur].
  destruct (winning_number_Some c u Hu Hne) as (n & Hwin & Hin).
  destruct (filter_winner _ n Hnd Hin) as (_ & Hout & Hmem).
  set (w0 := clearRef (timerRef w) (clearRef (intervalRef w) w)).
  assert (Hw0 : same_draw w w0).
  { eapply same_draw_trans; apply same_draw_clearRef. }
  assert (Hnospin : ∀ t c', t ∈ timers w0 → callback t ≠ CbStopSpin c').
  { intros t c' Ht Hcb. subst w0.
    apply clearRef_elem in Ht as [Ht Hr]. apply clearRef_elem in Ht as [Ht _].
    destruct Hr. by eapply Href. }
  rewrite (stopSpin_unfold c u w cur Hcur). fold w0. rewrite Hwin.
  set (r := WinRecord.mk _ _ _ _).
  destruct (mounted w0) eqn:Hm.
  - assert (Hbase : draw_inv (with_st (committed c (Some n) r (st w0)) w0)).
    { pose proof (draw_inv_same _ _ Hw0 Hinv) as [I1 I2 I3 I4 I5 I6].
      destruct Hw0 as (Hp & Hh & _).
      split; simpl; unfold drawn; simpl.
      - by apply NoDup_filter.
      - apply NoDup_cons. split; [|done]. rewrite Hh. by apply Hfresh.
      - intros o [->|Ho]%elem_of_cons; [by eexists|by apply I3].
      - intros m [Hm1 Hm2]%Hmem. apply not_elem_of_cons. split; [congruence|].
        rewrite Hh. by apply Hfresh.
      - intros t c' Ht Hcb. by destruct (Hnospin t c' Ht Hcb).
      - exact I6. }
    rewrite (setState_mounted w0) by done.
    assert (Hstep : ∀ w1, draw_inv w1 → (∀ t c', t ∈ timers w1 → callback t ≠ CbStopSpin c') →
       draw_inv (schedule 2000 None (CbRoundComplete c) (setState (setIsTransitioning true) w1))).
    { intros w1 [I1 I2 I3 I4 I5 I6] Hno.
      destruct w1 as [s1 tr1 ir1 ts1 n1 k1 [] l1]; simpl in *; split; simpl; try done.
      all: intros t c' [Ht|Ht]%elem_of_app Hcb; [by destruct (Hno t c' Ht Hcb)|].
      all: apply list_elem_of_singleton in Ht as ->; done. }
    destruct (round_done c cur).
    + apply Hstep; [|done].
      eapply draw_inv_same; [|exact Hbase].
      eapply same_draw_trans; apply same_draw_emit.
    + eapply draw_inv_same; [|exact Hbase].
      eapply same_draw_trans; apply same_draw_emit.
  - rewrite (setState_unmounted w0) by done.
    pose proof (draw_inv_same _ _ Hw0 Hinv) as Hinv0.
    assert (Hbase : draw_inv (emit PlayWin (emit FireConfetti w0))).
    { eapply draw_inv_same; [|exact Hinv0].
      eapply same_draw_trans; apply same_draw_emit. }
    destruct (round_done c cur); [|done].
    rewrite setState_unmounted by done.
    destruct Hbase as [I1 I2 I3 I4 I5 I6].
    destruct w0 as [s1 tr1 ir1 ts1 n1 k1 m1 l1]; simpl in *; split; simpl; try done.
    intros t c' [Ht|Ht]%elem_of_app Hcb; [by apply I5|].
    apply list_elem_of_singleton in Ht as ->; done.
Qed.

(** ** Reachable states *)

Lemma draw_inv_initial : draw_inv initial_world.
Proof.
  split; simpl; try done.
  - apply NoDup_nil_2.
  - apply NoDup_nil_2.
  - by intros o ?%elem_of_nil.
  - by intros n ?%elem_of_nil.
  - by intros t c ?%elem_of_nil.
Qed.

Lemma draw_inv_step (w w' : World) (e : Event) :
  draw_inv w → step w e = Some w' → draw_inv w'.
Proof.
  intros Hinv Hstep.
  assert (Hsame : ∀ v, same_draw w v → draw_inv v)
    by (intros v Hv; by eapply draw_inv_same).
  destruct e; simpl in Hstep;
    repeat match type of Hstep with
    | (if ?b then _ else _) = Some _ => destruct b eqn:?; simplify_eq
    | match ?o with Some _ => _ | None => _ end = Some _ => destruct o eqn:?; simplify_eq
    | Some _ = Some _ => simplify_eq
    | None = Some _ => discriminate
    end.
  - apply Hsame. by apply same_draw_config_edit.
  - apply Hsame. by apply same_draw_config_edit.
  - apply Hsame. by apply same_draw_config_edit.
  - apply Hsame. unfold removeStep. case_bool_decide; [apply same_draw_refl|].
    by apply same_draw_config_edit.
  - apply Hsame. by apply same_draw_config_edit.
  - by apply draw_inv_initializeNumbers.
  - unfold clickSpin. destruct (spinDisabled (st w)) eqn:Hd; [done|].
    apply draw_inv_handleSpin; [by destruct (mounted w)|done|].
    by apply spinDisabled_false.
  - apply Hsame. unfold clickSettings. apply same_draw_setState; try done.
  - by apply draw_inv_initializeNumbers.
  - apply Hsame. by apply same_draw_setState.
  - apply Hsame. unfold same_draw. simpl. naive_solver.
  - match goal with H : find_timer _ _ = Some ?t |- _ =>
      apply find_timer_Some in H as [Ht Htid]; rename t into tm end.
    match goal with H : _ && _ = true |- _ => apply andb_true_iff in H as [_ Hu] end.
    assert (Hre : same_draw w (with_timers (rearm tm (timers w)) w))
      by (apply same_draw_timers; intros x; apply rearm_elem).
    destruct (callback tm) as [c|c|c] eqn:Hcb; simpl.
    + apply Hsame. eapply same_draw_trans; [exact Hre|apply same_draw_tick].
    + destruct (inv_spin _ Hinv tm c Ht Hcb) as (Href & Hs & Hnd & Hne & Hidx & Hfresh).
      apply draw_inv_stopSpin; [by apply Hsame| |done|].
      * by split_and!.
      * simpl. intros t c' [y (Hy & Hyt & Hyc)]%rearm_elem Hcb'.
        rewrite <- Hyt. eapply inv_spin; [done..|]. by rewrite Hyc.
    + apply Hsame. eapply same_draw_trans; [exact Hre|apply same_draw_roundComplete].
  - apply Hsame, same_draw_cleanup.
Qed.

Lemma draw_inv_run (es : list Event) (w w' : World) :
  draw_inv w → run w es = Some w' → draw_inv w'.
Proof.
  revert w. induction es as [|e es IH]; intros w Hinv Hrun; simpl in Hrun.
  - by simplify_eq.
  - destruct (step w e) as [w1|] eqn:Hstep; [|done].
    eapply IH; [|done]. by eapply draw_inv_step.
Qed.

Lemma step_cases (w w' : World) (e : Event) : step w e = Some w' → step_kind w w'.
Proof.
  intros Hstep.
  destruct e; simpl in Hstep;
    repeat match type of Hstep with
    | (if ?b then _ else _) = Some _ => destruct b eqn:?; simplify_eq
    | match ?o with Some _ => _ | None => _ end = Some _ => destruct o eqn:?; simplify_eq
    | Some _ = Some _ => simplify_eq
    | None = Some _ => discriminate
    end.
  - apply sk_same; [by apply same_draw_config_edit|left; apply setState_mounted_eq].
  - apply sk_same; [by apply same_draw_config_edit|left; apply setState_mounted_eq].
  - apply sk_same; [by apply same_draw_config_edit|left; apply setState_mounted_eq].
  - unfold removeStep. case_bool_decide; [apply sk_same; [apply same_draw_refl|by left]|].
    apply sk_same; [by apply same_draw_config_edit|left; apply setState_mounted_eq].
  - apply sk_same; [by apply same_draw_config_edit|left; apply setState_mounted_eq].
  - apply sk_init; [by destruct (mounted w)|done].
  - unfold clickSpin. destruct (spinDisabled (st w)) eqn:Hd.
    + apply sk_same; [apply same_draw_refl|by left].
    + apply sk_spin; [by destruct (mounted w)|by apply spinDisabled_false|done].
  - apply sk_same; [|left; apply setState_mounted_eq].
    unfold clickSettings. by apply same_draw_setState.
  - apply sk_init; [by destruct (mounted w)|done].
  - apply sk_same; [by apply same_draw_setState|left; apply setState_mounted_eq].
  - apply sk_same; [|by left]. unfold same_draw. simpl. naive_solver.
  - match goal with H : find_timer _ _ = Some ?t |- _ =>
      apply find_timer_Some in H as [Ht Htid]; rename t into tm end.
    match goal with H : _ && _ = true |- _ => apply andb_true_iff in H as [_ Hu] end.
    assert (Hre : same_draw w (with_timers (rearm tm (timers w)) w))
      by (apply same_draw_timers; intros x; apply rearm_elem).
    destruct (callback tm) as [c|c|c] eqn:Hcb; simpl.
    + apply sk_same; [eapply same_draw_trans; [exact Hre|apply same_draw_tick]|].
      left. unfold tick. simpl. by rewrite setState_mounted_eq.
    + by eapply sk_commit.
    + apply sk_same; [eapply same_draw_trans; [exact Hre|apply same_draw_roundComplete]|].
      left. unfold roundComplete.
      repeat first [case_bool_decide | case_match | rewrite setState_mounted_eq | done].
  - apply sk_same; [apply same_draw_cleanup|by right].
Qed.

Lemma stopSpin_no_spin (c : AppState) (u : Rand) (w : World) :
  (∀ t c', t ∈ timers w → callback t = CbStopSpin c' → timerRef w = Some (tid t)) →
  ∀ t c', t ∈ timers (stopSpin c u w) → callback t ≠ CbStopSpin c'.
Proof.
  intros Href t c' Ht Hcb.
  assert (Hw0 : ∀ x, x ∈ timers (clearRef (timerRef w) (clearRef (intervalRef w) w)) →
                callback x ≠ CbStopSpin c').
  { intros x [[Hx _]%clearRef_elem Hr]%clearRef_elem Hx'. destruct Hr. by eapply Href. }
  destruct (steps c !! currentStepIndex c) as [cur|] eqn:Hcur.
  - rewrite (stopSpin_unfold c u w cur Hcur) in Ht.
    destruct (round_done c cur); simpl in Ht;
      rewrite ?setState_timers in Ht; simpl in Ht; rewrite ?setState_timers in Ht.
    + apply elem_of_app in Ht as [Ht|Ht]; [by eapply Hw0|].
      apply list_elem_of_singleton in Ht as ->. done.
    + by eapply Hw0.
  - rewrite (stopSpin_throw c u w Hcur) in Ht. by eapply Hw0.
Qed.

Lemma spin_mounted_step (w w' : World) (e : Event) :
  draw_inv w → spin_mounted w → step w e = Some w' → spin_mounted w'.
Proof.
  intros Hinv Hsm Hstep t c Ht Hcb.
  destruct (step_cases _ _ _ Hstep) as
    [Hsame [Hm| ->] | Hm -> | Hm Hv -> | tm c0 u Htm Hcb0 Hu ->].
  - destruct Hsame as (_ & _ & _ & _ & Hts & _).
    destruct (Hts t Ht) as (y & Hy & _ & Hyc). rewrite Hm.
    eapply Hsm; [done|]. by rewrite Hyc.
  - unfold cleanup in Ht. simpl in Ht.
    apply clearRef_elem in Ht as [[Ht _]%clearRef_elem Hr].
    destruct (clearRef_fields (intervalRef w) w) as (Hr' & _). rewrite Hr' in Hr.
    destruct Hr. by eapply inv_spin.
  - unfold initializeNumbers. repeat case_match; simpl;
      by rewrite ?setState_mounted_eq.
  - rewrite (handleSpin_accepted _ Hv). simpl. by rewrite !setState_mounted_eq.
  - exfalso. eapply (stopSpin_no_spin c0 u); [|done..].
    simpl. intros x c' [y (Hy & Hyt & Hyc)]%rearm_elem Hx.
    rewrite <- Hyt. eapply inv_spin; [done..|]. by rewrite Hyc.
Qed.

Lemma reachable_inv (es : list Event) (w : World) :
  run initial_world es = Some w → draw_inv w ∧ spin_mounted w.
Proof.
  assert (Hgen : ∀ w0, draw_inv w0 → spin_mounted w0 → run w0 es = Some w →
                 draw_inv w ∧ spin_mounted w).
  { induction es as [|e es IH]; intros w0 Hinv Hsm Hrun; simpl in Hrun.
    - by simplify_eq.
    - destruct (step w0 e) as [w1|] eqn:Hstep; [|done].
      eapply IH; [| |done]; [by eapply draw_inv_step|by eapply spin_mounted_step]. }
  apply Hgen; [apply draw_inv_initial|]. by intros t c ?%elem_of_nil.
Qed.

(** How one step changes the history: not at all, to the empty history (a
    successful initialisation), or by one record in front. *)
Lemma history_step (w w' : World) (e : Event) :
  step w e = Some w' →
  history (st w') = history (st w) ∨ history (st w') = []
  ∨ ∃ r, history (st w') = r :: history (st w).
Proof.
  intros Hstep.
  destruct (step_cases _ _ _ Hstep) as
    [Hsame _ | Hm -> | Hm Hv -> | tm c0 u Htm Hcb0 Hu ->].
  - left. apply Hsame.
  - destruct (js_gt (totalWinnersNeeded (st w)) (totalAvailable (st w))) eqn:Hgt.
    + left. by rewrite initializeNumbers_rejected.
    + destruct (loop_throws (range_min (st w)) (range_max (st w))) eqn:Hloop;
        [left; by rewrite initializeNumbers_throws|].
      right; left. rewrite initializeNumbers_accepted by done.
      simpl. by rewrite setState_mounted.
  - left. rewrite (handleSpin_accepted _ Hv). simpl.
    rewrite !setState_mounted; simpl; by rewrite ?setState_mounted_eq.
  - set (w1 := with_timers _ w).
    destruct (steps c0 !! currentStepIndex c0) as [cur|] eqn:Hcur.
    + rewrite (stopSpin_unfold c0 u w1 cur Hcur).
      set (w0 := clearRef (timerRef w1) (clearRef (intervalRef w1) w1)).
      assert (Hst0 : st w0 = st w) by (subst w0; by rewrite !clearRef_st).
      destruct (mounted w0) eqn:Hm0.
      * right; right. eexists.
        rewrite (setState_mounted w0) by done.
        destruct (round_done c0 cur); simpl;
          rewrite ?setState_mounted by done; simpl; by rewrite Hst0.
      * left. rewrite (setState_unmounted w0) by done.
        destruct (round_done c0 cur); simpl;
          rewrite ?setState_unmounted by done; simpl; by rewrite Hst0.
    + left. rewrite (stopSpin_throw c0 u w1 Hcur). by rewrite !clearRef_st.
Qed.

(** C3.  In every state the component can reach from its first render, the
    numbers of the history records are pairwise distinct and none of them
    is [undefined]; and whenever a step adds a record, its number is not
    among the numbers recorded before. *)
Theorem C3_history_unique (es : list Event) (w : World) :
  run initial_world es = Some w →
  NoDup (drawn (st w))
  ∧ (∀ o, o ∈ drawn (st w) → is_Some o)
  ∧ (∀ e w' r, step w e = Some w' → history (st w') = r :: history (st w) →
     WinRecord.number r ∉ drawn (st w)).
Proof.
  intros Hrun. destruct (reachable_inv _ _ Hrun) as [Hinv _].
  split_and!; [apply Hinv..|].
  intros e w' r Hstep Hhist.
  pose proof (inv_drawn _ (draw_inv_step _ _ _ Hinv Hstep)) as Hnd.
  unfold drawn in *. rewrite Hhist in Hnd. simpl in Hnd.
  by apply NoDup_cons in Hnd as [? _].
Qed.

Lemma C3_history_unique_witness :
  ∃ w, run initial_world two_rounds_played = Some w
       ∧ drawn (st w) = [Some 4%Z; Some 3%Z] ∧ NoDup (drawn (st w)).
Proof.
  eexists. split; [vm_compute; reflexivity|]. split; [vm_compute; reflexivity|].
  apply (C3_history_unique two_rounds_played). vm_compute. reflexivity.
Defined.

(** ** Reset *)

(** C8, as stated, fails for a range whose integers are not all doubles.
    With the range -9007199254740994..-9007199254740990 a game is played
    and "Reset Game" is clicked: the pool after the reset holds four of
    the five integers of the range. *)
Lemma C8_reset_idempotent_counterexample :
  ∃ w, run initial_world
         ([EditRangeMin (Int (-9007199254740994));
           EditRangeMax (Int (-9007199254740990)); ClickInitialize]
          ++ spin_once 1 half ++ [Wait 2000; Fire 3 zero]) = Some w
    ∧ showConfig (st w) = false ∧ resetVisible (st w) = true
    ∧ range_min (st w) = Int (-9007199254740994)
    ∧ range_max (st w) = Int (-9007199254740990)
    ∧ availableNumbers (st (clickReset w))
      = [-9007199254740994; -9007199254740992; -9007199254740991;
         -9007199254740990]%Z
    ∧ ((-9007199254740994 ≤ -9007199254740993 ≤ -9007199254740990)%Z
       ∧ (-9007199254740993)%Z ∉ availableNumbers (st (clickReset w))).
Proof.
  eexists. split; [vm_compute; reflexivity|].
  do 5 (split; [vm_compute; reflexivity|]). split; [lia|].
  vm_compute. intros H. repeat (apply elem_of_cons in H as [H|H]; [done|]).
  by apply elem_of_nil in H.
Qed.

(** C8, amended.  "Reset Game" runs [initializeNumbers], the handler of
    "Initialize & Start", on the unchanged configuration: it gives the state
    that opening the settings and initialising again gives.  On every
    reachable draw screen it succeeds, leaves an empty history, the pool
    that the loop builds for the configured range, round index 0 and no
    transition flag, and running it a second time changes neither the
    state nor the timers.  The numbers of that pool are integers of the
    range, none twice; they are all the integers of the range when the
    bounds are between -2^53 and 2^53. *)
Theorem C8_reset_idempotent (es : list Event) (w : World) :
  run initial_world es = Some w →
  mounted w = true → showConfig (st w) = false →
  let w1 := clickReset w in
  (∀ w2, step (clickSettings w) ClickInitialize = Some w2 → st w2 = st w1)
  ∧ history (st w1) = []
  ∧ availableNumbers (st w1) = build_nums (range_min (st w)) (range_max (st w))
  ∧ NoDup (availableNumbers (st w1))
  ∧ (∀ a b, range_min (st w) = Int a → range_max (st w) = Int b →
     (∀ x, x ∈ availableNumbers (st w1) → (a ≤ x ≤ b)%Z)
     ∧ ((- 2 ^ 53 ≤ a)%Z → (b < 2 ^ 53)%Z →
        ∀ x, x ∈ availableNumbers (st w1) ↔ (a ≤ x ≤ b)%Z))
  ∧ currentStepIndex (st w1) = 0
  ∧ isTransitioning (st w1) = false
  ∧ range_min (st w1) = range_min (st w) ∧ range_max (st w1) = range_max (st w)
  ∧ steps (st w1) = steps (st w)
  ∧ st (clickReset w1) = st w1
  ∧ timers (clickReset w1) = timers w1 ∧ timers w1 = timers w.
Proof.
  intros Hrun Hm Hshow w1.
  destruct (reachable_inv _ _ Hrun) as [Hinv _].
  destruct (inv_config _ Hinv Hshow) as [Hok Hloop].
  assert (Hw1 : w1 = emit StopAll (with_st (initialized (st w)) w)).
  { subst w1. unfold clickReset. rewrite initializeNumbers_accepted by done.
    by rewrite setState_mounted. }
  assert (Hok1 : js_gt (totalWinnersNeeded (st w1)) (totalAvailable (st w1)) = false)
    by (by rewrite Hw1).
  assert (Hloop1 : loop_throws (range_min (st w1)) (range_max (st w1)) = false)
    by (by rewrite Hw1).
  assert (Hagain : clickReset w1 = emit StopAll (with_st (initialized (st w1)) w1)).
  { unfold clickReset. rewrite initializeNumbers_accepted by done.
    rewrite setState_mounted; [done|]. by rewrite Hw1. }
  split_and!; try (by rewrite Hw1).
  - intros w2 Hstep. simpl in Hstep. unfold clickSettings in Hstep.
    rewrite setState_mounted_eq, Hm in Hstep. simpl in Hstep.
    rewrite (setState_mounted w) in Hstep by done. simpl in Hstep.
    rewrite initializeNumbers_accepted in Hstep by done.
    injection Hstep as <-. rewrite Hw1. simpl.
    by rewrite setState_mounted.
  - rewrite Hw1. simpl. apply build_nums_NoDup.
  - intros a b Ha Hb. rewrite Hw1. simpl. rewrite Ha, Hb. split.
    + intros x. apply build_nums_range.
    + intros Hlo Hhi x. apply build_nums_elem; [done..|].
      unfold loop_throws in Hloop. rewrite Ha, Hb, loop_int in Hloop by done.
      by destruct (Z.leb_spec (b - a + 1) MAX_ARRAY).
  - rewrite Hagain, Hw1. simpl. unfold initialized. simpl.
    by destruct (steps (st w)).
  - by rewrite Hagain.
Qed.

Lemma C8_reset_idempotent_witness :
  ∃ w, run initial_world two_rounds_played = Some w
       ∧ length (history (st w)) = 2
       ∧ history (st (clickReset w)) = []
       ∧ availableNumbers (st (clickReset w)) = [1; 2; 3; 4; 5]%Z
       ∧ st (clickReset (clickReset w)) = st (clickReset w).
Proof.
  eexists. split; [vm_compute; reflexivity|]. split; [vm_compute; reflexivity|].
  match goal with |- history (st (clickReset ?w)) = _ ∧ _ =>
    destruct (C8_reset_idempotent two_rounds_played w)
      as (_ & Hh & Hp & _ & _ & _ & _ & _ & _ & _ & Hidem & _);
      [vm_compute; reflexivity..|]
  end.
  split; [exact Hh|]. split; [rewrite Hp; vm_compute; reflexivity|exact Hidem].
Defined.

(** ** The invariant of clean runs *)

Lemma round_counts_ext (s s' : AppState) :
  steps s' = steps s → history s' = history s →
  currentStepIndex s' = currentStepIndex s → isTransitioning s' = isTransitioning s →
  round_counts s → round_counts s'.
Proof. unfold round_counts. by intros -> -> -> ->. Qed.

Lemma game_inv_same (w w' : World) :
  same_game w w' → NoDup (Step.id <$> steps (st w')) → game_inv w → game_inv w'.
Proof.
  intros (Hp & Hh & Hi & Htr & Hts & Hc) Hids [G1 G2 G3 G4 G5].
  split; [done|..].
  - intros t c [y (Hy & Hyt & Hyc & _)]%Hts Hcb. rewrite <- Hyc in Hcb.
    destruct (G2 y c Hy Hcb) as (? & ? & ? & ? & Hst).
    rewrite Hp, Hh, Hi, Htr. split_and!; try done.
    intros (Hshow & ->)%Hc. by apply Hst.
  - intros t c [y (Hy & Hyt & Hyc & Hyd & Hyp)]%Hts Hcb. rewrite <- Hyc in Hcb.
    destruct (G3 y c Hy Hcb) as (? & ? & ? & ? & Hst & Hcur).
    rewrite Hh, Hi, Htr, <- Hyd, <- Hyp. split_and!; try done.
    intros (Hshow & ->)%Hc. by apply Hst.
  - intros t1 t2 c1 c2 [y1 (Hy1 & Ht1 & Hc1 & _)]%Hts [y2 (Hy2 & Ht2 & Hc2 & _)]%Hts Hcb1 Hcb2.
    rewrite <- Ht1, <- Ht2. rewrite <- Hc1 in Hcb1. rewrite <- Hc2 in Hcb2.
    by eapply G4.
  - intros (Hshow & Hst)%Hc. eapply round_counts_ext; [done..|]. by apply G5.
Qed.

Lemma same_game_refl (w : World) : same_game w w.
Proof. unfold same_game. naive_solver. Qed.

Lemma same_game_trans (w1 w2 w3 : World) :
  same_game w1 w2 → same_game w2 w3 → same_game w1 w3.
Proof.
  intros (Hp & Hh & Hi & Htr & Ht & Hc) (Hp' & Hh' & Hi' & Htr' & Ht' & Hc').
  unfold same_game. split_and!; try congruence.
  - intros t [y (Hy & ? & ? & ? & ?)]%Ht'. destruct (Ht y Hy) as (z & Hz & ? & ? & ? & ?).
    exists z. split_and!; congruence.
  - intros (Hshow & ?)%Hc'. destruct (Hc Hshow) as (? & ?). split; congruence.
Qed.

Lemma same_game_setState (f : AppState → AppState) (w : World) :
  availableNumbers (f (st w)) = availableNumbers (st w) →
  history (f (st w)) = history (st w) →
  currentStepIndex (f (st w)) = currentStepIndex (st w) →
  isTransitioning (f (st w)) = isTransitioning (st w) →
  (showConfig (f (st w)) = false →
   showConfig (st w) = false ∧ steps (f (st w)) = steps (st w)) →
  same_game w (setState f w).
Proof.
  intros. unfold setState. destruct (mounted w); [|apply same_game_refl].
  unfold same_game. simpl. naive_solver.
Qed.

Lemma same_game_emit (e : Effect) (w : World) : same_game w (emit e w).
Proof. unfold same_game. simpl. naive_solver. Qed.

Lemma same_game_timers (ts : list Timer) (w : World) :
  (∀ t, t ∈ ts → ∃ y, y ∈ timers w ∧ tid y = tid t ∧ callback y = callback t
                      ∧ delay y = delay t ∧ period y = period t) →
  same_game w (with_timers ts w).
Proof. unfold same_game. simpl. naive_solver. Qed.

Lemma same_game_clearRef (r : option nat) (w : World) : same_game w (clearRef r w).
Proof.
  destruct r as [i|]; [|apply same_game_refl].
  apply same_game_timers. intros t [_ Ht]%list_elem_of_filter. by exists t.
Qed.

Lemma rearm_elem_full (t x : Timer) (ts : list Timer) :
  x ∈ rearm t ts →
  ∃ y, y ∈ ts ∧ tid y = tid x ∧ callback y = callback x
       ∧ delay y = delay x ∧ period y = period x.
Proof.
  unfold rearm. destruct (period t) as [p|].
  - intros (y & -> & Hy)%list_elem_of_fmap. exists y. by case_bool_decide.
  - intros [_ Hx]%list_elem_of_filter. by exists x.
Qed.

Lemma same_game_tick (c : AppState) (u : Rand) (w : World) : same_game w (tick c u w).
Proof.
  unfold tick. eapply same_game_trans; [|apply same_game_emit].
  by apply same_game_setState.
Qed.

Lemma same_game_cleanup (w : World) : same_game w (cleanup w).
Proof.
  unfold cleanup.
  eapply same_game_trans;
    [eapply same_game_trans; [apply (same_game_clearRef (intervalRef w))|
                              apply same_game_clearRef]|].
  unfold same_game. simpl. naive_solver.
Qed.

(** The ids of the plan stay pairwise distinct under the edits of the
    configuration screen. *)
Lemma foldl_max_ge (xs : list Z) (a : Z) :
  (a ≤ foldl Z.max a xs)%Z ∧ ∀ x, x ∈ xs → (x ≤ foldl Z.max a xs)%Z.
Proof.
  revert a. induction xs as [|y xs IH]; intros a; simpl.
  - split; [lia|]. by intros x ?%elem_of_nil.
  - destruct (IH (Z.max a y)) as [Ha Hx]. split; [lia|].
    intros x [->|Hin]%elem_of_cons; [lia|by apply Hx].
Qed.

Lemma Math_max_ge (xs : list Z) (x : Z) : x ∈ xs → (x ≤ Math_max xs)%Z.
Proof.
  destruct xs as [|y xs]; [by intros ?%elem_of_nil|]. simpl.
  destruct (foldl_max_ge xs y) as [Hy Hxs].
  intros [->|Hin]%elem_of_cons; [done|by apply Hxs].
Qed.

Lemma ids_addStep (w : World) :
  NoDup (Step.id <$> steps (st w)) → NoDup (Step.id <$> steps (st (addStep w))).
Proof.
  intros Hnd. unfold addStep, setState. destruct (mounted w); [|done]. simpl.
  rewrite fmap_app. simpl. apply NoDup_app. split_and!; [done| |apply NoDup_singleton].
  intros x Hx ->%list_elem_of_singleton.
  case_bool_decide as Hlen.
  - apply Math_max_ge in Hx. lia.
  - destruct (steps (st w)); simpl in *; [by apply elem_of_nil in Hx|lia].
Qed.

Lemma ids_removeStep (i : Z) (w : World) :
  NoDup (Step.id <$> steps (st w)) → NoDup (Step.id <$> steps (st (removeStep i w))).
Proof.
  intros Hnd. unfold removeStep, setState.
  case_bool_decide; [done|]. destruct (mounted w); [|done]. simpl.
  eapply sublist_NoDup; [exact Hnd|]. apply fmap_sublist, sublist_filter.
Qed.

Lemma ids_updateStep (i : Z) (f : StepField) (w : World) :
  Step.id <$> steps (st (updateStep i f w)) = Step.id <$> steps (st w).
Proof.
  unfold updateStep, setState. destruct (mounted w); [|done]. simpl.
  rewrite <- list_fmap_compose. apply list_fmap_ext. intros k x _. simpl.
  case_bool_decide; [by destruct f|done].
Qed.

Lemma roundComplete_fields (c : AppState) (w : World) :
  timers (roundComplete c w) = timers w
  ∧ mounted (roundComplete c w) = mounted w
  ∧ availableNumbers (st (roundComplete c w)) = availableNumbers (st w)
  ∧ history (st (roundComplete c w)) = history (st w)
  ∧ steps (st (roundComplete c w)) = steps (st w)
  ∧ showConfig (st (roundComplete c w)) = showConfig (st w)
  ∧ isSpinning (st (roundComplete c w)) = isSpinning (st w)
  ∧ (mounted w = false → st (roundComplete c w) = st w).
Proof.
  unfold roundComplete.
  destruct w as [s tr ir ts n k [] l]; simpl;
    repeat first [case_bool_decide | case_match]; simpl; done.
Qed.

(** When the transition callback runs in a mounted component whose closure
    has a current round, the index becomes the next index and the
    transition flag falls. *)
Lemma roundComplete_advance (c : AppState) (w : World) :
  mounted w = true → currentStepIndex c < length (steps c) →
  currentStepIndex (st (roundComplete c w))
  = (if bool_decide (currentStepIndex c + 1 < length (steps c))
     then currentStepIndex c + 1 else currentStepIndex (st w) + 1)
  ∧ isTransitioning (st (roundComplete c w)) = false.
Proof.
  intros Hm Hlt. unfold roundComplete.
  destruct (lookup_lt_is_Some_2 _ _ Hlt) as [cur Hcur]. rewrite Hcur.
  case_bool_decide as Hnext.
  - rewrite bool_decide_eq_true_2 by lia.
    destruct (lookup_lt_is_Some_2 (steps c) (currentStepIndex c + 1)) as [nx Hnx]; [lia|].
    rewrite Hnx. by destruct w as [s tr ir ts n k [] l].
  - rewrite bool_decide_eq_false_2 by lia.
    by destruct w as [s tr ir ts n k [] l].
Qed.

Lemma game_step_cases (w w' : World) (e : Event) :
  step w e = Some w' → game_step w e w'.
Proof.
  intros Hstep.
  destruct e; simpl in Hstep;
    repeat match type of Hstep with
    | (if ?b then _ else _) = Some _ => destruct b eqn:?; simplify_eq
    | match ?o with Some _ => _ | None => _ end = Some _ => destruct o eqn:?; simplify_eq
    | Some _ = Some _ => simplify_eq
    | None = Some _ => discriminate
    end.
  - apply gs_same; [apply same_game_setState; simpl; try done; congruence|].
    unfold setState. by destruct (mounted w).
  - apply gs_same; [apply same_game_setState; simpl; try done; congruence|].
    unfold setState. by destruct (mounted w).
  - apply gs_same; [apply same_game_setState; simpl; try done; congruence|].
    apply ids_addStep.
  - apply gs_same; [|apply ids_removeStep].
    unfold removeStep. case_bool_decide; [apply same_game_refl|].
    apply same_game_setState; simpl; try done; congruence.
  - apply gs_same; [apply same_game_setState; simpl; try done; congruence|].
    by rewrite ids_updateStep.
  - apply gs_init; [by left|by destruct (mounted w)|done].
  - unfold clickSpin. destruct (spinDisabled (st w)) eqn:Hd.
    + apply gs_same; [apply same_game_refl|done].
    + apply gs_spin; [done|by destruct (mounted w)|done|by apply spinDisabled_false|done].
  - apply gs_same; [|unfold clickSettings, setState; by destruct (mounted w)].
    unfold clickSettings. by apply same_game_setState.
  - apply gs_init; [by right|by destruct (mounted w)|done].
  - apply gs_same; [by apply same_game_setState|].
    unfold toggleStepExpansion, setState; by destruct (mounted w).
  - apply gs_same; [|done]. unfold same_game. simpl. naive_solver.
  - match goal with H : find_timer _ _ = Some ?t |- _ =>
      apply find_timer_Some in H as [Ht Htid]; rename t into tm end.
    match goal with H : _ && _ = true |- _ => apply andb_true_iff in H as [_ Hu] end.
    destruct (callback tm) as [c|c|c] eqn:Hcb; simpl.
    + apply gs_same.
      * eapply same_game_trans; [|apply same_game_tick].
        apply same_game_timers; intros x; apply rearm_elem_full.
      * unfold tick, setState. simpl. by destruct (mounted w).
    + eapply gs_commit; [by rewrite Htid|done..].
    + eapply gs_round; [by rewrite Htid|done..].
  - apply gs_same; [apply same_game_cleanup|].
    unfold cleanup. simpl. by rewrite !clearRef_st.
Qed.

Lemma winnersOf_cons (i : Z) (r : WinRecord.t) (h : list WinRecord.t) :
  winnersOf i (r :: h)
  = (if decide (WinRecord.stepId r = i) then 1 else 0) + winnersOf i h.
Proof. unfold winnersOf. rewrite filter_cons. by case_decide. Qed.

Lemma ids_inj (ss : list Step.t) (i j : nat) (x y : Step.t) :
  NoDup (Step.id <$> ss) → ss !! i = Some x → ss !! j = Some y →
  Step.id x = Step.id y → i = j.
Proof.
  intros Hnd Hi Hj Heq.
  eapply NoDup_lookup; [exact Hnd| |]; rewrite list_lookup_fmap.
  - by rewrite Hi.
  - rewrite Hj. simpl. by rewrite Heq.
Qed.

Lemma round_counts_init (s : AppState) : history s = [] → round_counts s.
Proof.
  intros Hh j r _. unfold winnersOf. rewrite Hh. simpl.
  split_and!; [done|intros; lia|by left].
Qed.

Lemma round_counts_commit (s s' : AppState) (cur : Step.t) (r : WinRecord.t) :
  NoDup (Step.id <$> steps s) →
  steps s !! currentStepIndex s = Some cur →
  isTransitioning s = false → round_counts s →
  WinRecord.stepId r = Step.id cur →
  steps s' = steps s → history s' = r :: history s →
  currentStepIndex s' = currentStepIndex s →
  isTransitioning s'
  = js_ge (Int (Z.of_nat (winnersOf (Step.id cur) (history s) + 1))) (Step.count cur) →
  round_counts s'.
Proof.
  intros Hnd Hcur Htr Hold Hid Hst Hh Hi Htr' j rj Hj.
  rewrite Hst in Hj. rewrite Hh, Hi, Htr', winnersOf_cons, Hid.
  destruct (Hold j rj Hj) as (H1 & H2 & H3).
  destruct (decide (j = currentStepIndex s)) as [->|Hne].
  - assert (rj = cur) as -> by congruence.
    rewrite decide_True by done.
    split_and!; [lia| |].
    + intros k Hk. destruct (H3 eq_refl Htr) as [H0|Hlt].
      * rewrite H0. lia.
      * rewrite Hk in Hlt. simpl in Hlt. apply Z.leb_gt in Hlt. lia.
    + intros _ Hdone. right. rewrite <- Hdone. do 3 f_equal. lia.
  - rewrite decide_False; [by split_and!|].
    intros Heq. destruct Hne. by eapply ids_inj.
Qed.

Lemma round_counts_advance (s s' : AppState) :
  round_counts s →
  steps s' = steps s → history s' = history s →
  currentStepIndex s' = currentStepIndex s + 1 →
  round_counts s'.
Proof.
  intros Hold Hst Hh Hi j rj Hj. rewrite Hst in Hj. rewrite Hh, Hi.
  destruct (Hold j rj Hj) as (H1 & H2 & H3).
  split_and!; [intros; apply H1; lia|done|].
  intros -> _. left. apply H1. lia.
Qed.

Lemma game_inv_initial : game_inv initial_world.
Proof.
  split; simpl.
  - apply NoDup_singleton.
  - by intros t c ?%elem_of_nil.
  - by intros t c ?%elem_of_nil.
  - by intros t1 t2 c1 c2 ?%elem_of_nil.
  - done.
Qed.

Lemma game_inv_initializeNumbers (w : World) :
  timers w = [] → game_inv w → game_inv (initializeNumbers w).
Proof.
  intros Hts G.
  destruct (js_gt (totalWinnersNeeded (st w)) (totalAvailable (st w))) eqn:Hgt.
  - rewrite initializeNumbers_rejected by done.
    eapply game_inv_same; [apply same_game_emit|apply G|done].
  - destruct (loop_throws (range_min (st w)) (range_max (st w))) eqn:Hloop;
      [by rewrite initializeNumbers_throws|].
    rewrite initializeNumbers_accepted by done.
    destruct (mounted w) eqn:Hm.
    + rewrite setState_mounted by done. split; simpl; rewrite ?Hts.
      * apply G.
      * by intros t c ?%elem_of_nil.
      * by intros t c ?%elem_of_nil.
      * by intros t1 t2 c1 c2 ?%elem_of_nil.
      * intros _. by apply round_counts_init.
    + rewrite setState_unmounted by done.
      eapply game_inv_same; [apply same_game_emit|apply G|done].
Qed.

Lemma game_inv_handleSpin (w : World) :
  mounted w = true → draw_inv w → game_inv w → spin_valid (st w) →
  game_inv (handleSpin w).
Proof.
  intros Hm Hinv [G1 G2 G3 G4 G5] Hv. rewrite (handleSpin_accepted _ Hv).
  destruct Hv as (Hspin & Htr & Hpool & Hidx).
  assert (Hold : ∀ t, t ∈ timers w → is_spin_timer t ∨ is_transition_timer t → False).
  { intros t Ht. unfold is_spin_timer, is_transition_timer.
    destruct (callback t) as [c|c|c] eqn:Hcb; [naive_solver| |]; intros _.
    - destruct (inv_spin _ Hinv t c Ht Hcb) as (_ & Hs & _). congruence.
    - destruct (G3 t c Ht Hcb) as (_ & Hs & _). congruence. }
  destruct w as [s tr ir ts n k m l]. simpl in *. subst m. simpl.
  split; simpl; try done.
  - intros t c Ht Hcb. rewrite <- app_assoc in Ht.
    apply elem_of_app in Ht as [Ht|Ht].
    + destruct (Hold t Ht). left. unfold is_spin_timer. by rewrite Hcb.
    + apply elem_of_cons in Ht as [->|Ht]; [done|].
      apply list_elem_of_singleton in Ht as ->. simpl in *. by simplify_eq.
  - intros t c Ht Hcb. rewrite <- app_assoc in Ht.
    apply elem_of_app in Ht as [Ht|Ht].
    + destruct (Hold t Ht). right. unfold is_transition_timer. by rewrite Hcb.
    + apply elem_of_cons in Ht as [->|Ht]; [done|].
      by apply list_elem_of_singleton in Ht as ->.
  - intros t1 t2 c1 c2 Ht _ Hcb _. rewrite <- app_assoc in Ht.
    apply elem_of_app in Ht as [Ht|Ht].
    + destruct (Hold t1 Ht). right. unfold is_transition_timer. by rewrite Hcb.
    + apply elem_of_cons in Ht as [->|Ht]; [done|].
      by apply list_elem_of_singleton in Ht as ->.
Qed.

(** What the firing of a pending [stopSpin] does in a reachable world: the
    winner is an element of the pool of the closure, the state receives the
    five writes of the commit, and the transition timer is scheduled exactly
    when the round of the closure has reached its count. *)
Lemma commit_outcome (t : Timer) (c : AppState) (u : Rand) (w : World) :
  draw_inv w → spin_mounted w →
  t ∈ timers w → callback t = CbStopSpin c → rand_ok u = true →
  let w' := stopSpin c u (with_timers (rearm t (timers w)) w) in
  ∃ n cur,
    winning_number c u = Some n ∧ n ∈ availableNumbers c
    ∧ steps c !! currentStepIndex c = Some cur
    ∧ st w'
      = (if round_done c cur then setIsTransitioning true else λ s, s)
          (committed c (Some n)
             (WinRecord.mk (Some n) (Step.id cur) (Step.name cur) (clock w)) (st w))
    ∧ mounted w' = true
    ∧ clock w' = clock w
    ∧ (∀ x, x ∈ timers w' →
       (∃ y, y ∈ timers w ∧ tid y = tid x ∧ callback y = callback x
             ∧ delay y = delay x ∧ period y = period x
             ∧ ¬ is_spin_timer x)
       ∨ (round_done c cur = true ∧ x = transition_timer c w))
    ∧ (round_done c cur = true → transition_timer c w ∈ timers w').
Proof.
  intros Hinv Hsm Ht Hcb Hu w'.
  destruct (inv_spin _ Hinv t c Ht Hcb) as (Href & Hs & Hnd & Hne & Hidx & Hfresh).
  pose proof (Hsm t c Ht Hcb) as Hm.
  destruct (lookup_lt_is_Some_2 _ _ Hidx) as [cur Hcur].
  destruct (winning_number_Some c u Hu Hne) as (n & Hwin & Hin).
  set (w1 := with_timers (rearm t (timers w)) w) in *.
  set (w0 := clearRef (timerRef w1) (clearRef (intervalRef w1) w1)).
  assert (Hst0 : st w0 = st w) by (subst w0 w1; by rewrite !clearRef_st).
  assert (Hm0 : mounted w0 = true).
  { subst w0. destruct (clearRef_fields (timerRef w1) (clearRef (intervalRef w1) w1))
      as (_ & _ & -> & _).
    by destruct (clearRef_fields (intervalRef w1) w1) as (_ & _ & -> & _). }
  assert (Hk0 : clock w0 = clock w).
  { subst w0. destruct (clearRef_fields (timerRef w1) (clearRef (intervalRef w1) w1))
      as (_ & _ & _ & -> & _).
    by destruct (clearRef_fields (intervalRef w1) w1) as (_ & _ & _ & -> & _). }
  assert (Hn0 : nextTimerId w0 = nextTimerId w).
  { subst w0. destruct (clearRef_fields (timerRef w1) (clearRef (intervalRef w1) w1))
      as (_ & _ & _ & _ & _ & ->).
    by destruct (clearRef_fields (intervalRef w1) w1) as (_ & _ & _ & _ & _ & ->). }
  assert (Hts0 : ∀ x, x ∈ timers w0 →
         ∃ y, y ∈ timers w ∧ tid y = tid x ∧ callback y = callback x
              ∧ delay y = delay x ∧ period y = period x ∧ ¬ is_spin_timer x).
  { intros x [[Hx _]%clearRef_elem Hr]%clearRef_elem. simpl in Hx.
    apply rearm_elem_full in Hx as (y & Hy & Hyt & Hyc & Hyd & Hyp).
    exists y. split_and!; try done.
    unfold is_spin_timer. destruct (callback x) as [?|c'|?] eqn:Hcx; [tauto| |tauto].
    intros _. destruct Hr. simpl. rewrite <- Hyt.
    eapply (inv_spin _ Hinv y c'); [done|]. by rewrite Hyc. }
  assert (Hw' : w' = if round_done c cur
            then schedule 2000 None (CbRoundComplete c)
                   (setState (setIsTransitioning true)
                      (emit PlayWin (emit FireConfetti
                         (with_st (committed c (Some n)
                            (WinRecord.mk (Some n) (Step.id cur) (Step.name cur) (clock w))
                            (st w)) w0))))
            else emit PlayWin (emit FireConfetti
                   (with_st (committed c (Some n)
                      (WinRecord.mk (Some n) (Step.id cur) (Step.name cur) (clock w))
                      (st w)) w0))).
  { subst w'. rewrite (stopSpin_unfold c u w1 cur Hcur). fold w0.
    rewrite Hwin, (setState_mounted w0) by done. by rewrite Hst0. }
  clearbody w0 w'. subst w'.
  exists n, cur. split_and!; try done.
  all: destruct (round_done c cur); simpl;
         rewrite ?setState_mounted by done; simpl; try done.
  - intros x [Hx|Hx]%elem_of_app; [left; by apply Hts0|right].
    apply list_elem_of_singleton in Hx as ->. split; [done|].
    unfold transition_timer. by rewrite Hn0, Hk0.
  - intros x Hx. left. by apply Hts0.
  - intros _. apply elem_of_app. right. apply list_elem_of_singleton.
    unfold transition_timer. by rewrite Hn0, Hk0.
Qed.

Lemma game_inv_stopSpin (t : Timer) (c : AppState) (u : Rand) (w : World) :
  draw_inv w → spin_mounted w → game_inv w →
  t ∈ timers w → callback t = CbStopSpin c → rand_ok u = true →
  game_inv (stopSpin c u (with_timers (rearm t (timers w)) w)).
Proof.
  intros Hinv Hsm [G1 G2 G3 G4 G5] Ht Hcb Hu.
  destruct (commit_outcome t c u w Hinv Hsm Ht Hcb Hu)
    as (n & cur & Hwin & Hin & Hcur & Hst & Hm & Hclk & Hts & Hnew).
  destruct (G2 t c Ht Hcb) as (Hp & Hh & Hi & Htr & Hsteps).
  set (w' := stopSpin c u _) in *. clearbody w'.
  set (r := WinRecord.mk (Some n) (Step.id cur) (Step.name cur) (clock w)) in *.
  assert (Hfields : steps (st w') = steps (st w)
                    ∧ showConfig (st w') = showConfig (st w)
                    ∧ currentStepIndex (st w') = currentStepIndex (st w)
                    ∧ history (st w') = r :: history (st w)
                    ∧ isTransitioning (st w') = round_done c cur).
  { rewrite Hst. destruct (round_done c cur); simpl; by rewrite ?Htr. }
  destruct Hfields as (Hst1 & Hsh1 & Hi1 & Hh1 & Htr1).
  assert (Hold : ∀ x c2, x ∈ timers w' → callback x = CbRoundComplete c2 →
                 round_done c cur = true ∧ x = transition_timer c w).
  { intros x c2 Hx Hcx. destruct (Hts x Hx) as [(y & Hy & _ & Hyc & _)|]; [|done].
    rewrite <- Hyc in Hcx. destruct (G3 y c2 Hy Hcx) as (_ & ? & _). congruence. }
  split.
  - by rewrite Hst1.
  - intros x c2 Hx Hcx. destruct (Hts x Hx) as [(y & _ & _ & _ & _ & _ & Hns)|[_ ->]].
    + destruct Hns. unfold is_spin_timer. by rewrite Hcx.
    + done.
  - intros x c2 Hx Hcx. destruct (Hold x c2 Hx Hcx) as [Hdone ->].
    simpl in Hcx. injection Hcx as <-. simpl.
    rewrite Hi1, Hsh1, Hst1, Hh1, Htr1. split_and!; try done.
    exists cur.
    assert (HW : winnersOf (Step.id cur) (r :: history (st w))
                 = winnersOf (Step.id cur) (history c) + 1).
    { rewrite winnersOf_cons, Hh. rewrite decide_True by done. lia. }
    rewrite HW. split_and!; [done|lia|exact Hdone].
  - intros x1 x2 c1 c2 Hx1 Hx2 Hc1 Hc2.
    destruct (Hold x1 c1 Hx1 Hc1) as [_ ->].
    by destruct (Hold x2 c2 Hx2 Hc2) as [_ ->].
  - rewrite Hsh1. intros Hshow.
    eapply (round_counts_commit (st w) (st w') cur r); try done.
    + rewrite <- (Hsteps Hshow), <- Hi. done.
    + by apply G5.
    + rewrite Htr1. unfold round_done. by rewrite Hh.
Qed.

Lemma game_inv_roundComplete (t : Timer) (c : AppState) (w : World) :
  draw_inv w → game_inv w →
  t ∈ timers w → callback t = CbRoundComplete c →
  game_inv (roundComplete c (with_timers (rearm t (timers w)) w)).
Proof.
  intros Hinv [G1 G2 G3 G4 G5] Ht Hcb.
  destruct (G3 t c Ht Hcb) as (Hi & Htr & Hd & Hper & Hsteps & cur & Hcur & _).
  set (w1 := with_timers (rearm t (timers w)) w).
  destruct (roundComplete_fields c w1) as (Hts & Hm & Hp & Hh & Hst & Hsh & _ & Hun).
  assert (Hnone : ∀ x, x ∈ timers (roundComplete c w1) →
                  is_spin_timer x ∨ is_transition_timer x → False).
  { intros x Hx. rewrite Hts in Hx. simpl in Hx.
    apply rearm_oneshot_elem in Hx as [Hx Hne]; [|done].
    unfold is_spin_timer, is_transition_timer.
    destruct (callback x) as [c2|c2|c2] eqn:Hcx; [naive_solver| |]; intros _.
    - destruct (G2 x c2 Hx Hcx) as (_ & _ & _ & ? & _). congruence.
    - destruct Hne. by eapply G4. }
  split.
  - by rewrite Hst.
  - intros x c2 Hx Hcx. destruct (Hnone x Hx). left.
    unfold is_spin_timer. by rewrite Hcx.
  - intros x c2 Hx Hcx. destruct (Hnone x Hx). right.
    unfold is_transition_timer. by rewrite Hcx.
  - intros x1 x2 c1 c2 Hx1 _ Hc1 _. destruct (Hnone x1 Hx1). right.
    unfold is_transition_timer. by rewrite Hc1.
  - rewrite Hsh. simpl. intros Hshow.
    destruct (mounted w) eqn:Hmw.
    + destruct (roundComplete_advance c w1) as [Hadv _]; [done| |].
      { by eapply lookup_lt_Some. }
      eapply (round_counts_advance (st w)); [by apply G5|done..|].
      rewrite Hadv. simpl. case_bool_decide; lia.
    + rewrite Hun by done. by apply G5.
Qed.

Lemma game_inv_step (w w' : World) (e : Event) :
  draw_inv w → spin_mounted w → game_inv w →
  step_clean w e = Some w' → game_inv w'.
Proof.
  intros Hinv Hsm G Hstep. unfold step_clean in Hstep.
  destruct (clean_ok w e) eqn:Hclean; [|done].
  destruct (game_step_cases _ _ _ Hstep) as
    [Hsame Hids | He Hm -> | He Hm Hshow Hv -> | t c u He Ht Hcb Hu ->
    | t c u He Ht Hcb ->].
  - eapply game_inv_same; [done|apply Hids, G|done].
  - apply game_inv_initializeNumbers; [|done].
    destruct He as [-> | ->]; simpl in Hclean; by apply bool_decide_eq_true in Hclean.
  - by apply game_inv_handleSpin.
  - by apply game_inv_stopSpin.
  - by apply game_inv_roundComplete.
Qed.

Lemma step_clean_step (w w' : World) (e : Event) :
  step_clean w e = Some w' → step w e = Some w'.
Proof. unfold step_clean. by case_match. Qed.

Lemma run_clean_run (es : list Event) (w w' : World) :
  run_clean w es = Some w' → run w es = Some w'.
Proof.
  revert w. induction es as [|e es IH]; intros w Hrun; simpl in *; [done|].
  destruct (step_clean w e) as [w1|] eqn:Hstep; [|done].
  rewrite (step_clean_step _ _ _ Hstep). by apply IH.
Qed.

Lemma reachable_clean_inv (es : list Event) (w : World) :
  run_clean initial_world es = Some w →
  draw_inv w ∧ spin_mounted w ∧ game_inv w.
Proof.
  assert (Hgen : ∀ w0, draw_inv w0 → spin_mounted w0 → game_inv w0 →
                 run_clean w0 es = Some w → draw_inv w ∧ spin_mounted w ∧ game_inv w).
  { induction es as [|e es IH]; intros w0 Hinv Hsm G Hrun; simpl in Hrun.
    - by simplify_eq.
    - destruct (step_clean w0 e) as [w1|] eqn:Hstep; [|done].
      pose proof (step_clean_step _ _ _ Hstep) as Hstep'.
      eapply IH; [| | |done];
        [by eapply draw_inv_step|by eapply spin_mounted_step|by eapply game_inv_step]. }
  apply Hgen; [apply draw_inv_initial| |apply game_inv_initial].
  by intros t c ?%elem_of_nil.
Qed.

(** ** Round capacity *)

Lemma step_fire (w w' : World) (j : nat) (u : Rand) :
  step w (Fire j u) = Some w' →
  ∃ t, find_timer j (timers w) = Some t ∧ t ∈ timers w ∧ tid t = j
       ∧ rand_ok u = true
       ∧ w' = run_callback (callback t) u (with_timers (rearm t (timers w)) w).
Proof.
  simpl. destruct (find_timer j (timers w)) as [t|] eqn:Hf; [|done].
  destruct (bool_decide _ && rand_ok u) eqn:Hok; [|done].
  intros [= <-]. apply andb_true_iff in Hok as [_ Hu].
  destruct (find_timer_Some _ _ _ Hf) as [Ht Htid]. by exists t.
Qed.

(** C5, as stated, fails in three ways: a round whose count is 0 receives
    the winner of the first spin; a commit left over from before a reset
    lets a round of count 1 receive two winners; and on the configuration
    screen the plan can be edited below what the history holds. *)
Lemma C5_round_capacity_counterexample :
  (∃ w, run initial_world zero_count_game = Some w
        ∧ showConfig (st w) = false ∧ ¬ round_capacity w)
  ∧ (∃ w, run initial_world stale_game = Some w
          ∧ showConfig (st w) = false
          ∧ Step.count <$> steps (st w) = [Int 1; Int 1]
          ∧ ¬ round_capacity w)
  ∧ (∃ w, run_clean initial_world edited_game = Some w
          ∧ showConfig (st w) = true ∧ ¬ round_capacity w).
Proof.
  split_and!; eexists; (split; [vm_compute; reflexivity|]);
    split_and!; try (vm_compute; reflexivity).
  - intros H. specialize (H (Step.mk 1 "Round 1" (Int 0))).
    vm_compute in H. by specialize (H (list_elem_of_here _ _)).
  - intros H. specialize (H (Step.mk 2 "Round 2" (Int 1))).
    vm_compute in H.
    by specialize (H (list_elem_of_further _ _ _ (list_elem_of_here _ _))).
  - intros H. specialize (H (Step.mk 1 "Round 1" (Int 1))).
    vm_compute in H. by specialize (H (list_elem_of_here _ _)).
Qed.

(** C5, amended.  On the draw screen of a clean run, a round whose count is
    the integer [k] holds at most [max k 1] winners; so at most [k] when
    [k >= 1]. *)
Theorem C5_round_capacity (es : list Event) (w : World) (r : Step.t) (k : Z) :
  run_clean initial_world es = Some w → showConfig (st w) = false →
  r ∈ steps (st w) → Step.count r = Int k →
  (Z.of_nat (winnersOf (Step.id r) (history (st w))) ≤ Z.max k 1)%Z
  ∧ ((1 ≤ k)%Z →
     js_le (Int (Z.of_nat (winnersOf (Step.id r) (history (st w))))) (Step.count r) = true).
Proof.
  intros Hrun Hshow [j Hj]%list_elem_of_lookup Hk.
  destruct (reachable_clean_inv _ _ Hrun) as (_ & _ & G).
  destruct (g_counts _ G Hshow j r Hj) as (_ & Hmax & _).
  specialize (Hmax k Hk). split; [done|].
  intros Hpos. rewrite Hk. simpl. apply Z.leb_le. lia.
Qed.

Lemma C5_round_capacity_witness :
  ∃ w, run_clean initial_world two_rounds_played = Some w
       ∧ winnersOf 2 (history (st w)) = 1
       ∧ js_le (Int (Z.of_nat (winnersOf 2 (history (st w))))) (Int 1) = true.
Proof.
  eexists. split; [vm_compute; reflexivity|]. split; [vm_compute; reflexivity|].
  eapply (C5_round_capacity two_rounds_played _ (Step.mk 2 "Round 2" (Int 1)) 1);
    [vm_compute; reflexivity..| |reflexivity|lia].
  apply list_elem_of_further, list_elem_of_here.
Defined.

(** ** Round progression *)




(** ** A round whose count is 0 *)

(** Without a click on the spin button nothing is ever scheduled, so a
    fresh game stays at round index 0 with an empty history. *)
Lemma idle_step (w w' : World) (e : Event) :
  timers w = [] → currentStepIndex (st w) = 0 → history (st w) = [] →
  e ≠ ClickSpin → step w e = Some w' →
  timers w' = [] ∧ currentStepIndex (st w') = 0 ∧ history (st w') = [].
Proof.
  intros Hts Hi Hh Hne Hstep.
  destruct (game_step_cases _ _ _ Hstep) as
    [Hsame Hids | He Hm -> | He Hm Hshow Hv -> | t c u He Ht Hcb Hu ->
    | t c u He Ht Hcb Hw'].
  - destruct Hsame as (_ & Hh' & Hi' & _ & Hts' & _). rewrite Hh', Hi'.
    split_and!; try done.
    destruct (timers w') as [|x l] eqn:Hl; [done|].
    destruct (Hts' x) as (y & Hy & _); [by left|]. rewrite Hts in Hy.
    by apply elem_of_nil in Hy.
  - destruct (js_gt (totalWinnersNeeded (st w)) (totalAvailable (st w))) eqn:Hgt.
    + by rewrite initializeNumbers_rejected.
    + destruct (loop_throws (range_min (st w)) (range_max (st w))) eqn:Hloop;
        [by rewrite initializeNumbers_throws|].
      rewrite initializeNumbers_accepted by done. simpl.
      by rewrite setState_timers, setState_mounted.
  - done.
  - rewrite Hts in Ht. by apply elem_of_nil in Ht.
  - rewrite Hts in Ht. by apply elem_of_nil in Ht.
Qed.

Lemma idle_run (es : list Event) (w w' : World) :
  timers w = [] → currentStepIndex (st w) = 0 → history (st w) = [] →
  Forall (λ e, e ≠ ClickSpin) es → run w es = Some w' →
  currentStepIndex (st w') = 0 ∧ history (st w') = [].
Proof.
  revert w. induction es as [|e es IH]; intros w Hts Hi Hh Hall Hrun; simpl in Hrun.
  - by simplify_eq.
  - apply Forall_cons in Hall as [He Hall].
    destruct (step w e) as [w1|] eqn:Hstep; [|done].
    destruct (idle_step _ _ _ Hts Hi Hh He Hstep) as (? & ? & ?).
    by eapply IH.
Qed.

(** C7, as stated, fails.  With a single round of count 0 the initialised
    game sits at round index 0 with nothing scheduled, and whatever happens
    short of a spin leaves it there; the spin then commits its winner into
    that round, and only this commit starts the transition. *)
Lemma C7_zero_count_round_counterexample :
  ∃ w0, run initial_world zero_count_start = Some w0
    ∧ (Step.count <$> steps (st w0) !! currentStepIndex (st w0)) = Some (Int 0)
    ∧ isTransitioning (st w0) = false ∧ timers w0 = []
    ∧ (∀ es w, Forall (λ e, e ≠ ClickSpin) es → run w0 es = Some w →
       currentStepIndex (st w) = 0 ∧ history (st w) = [])
    ∧ (∃ w1, run w0 (spin_once 1 half) = Some w1
             ∧ WinRecord.stepId <$> history (st w1) = [1%Z]
             ∧ currentStepIndex (st w1) = 0
             ∧ isTransitioning (st w1) = true).
Proof.
  eexists. split; [vm_compute; reflexivity|].
  do 3 (split; [vm_compute; reflexivity|]). split.
  - intros es w. by apply idle_run.
  - eexists. split; [vm_compute; reflexivity|]. by vm_compute.
Qed.

(** C7, amended.  In a clean run, in a state in which the draw screen is
    shown and the current round has the count 0: outside a transition the
    round has no winner; the commit of a spin records its winner in this
    round, keeps the index and starts the 2000 ms transition; and any step
    other than an initialisation that moves the index finds exactly one
    winner recorded in the round, during a transition. *)
Theorem C7_zero_count_round (es : list Event) (w : World) (cur : Step.t) :
  run_clean initial_world es = Some w → showConfig (st w) = false →
  steps (st w) !! currentStepIndex (st w) = Some cur → Step.count cur = Int 0 →
  (isTransitioning (st w) = false → winnersOf (Step.id cur) (history (st w)) = 0)
  ∧ (∀ j u t c w', find_timer j (timers w) = Some t → callback t = CbStopSpin c →
     step w (Fire j u) = Some w' →
     winnersOf (Step.id cur) (history (st w')) = 1
     ∧ currentStepIndex (st w') = currentStepIndex (st w)
     ∧ isTransitioning (st w') = true
     ∧ transition_timer c w ∈ timers w')
  ∧ (∀ e w', step_clean w e = Some w' → e ≠ ClickInitialize → e ≠ ClickReset →
     currentStepIndex (st w') ≠ currentStepIndex (st w) →
     winnersOf (Step.id cur) (history (st w)) = 1 ∧ isTransitioning (st w) = true).
Proof.
  intros Hrun Hshow Hcur Hzero.
  destruct (reachable_clean_inv _ _ Hrun) as (Hinv & Hsm & G).
  destruct (g_counts _ G Hshow _ _ Hcur) as (_ & Hmax & Hnow).
  specialize (Hmax 0%Z Hzero).
  assert (Hnone : isTransitioning (st w) = false →
                  winnersOf (Step.id cur) (history (st w)) = 0).
  { intros Htr. destruct (Hnow eq_refl Htr) as [|Hlt]; [done|].
    rewrite Hzero in Hlt. simpl in Hlt. apply Z.leb_gt in Hlt. lia. }
  split_and!; [done| |].
  - intros j u t c w' Hf Hcb Hstep.
    destruct (step_fire _ _ _ _ Hstep) as (t0 & Hf0 & Ht & _ & Hu & Hw').
    rewrite Hf in Hf0. injection Hf0 as <-. rewrite Hcb in Hw'. simpl in Hw'.
    destruct (commit_outcome t c u w Hinv Hsm Ht Hcb Hu)
      as (n & cur' & _ & _ & Hcur' & Hst & _ & _ & _ & Hnew).
    destruct (g_spin _ G t c Ht Hcb) as (_ & Hh & Hi & Htr & Hsteps).
    rewrite <- Hw' in Hst, Hnew.
    rewrite (Hsteps Hshow), Hi, Hcur in Hcur'. injection Hcur' as <-.
    assert (Hdone : round_done c cur = true).
    { unfold round_done. rewrite Hzero. simpl. apply Z.leb_le. lia. }
    rewrite Hdone in Hst. rewrite Hst. simpl.
    rewrite winnersOf_cons. simpl. rewrite decide_True by done.
    rewrite (Hnone Htr). split_and!; try done. by apply Hnew.
  - intros e w' Hclean Hne1 Hne2 Hchange.
    pose proof (step_clean_step _ _ _ Hclean) as Hstep.
    destruct (game_step_cases _ _ _ Hstep) as
      [Hsame Hids | [He|He] Hm -> | He Hm Hshow' Hv -> | t c u He Ht Hcb Hu ->
      | t c u He Ht Hcb Hw'].
    + destruct Hsame as (_ & _ & Hi & _). by destruct Hchange.
    + done.
    + done.
    + destruct Hchange. rewrite (handleSpin_accepted _ Hv). simpl.
      rewrite !setState_mounted; simpl; rewrite ?setState_mounted_eq; done.
    + destruct (commit_outcome t c u w Hinv Hsm Ht Hcb Hu)
        as (n & cur' & _ & _ & _ & Hst & _).
      destruct Hchange. rewrite Hst. by destruct (round_done c cur').
    + destruct (g_trans _ G t c Ht Hcb)
        as (Hi & Htr & _ & _ & Hsteps & cur' & Hcur' & Hone & _).
      rewrite (Hsteps Hshow), Hi, Hcur in Hcur'. injection Hcur' as <-.
      split; [lia|done].
Qed.

Lemma C7_zero_count_round_witness :
  ∃ w, run_clean initial_world zero_count_start = Some w
       ∧ winnersOf 1 (history (st w)) = 0 ∧ currentStepIndex (st w) = 0.
Proof.
  eexists. split; [vm_compute; reflexivity|]. split; [|vm_compute; reflexivity].
  eapply (C7_zero_count_round zero_count_start _ (Step.mk 1 "Round 1" (Int 0)));
    vm_compute; reflexivity.
Defined.

(** ** Conservation at a commit *)

(** The commit takes the winner out of the pool of the render that started
    the spin: that pool loses exactly the winner, which is the number of
    the new record.  In a clean run this pool is the pool of the state. *)
Lemma commit_conservation (es : list Event) (w w' : World) (j : nat) (u : Rand)
    (t : Timer) (c : AppState) :
  run initial_world es = Some w →
  find_timer j (timers w) = Some t → callback t = CbStopSpin c →
  step w (Fire j u) = Some w' →
  ∃ n r,
    winning_number c u = Some n ∧ n ∈ availableNumbers c
    ∧ history (st w') = r :: history (st w) ∧ WinRecord.number r = Some n
    ∧ S (length (availableNumbers (st w'))) = length (availableNumbers c)
    ∧ (n ∉ availableNumbers (st w'))
    ∧ (∀ m, m ∈ availableNumbers (st w') ↔ m ∈ availableNumbers c ∧ m ≠ n)
    ∧ (run_clean initial_world es = Some w →
       availableNumbers c = availableNumbers (st w)).
Proof.
  intros Hrun Hf Hcb Hstep.
  destruct (reachable_inv _ _ Hrun) as [Hinv Hsm].
  destruct (step_fire _ _ _ _ Hstep) as (t0 & Hf0 & Ht & _ & Hu & Hw').
  rewrite Hf in Hf0. injection Hf0 as <-. rewrite Hcb in Hw'. simpl in Hw'.
  destruct (commit_outcome t c u w Hinv Hsm Ht Hcb Hu)
    as (n & cur & Hwin & Hin & _ & Hst & _).
  rewrite <- Hw' in Hst.
  destruct (inv_spin _ Hinv t c Ht Hcb) as (_ & _ & Hnd & _).
  destruct (filter_winner _ n Hnd Hin) as (Hlen & Hout & Hmem).
  exists n, (WinRecord.mk (Some n) (Step.id cur) (Step.name cur) (clock w)).
  split_and!; try done.
  1-4: rewrite Hst; by destruct (round_done c cur).
  intros Hclean. destruct (reachable_clean_inv _ _ Hclean) as (_ & _ & G).
  by destruct (g_spin _ G t c Ht Hcb) as (? & _).
Qed.

(** C2 at its failing input.  Range 1..5; the number 3 is drawn; a second
    spin is started and "Reset Game" is clicked while it runs.  When the
    timeout of that spin fires, the state holds the full pool of the new
    game and an empty history; the commit writes the pool of the old render
    without its winner 1, so the pool goes from five numbers to three and
    loses 3 as well, which no record of the new history holds. *)
Lemma C2_stale_commit_breaks_conservation :
  ∃ w w', run initial_world (stale_spin ++ flicker 4 zero 24 ++ [Wait 120]) = Some w
    ∧ step w (Fire 5 zero) = Some w'
    ∧ availableNumbers (st w) = [1; 2; 3; 4; 5]%Z
    ∧ history (st w) = []
    ∧ availableNumbers (st w') = [2; 4; 5]%Z
    ∧ drawn (st w') = [Some 1%Z].
Proof.
  do 2 eexists. split; [vm_compute; reflexivity|].
  split_and!; vm_compute; reflexivity.
Qed.

(** ** Timers across reset and teardown *)

Lemma initializeNumbers_timers (w : World) :
  timers (initializeNumbers w) = timers w
  ∧ timerRef (initializeNumbers w) = timerRef w
  ∧ intervalRef (initializeNumbers w) = intervalRef w.
Proof.
  destruct (js_gt (totalWinnersNeeded (st w)) (totalAvailable (st w))) eqn:Hgt.
  - by rewrite initializeNumbers_rejected.
  - destruct (loop_throws (range_min (st w)) (range_max (st w))) eqn:Hloop;
      [by rewrite initializeNumbers_throws|].
    rewrite initializeNumbers_accepted by done. simpl.
    rewrite setState_timers. by destruct (setState_refs w (λ _, initialized (st w))) as [-> ->].
Qed.

(** C9 at its failing inputs.  [initializeNumbers] never removes a pending
    timer.  After a reset during a spin the flicker (handle 4) and the
    timeout (handle 5) of the old game are still pending, and the timeout
    later commits into the new game.  After the teardown during a
    transition the transition timer (handle 3) is still pending and later
    plays the round-complete sound. *)
Theorem C9_timers_outlive_reset :
  (∀ w, timers (initializeNumbers w) = timers w)
  ∧ (∃ w w', run initial_world stale_spin = Some w
       ∧ tid <$> timers w = [4; 5]
       ∧ history (st w) = [] ∧ availableNumbers (st w) = [1; 2; 3; 4; 5]%Z
       ∧ run w (flicker 4 zero 24 ++ [Wait 120; Fire 5 zero]) = Some w'
       ∧ drawn (st w') = [Some 1%Z]
       ∧ availableNumbers (st w') = [2; 4; 5]%Z
       ∧ isTransitioning (st w') = true)
  ∧ (∃ w w', run initial_world (game_1_5 ++ spin_once 1 half ++ [Wait 500; Unmount])
             = Some w
       ∧ mounted w = false ∧ tid <$> timers w = [3]
       ∧ run w [Wait 1500; Fire 3 zero] = Some w'
       ∧ log w' = PlayComplete :: log w).
Proof.
  split_and!.
  - intros w. apply initializeNumbers_timers.
  - do 2 eexists. split; [vm_compute; reflexivity|].
    split_and!; vm_compute; reflexivity.
  - do 2 eexists. split; [vm_compute; reflexivity|].
    split_and!; vm_compute; reflexivity.
Qed.

(** ** Induction over runs *)

Lemma run_snoc (es : list Event) (e : Event) (w w' : World) :
  run w (es ++ [e]) = Some w' ↔ ∃ v, run w es = Some v ∧ step v e = Some w'.
Proof.
  revert w. induction es as [|x es IH]; intros w; simpl.
  - destruct (step w e) as [v|] eqn:Hs; naive_solver.
  - destruct (step w x) as [v|]; [apply IH|naive_solver].
Qed.

Lemma run_induction (P : World → Prop) :
  P initial_world →
  (∀ w e w', draw_inv w → spin_mounted w → P w → step w e = Some w' → P w') →
  ∀ es w, run initial_world es = Some w → P w.
Proof.
  intros H0 Hstep es. induction es as [|e es IH] using rev_ind; intros w Hrun.
  - simpl in Hrun. by simplify_eq.
  - apply run_snoc in Hrun as (v & Hv & Hs).
    destruct (reachable_inv _ _ Hv) as [Hinv Hsm]. by eapply Hstep; [..|exact Hs]; auto.
Qed.

Lemma run_clean_snoc (es : list Event) (e : Event) (w w' : World) :
  run_clean w (es ++ [e]) = Some w'
  ↔ ∃ v, run_clean w es = Some v ∧ step_clean v e = Some w'.
Proof.
  revert w. induction es as [|x es IH]; intros w; simpl.
  - destruct (step_clean w e) as [v|] eqn:Hs; naive_solver.
  - destruct (step_clean w x) as [v|]; [apply IH|naive_solver].
Qed.

Lemma clean_induction (P : World → Prop) :
  P initial_world →
  (∀ w e w', draw_inv w → spin_mounted w → game_inv w → P w →
             step_clean w e = Some w' → P w') →
  ∀ es w, run_clean initial_world es = Some w → P w.
Proof.
  intros H0 Hstep es. induction es as [|e es IH] using rev_ind; intros w Hrun.
  - simpl in Hrun. by simplify_eq.
  - apply run_clean_snoc in Hrun as (v & Hv & Hs).
    destruct (reachable_clean_inv _ _ Hv) as (Hinv & Hsm & G).
    by eapply Hstep; [..|exact Hs]; auto.
Qed.

(** ** The plan of rounds *)

Lemma increasing_app (l : list Z) (x : Z) :
  increasing l → Forall (λ y, (y < x)%Z) l → increasing (l ++ [x]).
Proof.
  induction l as [|y l IH]; simpl; [by intros _ _; split; [constructor|]|].
  intros [Hy Hl] Hlt. apply Forall_cons in Hlt as [Hyx Hlt].
  split; [|by apply IH]. apply Forall_app. split; [done|]. by constructor.
Qed.

Lemma increasing_filter (P : Step.t → Prop) `{!∀ x, Decision (P x)} (ss : list Step.t) :
  increasing (Step.id <$> ss) → increasing (Step.id <$> filter P ss).
Proof.
  induction ss as [|x ss IH]; [done|]. rewrite fmap_cons. intros [Hx Hss].
  rewrite filter_cons. case_decide; [|by apply IH].
  rewrite fmap_cons. split; [|by apply IH].
  apply Forall_fmap, Forall_forall. intros y [_ Hy]%list_elem_of_filter.
  rewrite Forall_forall in Hx. apply Hx. by apply list_elem_of_fmap_2.
Qed.

Lemma increasing_NoDup (l : list Z) : increasing l → NoDup l.
Proof.
  induction l as [|x l IH]; simpl; [constructor|]. intros [Hx Hl].
  constructor; [|by apply IH].
  intros Hin. rewrite Forall_forall in Hx. apply Hx in Hin. lia.
Qed.

(** Only the five editing controls of the configuration screen change the
    range or the plan. *)
Lemma config_frame (w w' : World) (e : Event) :
  step w e = Some w' →
  match e with
  | EditRangeMin _ | EditRangeMax _ | ClickAddStep | ClickRemoveStep _ | EditStep _ _ =>
      showConfig (st w) = true ∧ mounted w = true
  | _ =>
      steps (st w') = steps (st w) ∧ range_min (st w') = range_min (st w)
      ∧ range_max (st w') = range_max (st w)
  end.
Proof.
  intros Hstep.
  destruct e; simpl in Hstep;
    repeat match type of Hstep with
    | (if ?b then _ else _) = Some _ => destruct b eqn:?; simplify_eq
    | match ?o with Some _ => _ | None => _ end = Some _ => destruct o eqn:?; simplify_eq
    | Some _ = Some _ => simplify_eq
    | None = Some _ => discriminate
    end;
    try (split; [done|by destruct (mounted w)]).
  - destruct (js_gt (totalWinnersNeeded (st w)) (totalAvailable (st w))) eqn:Hgt.
    + by rewrite initializeNumbers_rejected.
    + destruct (loop_throws (range_min (st w)) (range_max (st w))) eqn:Hloop;
        [by rewrite initializeNumbers_throws|].
      rewrite initializeNumbers_accepted by done. simpl.
      unfold setState. by destruct (mounted w).
  - unfold clickSpin. destruct (spinDisabled (st w)) eqn:Hd; [done|].
    apply spinDisabled_false in Hd. rewrite (handleSpin_accepted _ Hd). simpl.
    unfold setState. destruct (mounted w) eqn:Hm; simpl; rewrite ?Hm; done.
  - unfold clickSettings, setState. by destruct (mounted w).
  - destruct (js_gt (totalWinnersNeeded (st w)) (totalAvailable (st w))) eqn:Hgt.
    + unfold clickReset. by rewrite initializeNumbers_rejected.
    + unfold clickReset.
      destruct (loop_throws (range_min (st w)) (range_max (st w))) eqn:Hloop;
        [by rewrite initializeNumbers_throws|].
      rewrite initializeNumbers_accepted by done. simpl.
      unfold setState. by destruct (mounted w).
  - unfold toggleStepExpansion, setState. by destruct (mounted w).
  - match goal with |- context [run_callback (callback ?t)] => rename t into tm end.
    set (w1 := with_timers (rearm tm (timers w)) w).
    assert (Hw1 : st w1 = st w) by done.
    destruct (callback tm) as [c|c|c]; simpl.
    + unfold tick, setState. simpl. by destruct (mounted w).
    + destruct (steps c !! currentStepIndex c) as [cur|] eqn:Hcur.
      * rewrite (stopSpin_unfold c u w1 cur Hcur).
        set (w0 := clearRef _ _).
        assert (Hst0 : st w0 = st w) by (subst w0; by rewrite !clearRef_st).
        destruct (round_done c cur); simpl; unfold setState; simpl;
          destruct (mounted w0) eqn:Hm0; simpl; rewrite ?Hm0, ?Hst0; simpl;
          rewrite ?Hst0; done.
      * rewrite (stopSpin_throw c u w1 Hcur). by rewrite !clearRef_st.
    + destruct (roundComplete_fields c w1) as (_ & _ & _ & _ & Hs & _ & _ & Hun).
      rewrite Hs. split; [done|].
      unfold roundComplete.
      destruct w as [s tr ir ts n k [] l]; simpl;
        repeat first [case_bool_decide | case_match]; simpl; done.
  - unfold cleanup. simpl. by rewrite !clearRef_st.
Qed.

Lemma addStep_steps (w : World) :
  mounted w = true →
  ∃ newId,
    steps (st (addStep w))
    = steps (st w)
      ++ [Step.mk newId ("Round " +:+ pretty (length (steps (st w)) + 1)) (Int 1)]
    ∧ Forall (λ x, (Step.id x < newId)%Z) (steps (st w))
    ∧ (steps (st w) = [] → newId = 1%Z)
    ∧ (Forall (λ x, (1 ≤ Step.id x)%Z) (steps (st w)) → (1 ≤ newId)%Z).
Proof.
  intros Hm. unfold addStep. rewrite setState_mounted by done. simpl.
  eexists. split; [done|]. case_bool_decide as Hlen.
  - split_and!.
    + apply Forall_forall. intros x Hx.
      pose proof (Math_max_ge (Step.id <$> steps (st w)) (Step.id x)) as Hle.
      specialize (Hle (list_elem_of_fmap_2 _ _ _ Hx)). lia.
    + intros Hnil. rewrite Hnil in Hlen. simpl in Hlen. lia.
    + intros Hpos. destruct (steps (st w)) as [|x l] eqn:Hs; [simpl in Hlen; lia|].
      apply Forall_cons in Hpos as [Hx _].
      pose proof (Math_max_ge (Step.id <$> x :: l) (Step.id x)) as Hle.
      specialize (Hle (list_elem_of_here _ _)). lia.
  - destruct (steps (st w)); [|simpl in Hlen; lia].
    split_and!; [constructor|done|done].
Qed.

Lemma filter_one_less (ss : list Step.t) (i : Z) :
  NoDup (Step.id <$> ss) →
  length ss ≤ S (length (filter (λ x, Step.id x ≠ i) ss)).
Proof.
  induction ss as [|x ss IH]; [simpl; lia|]. rewrite fmap_cons.
  intros [Hx Hnd]%NoDup_cons. rewrite filter_cons. case_decide as Hd.
  - simpl. specialize (IH Hnd). lia.
  - assert (Step.id x = i) as Hxi by (by destruct (decide (Step.id x = i)); [|destruct Hd]).
    assert (filter (λ y, Step.id y ≠ i) ss = ss) as ->; [|simpl; lia].
    clear IH Hd. induction ss as [|y ss IH]; [done|].
    rewrite fmap_cons in Hx, Hnd. apply not_elem_of_cons in Hx as [Hne Hx].
    apply NoDup_cons in Hnd as [_ Hnd]. rewrite filter_cons.
    rewrite decide_True by congruence. f_equal. by apply IH.
Qed.

(** X1.  In every state the component can reach, the plan has at least one
    round, and the ids of its rounds are at least 1 and strictly increasing
    along the plan, hence pairwise distinct. *)
Theorem plan_well_formed (es : list Event) (w : World) :
  run initial_world es = Some w →
  steps (st w) ≠ []
  ∧ increasing (Step.id <$> steps (st w))
  ∧ NoDup (Step.id <$> steps (st w))
  ∧ Forall (λ x, (1 ≤ Step.id x)%Z) (steps (st w)).
Proof.
  intros Hrun.
  cut (steps (st w) ≠ [] ∧ increasing (Step.id <$> steps (st w))
       ∧ Forall (λ x, (1 ≤ Step.id x)%Z) (steps (st w))).
  { intros (? & ? & ?). split_and!; try done. by apply increasing_NoDup. }
  revert es w Hrun. apply run_induction.
  - simpl. split_and!; try done; repeat constructor; simpl; lia.
  - intros w e w' _ _ (Hne & Hinc & Hpos) Hstep.
    pose proof (config_frame _ _ _ Hstep) as Hframe.
    destruct e; try (destruct Hframe as (-> & _); by split_and!);
      destruct Hframe as [Hshow Hm]; simpl in Hstep; rewrite Hm, Hshow in Hstep;
      simpl in Hstep.
    + injection Hstep as <-. rewrite setState_mounted by done. by split_and!.
    + injection Hstep as <-. rewrite setState_mounted by done. by split_and!.
    + injection Hstep as <-.
      destruct (addStep_steps w Hm) as (newId & -> & Hlt & _ & Hge).
      split_and!.
      * by destruct (steps (st w)).
      * rewrite fmap_app. apply increasing_app; [done|]. by apply Forall_fmap.
      * apply Forall_app. split; [done|]. constructor; [by apply Hge|constructor].
    + destruct (stepRowVisible i (st w)); [|done]. injection Hstep as <-.
      unfold removeStep. case_bool_decide as Hlen; [by split_and!|].
      rewrite setState_mounted by done. simpl. split_and!.
      * pose proof (filter_one_less (steps (st w)) i (increasing_NoDup _ Hinc)) as Hf.
        intros Hnil. rewrite Hnil in Hf. simpl in Hf.
        destruct (steps (st w)) as [|? [|? ?]]; simpl in *; try done; lia.
      * by apply increasing_filter.
      * apply Forall_forall. intros x [_ Hx]%list_elem_of_filter.
        rewrite Forall_forall in Hpos. by apply Hpos.
    + destruct (stepRowVisible i (st w)); [|done]. injection Hstep as <-.
      assert (Hlen : length (steps (st (updateStep i f w))) = length (steps (st w))).
      { unfold updateStep. rewrite setState_mounted by done. simpl.
        by rewrite length_fmap. }
      split_and!.
      * intros Hnil. rewrite Hnil in Hlen. by destruct (steps (st w)).
      * by rewrite ids_updateStep.
      * apply Forall_forall. intros x Hx.
        assert (Step.id x ∈ Step.id <$> steps (st w)) as (y & -> & Hy)%list_elem_of_fmap.
        { rewrite <- (ids_updateStep i f w). by apply list_elem_of_fmap_2. }
        rewrite Forall_forall in Hpos. by apply Hpos.
Qed.

Lemma plan_well_formed_witness :
  ∃ w, run initial_world (three_rounds ++ [ClickSettings; ClickRemoveStep 2; ClickAddStep])
       = Some w
       ∧ Step.id <$> steps (st w) = [1; 3; 4]%Z
       ∧ NoDup (Step.id <$> steps (st w)).
Proof.
  eexists. split; [vm_compute; reflexivity|]. split; [vm_compute; reflexivity|].
  eapply
    (plan_well_formed (three_rounds ++ [ClickSettings; ClickRemoveStep 2; ClickAddStep])).
  vm_compute. reflexivity.
Defined.

Lemma foldl_js_add_NaN (ss : list Step.t) :
  foldl (λ sum step, js_add sum (Step.count step)) NaN ss = NaN.
Proof. induction ss as [|x ss IH]; [done|]. simpl. exact IH. Qed.

Lemma sums_safe_nonneg (acc : Z) (cs : list Z) :
  (0 ≤ acc)%Z → Forall (λ c, (0 ≤ c)%Z) cs → (acc + foldr Z.add 0 cs ≤ 2 ^ 53)%Z →
  sums_safe acc cs = true.
Proof.
  revert acc. induction cs as [|c cs IH]; intros acc Hacc Hpos Hle; [done|].
  apply Forall_cons in Hpos as [Hc Hpos]. simpl in *.
  assert (0 ≤ foldr Z.add 0 cs)%Z.
  { clear -Hpos. induction Hpos; simpl; lia. }
  apply andb_true_iff. split; [apply Z.leb_le; lia|]. apply IH; [lia|done|lia].
Qed.

Lemma totalWinnersNeeded_exact (s : AppState) (cs : list Z) :
  Step.count <$> steps s = Int <$> cs →
  Forall (λ c, (0 ≤ c)%Z) cs → (foldr Z.add 0 cs ≤ 2 ^ 53)%Z →
  totalWinnersNeeded s = Int (foldr Z.add 0%Z cs).
Proof.
  intros Hcs Hpos Hle. apply totalWinnersNeeded_int; [done|].
  by apply sums_safe_nonneg.
Qed.



(** X3.  The remove button never empties the plan: with a single round it
    does nothing.  Otherwise, the ids being distinct, it takes out exactly
    the round with the given id and keeps the other rounds in their order. *)
Theorem removeStep_spec (w : World) (i : Z) :
  mounted w = true → NoDup (Step.id <$> steps (st w)) →
  let ss := steps (st w) in
  let ss' := steps (st (removeStep i w)) in
  (length ss = 1 → removeStep i w = w)
  ∧ (length ss ≠ 1 →
     ss' `sublist_of` ss
     ∧ (∀ y, y ∈ ss' ↔ y ∈ ss ∧ Step.id y ≠ i)
     ∧ (i ∈ Step.id <$> ss → S (length ss') = length ss)
     ∧ (i ∉ Step.id <$> ss → ss' = ss)).
Proof.
  intros Hm Hnd ss ss'. subst ss ss'. unfold removeStep. split.
  - intros Hlen. by rewrite bool_decide_eq_true_2.
  - intros Hlen. rewrite bool_decide_eq_false_2 by done.
    rewrite setState_mounted by done. simpl. split_and!.
    + apply sublist_filter.
    + intros y. rewrite list_elem_of_filter. naive_solver.
    + intros (x & -> & Hx)%list_elem_of_fmap.
      pose proof (filter_one_less (steps (st w)) (Step.id x) Hnd) as Hle.
      pose proof (length_filter_lt (λ y, Step.id y ≠ Step.id x) (steps (st w)) x Hx) as Hlt.
      specialize (Hlt (λ H, H eq_refl)). lia.
    + clear Hlen Hnd. generalize (steps (st w)). intros l Hni.
      induction l as [|y l IH]; [done|].
      rewrite fmap_cons in Hni. apply not_elem_of_cons in Hni as [Hne Hni].
      rewrite filter_cons, decide_True by congruence. f_equal. by apply IH.
Qed.

Lemma removeStep_spec_witness :
  removeStep 1 initial_world = initial_world
  ∧ Step.id <$> steps (st (removeStep 1 (addStep initial_world))) = [2%Z].
Proof.
  split.
  - apply (removeStep_spec initial_world 1); [done|vm_compute; apply NoDup_singleton|done].
  - vm_compute. reflexivity.
Defined.

Lemma update_counts (ss : list Step.t) (i : Z) (x : Step.t) (k v : Z) (cs : list Z) :
  NoDup (Step.id <$> ss) → x ∈ ss → Step.id x = i → Step.count x = Int k →
  Step.count <$> ss = Int <$> cs →
  ∃ cs', Step.count <$> ((λ y, if bool_decide (Step.id y = i)
                               then Step.mk (Step.id y) (Step.name y) (Int v) else y)
                          <$> ss) = Int <$> cs'
    ∧ foldr Z.add 0%Z cs' = (foldr Z.add 0 cs - k + v)%Z
    ∧ (Forall (λ c, (0 ≤ c)%Z) cs → (0 ≤ v)%Z → Forall (λ c, (0 ≤ c)%Z) cs').
Proof.
  revert cs. induction ss as [|y ss IH]; intros cs Hnd Hx Hid Hk Hcs.
  - by apply elem_of_nil in Hx.
  - rewrite fmap_cons in Hnd. apply NoDup_cons in Hnd as [Hy Hnd].
    destruct cs as [|c cs]; [done|]. rewrite !fmap_cons in Hcs.
    injection Hcs as Hc Hcs. rewrite fmap_cons.
    case_bool_decide as Hyi.
    + assert (x = y) as ->.
      { apply elem_of_cons in Hx as [->|Hx]; [done|].
        destruct Hy. rewrite Hyi, <- Hid. by apply list_elem_of_fmap_2. }
      rewrite Hk in Hc. injection Hc as <-.
      assert (Hsame : ((λ y0, if bool_decide (Step.id y0 = i)
                          then Step.mk (Step.id y0) (Step.name y0) (Int v) else y0)
                        <$> ss) = ss).
      { rewrite Hyi in Hy. clear IH Hnd Hx Hcs. induction ss as [|z ss IH]; [done|].
        rewrite fmap_cons in Hy. apply not_elem_of_cons in Hy as [Hne Hy].
        rewrite fmap_cons, bool_decide_eq_false_2 by congruence. f_equal. by apply IH. }
      rewrite Hsame. exists (v :: cs). rewrite !fmap_cons, Hcs. simpl.
      split_and!; [done|lia|].
      intros [_ Hpos]%Forall_cons Hv. by apply Forall_cons.
    + destruct (IH cs) as (cs' & Hcs' & Hsum & Hpos'); try done.
      { apply elem_of_cons in Hx as [->|Hx]; [by destruct Hyi|done]. }
      exists (c :: cs'). rewrite !fmap_cons, Hcs', Hc. simpl.
      split_and!; [done|lia|].
      intros [Hc0 Hpos]%Forall_cons Hv. apply Forall_cons. split; [done|by apply Hpos'].
Qed.

(** X4.  In a plan whose counts are integers that are not negative and add
    up to at most 2^53, as does the plan after the edit, editing the
    quantity of a round from [k] to [v] changes the total that the
    validation computes from [t] to [t - k + v], the ids of the plan being
    distinct; the ids, the names and the size of the range stay as they
    are. *)
Theorem updateStep_count_total (w : World) (i : Z) (x : Step.t) (k v t : Z) :
  mounted w = true → NoDup (Step.id <$> steps (st w)) →
  x ∈ steps (st w) → Step.id x = i → Step.count x = Int k →
  counts_exact (steps (st w)) → (0 ≤ v)%Z →
  totalWinnersNeeded (st w) = Int t → (t - k + v ≤ 2 ^ 53)%Z →
  let w' := updateStep i (FCount (Int v)) w in
  totalWinnersNeeded (st w') = Int (t - k + v)
  ∧ Step.id <$> steps (st w') = Step.id <$> steps (st w)
  ∧ Step.name <$> steps (st w') = Step.name <$> steps (st w)
  ∧ totalAvailable (st w') = totalAvailable (st w).
Proof.
  intros Hm Hnd Hx Hid Hk (cs & Hcs & Hpos & Hle) Hv Ht Hle' w'. subst w'. split_and!.
  - rewrite (totalWinnersNeeded_exact _ cs Hcs Hpos Hle) in Ht. injection Ht as <-.
    destruct (update_counts _ i x k v cs Hnd Hx Hid Hk Hcs) as (cs' & Hcs' & Hsum & Hpos').
    rewrite <- Hsum. apply totalWinnersNeeded_exact.
    + unfold updateStep. rewrite setState_mounted by done. exact Hcs'.
    + by apply Hpos'.
    + lia.
  - apply ids_updateStep.
  - unfold updateStep. rewrite setState_mounted by done. simpl.
    rewrite <- list_fmap_compose. apply list_fmap_ext. intros j y _. simpl.
    by case_bool_decide.
  - unfold updateStep. by rewrite setState_mounted.
Qed.

Lemma updateStep_count_total_witness :
  totalWinnersNeeded (st (updateStep 1 (FCount (Int 7)) initial_world)) = Int 7.
Proof.
  apply (updateStep_count_total initial_world 1 (Step.mk 1 "Round 1" (Int 1)) 1 7 1);
    [done|vm_compute; apply NoDup_singleton|apply list_elem_of_here|done|done
    |exists [1%Z]; split; [done|]; split; [by repeat constructor|by vm_compute]
    |lia|done|by vm_compute].
Defined.

(** X5.  A click on the header of a round flips the expansion of that round
    and of no other; a second click restores what the panel showed. *)
Theorem toggleStepExpansion_flip (w : World) (i : Z) :
  mounted w = true →
  let w1 := toggleStepExpansion i w in
  isExpanded i (st w1) = negb (isExpanded i (st w))
  ∧ (∀ j, j ≠ i → isExpanded j (st w1) = isExpanded j (st w))
  ∧ (∀ j, isExpanded j (st (toggleStepExpansion i w1)) = isExpanded j (st w))
  ∧ steps (st w1) = steps (st w) ∧ history (st w1) = history (st w)
  ∧ availableNumbers (st w1) = availableNumbers (st w)
  ∧ currentStepIndex (st w1) = currentStepIndex (st w).
Proof.
  intros Hm w1. subst w1. unfold toggleStepExpansion, isExpanded.
  rewrite !setState_mounted by (by rewrite ?setState_mounted_eq). simpl.
  split_and!; try done.
  - by rewrite lookup_insert_eq.
  - intros j Hj. by rewrite lookup_insert_ne.
  - intros j. destruct (decide (j = i)) as [->|Hj].
    + rewrite !lookup_insert_eq. simpl. by rewrite negb_involutive.
    + by rewrite !lookup_insert_ne.
Qed.

Lemma toggleStepExpansion_flip_witness :
  isExpanded 1 (st (toggleStepExpansion 1 initial_world)) = true.
Proof. by apply (toggleStepExpansion_flip initial_world 1). Defined.

(** ** Timers *)

Lemma timer_step_cases (w w' : World) (e : Event) :
  step w e = Some w' → timer_step w e w'.
Proof.
  intros Hstep.
  assert (Hset : ∀ f, (∀ s, isSpinning (f s) = isSpinning s) →
                 timer_step w e (setState f w)).
  { intros f Hf. apply ts_keep; unfold setState; destruct (mounted w) eqn:Hm;
      simpl; rewrite ?Hm; done. }
  assert (Hinit : timer_step w e (initializeNumbers w)).
  { destruct (js_gt (totalWinnersNeeded (st w)) (totalAvailable (st w))) eqn:Hgt.
    - rewrite initializeNumbers_rejected by done. by apply ts_keep.
    - destruct (loop_throws (range_min (st w)) (range_max (st w))) eqn:Hloop;
        [rewrite initializeNumbers_throws by done; by apply ts_keep|].
      rewrite initializeNumbers_accepted by done.
      apply ts_keep; simpl; unfold setState; destruct (mounted w) eqn:Hm;
        simpl; rewrite ?Hm; done. }
  destruct e; simpl in Hstep;
    repeat match type of Hstep with
    | (if ?b then _ else _) = Some _ => destruct b eqn:?; simplify_eq
    | match ?o with Some _ => _ | None => _ end = Some _ => destruct o eqn:?; simplify_eq
    | Some _ = Some _ => simplify_eq
    | None = Some _ => discriminate
    end; try (by apply Hset); try done.
  - unfold removeStep. case_bool_decide; [by apply ts_keep|by apply Hset].
  - unfold clickSpin. destruct (spinDisabled (st w)) eqn:Hd; [by apply ts_keep|].
    apply ts_spin; [by destruct (mounted w)|by apply spinDisabled_false|done].
  - by apply ts_keep.
  - match goal with H : find_timer _ _ = Some ?t |- _ =>
      apply find_timer_Some in H as [Ht Htid]; rename t into tm end.
    match goal with H : _ && _ = true |- _ => apply andb_true_iff in H as [_ Hu] end.
    destruct (callback tm) as [c|c|c] eqn:Hcb; simpl.
    + eapply ts_tick; [by rewrite Htid|done..].
    + eapply ts_commit; [by rewrite Htid|done..].
    + eapply ts_round; [by rewrite Htid|done..].
  - apply ts_unmount; [done|by destruct (mounted w)|done].
Qed.

Lemma rearm_interval (t : Timer) (ts : list Timer) (p : Z) :
  period t = Some p →
  tid <$> rearm t ts = tid <$> ts
  ∧ (∀ y, y ∈ ts → ∃ x, x ∈ rearm t ts ∧ tid x = tid y ∧ callback x = callback y
                        ∧ delay x = delay y ∧ period x = period y).
Proof.
  intros Hp. unfold rearm. rewrite Hp. split.
  - rewrite <- list_fmap_compose. apply list_fmap_ext. intros i x _. simpl.
    by case_bool_decide.
  - intros y Hy. eexists. split; [by apply list_elem_of_fmap_2|].
    by case_bool_decide.
Qed.

Lemma rearm_timeout (t : Timer) (ts : list Timer) :
  period t = None → rearm t ts = filter (λ x, tid x ≠ tid t) ts.
Proof. unfold rearm. by intros ->. Qed.

Lemma NoDup_tid_filter (P : Timer → Prop) `{!∀ x, Decision (P x)} (ts : list Timer) :
  NoDup (tid <$> ts) → NoDup (tid <$> filter P ts).
Proof.
  intros Hnd. eapply sublist_NoDup; [exact Hnd|]. apply fmap_sublist, sublist_filter.
Qed.

Lemma tid_inj (ts : list Timer) (x y : Timer) :
  NoDup (tid <$> ts) → x ∈ ts → y ∈ ts → tid x = tid y → x = y.
Proof.
  intros Hnd [i Hi]%list_elem_of_lookup [j Hj]%list_elem_of_lookup Heq.
  assert (i = j) as ->; [|congruence].
  eapply NoDup_lookup; [exact Hnd| |]; rewrite list_lookup_fmap.
  - by rewrite Hi.
  - rewrite Hj. simpl. by rewrite Heq.
Qed.

(** The timers, handles and refs that [stopSpin] leaves. *)
Lemma stopSpin_timers (c : AppState) (u : Rand) (w : World) :
  let w0 := clearRef (timerRef w) (clearRef (intervalRef w) w) in
  timerRef (stopSpin c u w) = timerRef w
  ∧ intervalRef (stopSpin c u w) = intervalRef w
  ∧ mounted (stopSpin c u w) = mounted w
  ∧ ((timers (stopSpin c u w) = timers w0
      ∧ nextTimerId (stopSpin c u w) = nextTimerId w)
     ∨ (timers (stopSpin c u w) = timers w0 ++ [transition_timer c w]
        ∧ nextTimerId (stopSpin c u w) = S (nextTimerId w))).
Proof.
  intros w0.
  assert (H0 : timerRef w0 = timerRef w ∧ intervalRef w0 = intervalRef w
               ∧ mounted w0 = mounted w ∧ nextTimerId w0 = nextTimerId w
               ∧ clock w0 = clock w).
  { subst w0.
    destruct (clearRef_fields (timerRef w) (clearRef (intervalRef w) w))
      as (-> & -> & -> & -> & _ & ->).
    by destruct (clearRef_fields (intervalRef w) w) as (-> & -> & -> & -> & _ & ->). }
  destruct H0 as (Htr & Hir & Hm & Hn & Hk).
  destruct (steps c !! currentStepIndex c) as [cur|] eqn:Hcur.
  - rewrite (stopSpin_unfold c u w cur Hcur). fold w0.
    destruct (round_done c cur); simpl;
      rewrite ?setState_timers, ?setState_next, ?setState_mounted_eq, ?setState_clock;
      simpl;
      rewrite ?setState_timers, ?setState_next, ?setState_mounted_eq, ?setState_clock.
    + destruct (setState_refs (emit PlayWin (emit FireConfetti
                  (setState (committed c (winning_number c u)
                     (WinRecord.mk (winning_number c u) (Step.id cur)
                        (Step.name cur) (clock w)) ) w0)))
                  (setIsTransitioning true)) as [-> ->]. simpl.
      destruct (setState_refs w0 (committed c (winning_number c u)
                     (WinRecord.mk (winning_number c u) (Step.id cur)
                        (Step.name cur) (clock w)))) as [-> ->].
      split_and!; try done. right. unfold transition_timer. by rewrite Hn, Hk.
    + destruct (setState_refs w0 (committed c (winning_number c u)
                     (WinRecord.mk (winning_number c u) (Step.id cur)
                        (Step.name cur) (clock w)))) as [-> ->].
      split_and!; try done. by left.
  - rewrite (stopSpin_throw c u w Hcur). fold w0. split_and!; try done. by left.
Qed.

Lemma timer_inv_initial : timer_inv initial_world.
Proof.
  split; simpl; try done; try (intros ? ? Hx; by apply elem_of_nil in Hx).
  - constructor.
  - intros ? Hx; by apply elem_of_nil in Hx.
  - by intros i [?|?].
Qed.

Lemma timer_inv_frame (w w' : World) :
  timers w' = timers w → nextTimerId w' = nextTimerId w → timerRef w' = timerRef w →
  intervalRef w' = intervalRef w → mounted w' = mounted w →
  isSpinning (st w') = isSpinning (st w) →
  timer_inv w → timer_inv w'.
Proof.
  intros Hts Hn Htr Hir Hm Hs Ht.
  destruct Ht. split; rewrite ?Hts, ?Hn, ?Htr, ?Hir, ?Hm, ?Hs; done.
Qed.

Lemma timer_inv_rearm (w : World) (t : Timer) :
  timer_inv w → t ∈ timers w → ¬ is_spin_timer t →
  timer_inv (with_timers (rearm t (timers w)) w).
Proof.
  intros [Hnd Hfr Htk Hsp Htrn Hrf Hspn Hnx] Hin Hns.
  assert (Hex : ∀ y, y ∈ timers w → (∀ c, callback y ≠ CbRoundComplete c) →
            ∃ x, x ∈ rearm t (timers w) ∧ callback x = callback y).
  { intros y Hy Hny. destruct (period t) as [p|] eqn:Hp.
    - destruct (rearm_interval t (timers w) p Hp) as [_ H].
      destruct (H y Hy) as (x & Hx & _ & Hc & _). by exists x.
    - exists y. split; [|done]. rewrite (rearm_timeout _ _ Hp).
      apply list_elem_of_filter. split; [|done]. intros Heq.
      apply (tid_inj _ _ _ Hnd Hy Hin) in Heq as ->.
      destruct (callback t) as [c|c|c] eqn:Hc.
      + destruct (Htk t c Hin Hc) as (_ & Hp' & _). congruence.
      + apply Hns. unfold is_spin_timer. by rewrite Hc.
      + by eapply Hny. }
  split; simpl.
  - destruct (period t) as [p|] eqn:Hp.
    + by destruct (rearm_interval t (timers w) p Hp) as [-> _].
    + rewrite (rearm_timeout _ _ Hp). by apply NoDup_tid_filter.
  - intros x (y & Hy & Hid & _)%rearm_elem_full. rewrite <- Hid. by apply Hfr.
  - intros x c (y & Hy & Hid & Hcb & Hdl & Hpd)%rearm_elem_full Hc.
    rewrite <- Hcb in Hc. destruct (Htk y c Hy Hc) as (Hir & Hp & Hne & y' & Hy' & Hc').
    rewrite <- Hid, <- Hpd. split_and!; try done.
    destruct (Hex y' Hy') as (x' & Hx' & Hcx'); [congruence|].
    exists x'. split; [done|congruence].
  - intros x c (y & Hy & Hid & Hcb & Hdl & Hpd)%rearm_elem_full Hc.
    rewrite <- Hcb in Hc. destruct (Hsp y c Hy Hc) as (Hp & Hd & y' & Hy' & Hc').
    rewrite <- Hdl, <- Hpd. split_and!; try done.
    destruct (Hex y' Hy') as (x' & Hx' & Hcx'); [congruence|].
    exists x'. split; [done|congruence].
  - intros x c (y & Hy & Hid & Hcb & Hdl & Hpd)%rearm_elem_full Hc.
    rewrite <- Hcb in Hc. rewrite <- Hdl, <- Hpd, <- Hid. by eapply Htrn.
  - done.
  - intros Hm Hs. destruct (Hspn Hm Hs) as (y & c & Hy & Hc).
    destruct (Hex y Hy) as (x' & Hx' & Hcx'); [congruence|].
    exists x', c. split; [done|congruence].
  - done.
Qed.

Lemma tick_fields (c : AppState) (u : Rand) (w : World) :
  timers (tick c u w) = timers w ∧ nextTimerId (tick c u w) = nextTimerId w
  ∧ timerRef (tick c u w) = timerRef w ∧ intervalRef (tick c u w) = intervalRef w
  ∧ mounted (tick c u w) = mounted w ∧ isSpinning (st (tick c u w)) = isSpinning (st w).
Proof. unfold tick, setState. by destruct (mounted w) eqn:E. Qed.

Lemma roundComplete_refs (c : AppState) (w : World) :
  nextTimerId (roundComplete c w) = nextTimerId w
  ∧ timerRef (roundComplete c w) = timerRef w
  ∧ intervalRef (roundComplete c w) = intervalRef w.
Proof.
  unfold roundComplete, setState. simpl.
  repeat case_match; try done; by destruct (mounted w) eqn:E.
Qed.

Lemma timer_inv_step (w w' : World) (e : Event) :
  draw_inv w → spin_mounted w → timer_inv w → step w e = Some w' → timer_inv w'.
Proof.
  intros Hd Hsm Ht Hstep. apply timer_step_cases in Hstep.
  destruct Hstep as [Hts Hn Htr Hir Hm Hs | Hm Hv -> | t c u -> Hin Hcb Hu ->
                    | t c u -> Hin Hcb Hu -> | t c u -> Hin Hcb -> | -> Hm ->].
  - destruct Ht. split; rewrite ?Hts, ?Hn, ?Htr, ?Hir, ?Hm, ?Hs; done.
  - assert (Hno : ∀ x, x ∈ timers w → ∃ c, callback x = CbRoundComplete c).
    { intros x Hx. destruct Hv as (Hs0 & _).
      destruct (callback x) as [c|c|c] eqn:Hc; [| |by eexists].
      - destruct (t_tick _ Ht x c Hx Hc) as (_ & _ & _ & y & Hy & Hcy).
        destruct (inv_spin _ Hd y c Hy Hcy) as (_ & Hs1 & _). congruence.
      - destruct (inv_spin _ Hd x c Hx Hc) as (_ & Hs1 & _). congruence. }
    rewrite (handleSpin_accepted w Hv).
    destruct Hv as (Hs0 & Htr0 & Hpool & Hidx).
    destruct Ht as [Hnd Hfr Htk Hsp Htrn Hrf Hspn Hnx].
    destruct w as [s tr ir ts n k m l]. simpl in *. subst m. simpl.
    split; simpl.
    + rewrite !fmap_app. simpl. rewrite !NoDup_app. split_and!.
      * done.
      * intros i (x & -> & Hx)%list_elem_of_fmap Hi%list_elem_of_singleton.
        specialize (Hfr x Hx). lia.
      * apply NoDup_singleton.
      * intros i [(x & -> & Hx)%list_elem_of_fmap| Hj%list_elem_of_singleton]%elem_of_app
          Hi%list_elem_of_singleton; [specialize (Hfr x Hx)|]; lia.
      * apply NoDup_singleton.
    + intros x [[Hx| ->%list_elem_of_singleton]%elem_of_app| ->%list_elem_of_singleton]%elem_of_app;
        simpl; [specialize (Hfr x Hx)| |]; lia.
    + intros x c [[Hx| ->%list_elem_of_singleton]%elem_of_app| ->%list_elem_of_singleton]%elem_of_app
        Hc; simpl in *.
      * destruct (Hno x Hx) as [c' Hc']. congruence.
      * injection Hc as <-. split_and!; try done.
        eexists. split; [apply elem_of_app; right; by apply list_elem_of_singleton|done].
      * done.
    + intros x c [[Hx| ->%list_elem_of_singleton]%elem_of_app| ->%list_elem_of_singleton]%elem_of_app
        Hc; simpl in *.
      * destruct (Hno x Hx) as [c' Hc']. congruence.
      * done.
      * injection Hc as <-. split_and!; try done.
        eexists. split; [apply elem_of_app; left; apply elem_of_app; right;
                         by apply list_elem_of_singleton|done].
    + intros x c [[Hx| ->%list_elem_of_singleton]%elem_of_app| ->%list_elem_of_singleton]%elem_of_app
        Hc; simpl in *; try done.
      destruct (Htrn x c Hx Hc) as (? & ? & _).
      specialize (Hfr x Hx). split_and!; try done; intros [= Heq]; lia.
    + intros i [[= <-]|[= <-]]; lia.
    + intros _ _. eexists _, _.
      split; [apply elem_of_app; right; by apply list_elem_of_singleton|done].
    + lia.
  - destruct (tick_fields c u (with_timers (rearm t (timers w)) w))
      as (? & ? & ? & ? & ? & ?).
    eapply timer_inv_frame; [done..|].
    apply timer_inv_rearm; [done..|]. unfold is_spin_timer. rewrite Hcb. tauto.
  - destruct (commit_outcome t c u w Hd Hsm Hin Hcb Hu)
      as (n & cur & _ & _ & _ & Hst & Hm & _).
    set (w1 := with_timers (rearm t (timers w)) w) in *.
    destruct (stopSpin_timers c u w1) as (Htr & Hir & _ & Hts).
    set (w0 := clearRef (timerRef w1) (clearRef (intervalRef w1) w1)) in *.
    destruct Ht as [Hnd Hfr Htk Hsp Htrn Hrf Hspn Hnx].
    destruct (Hsp t c Hin Hcb) as (Hp & _).
    assert (Hold : ∀ x, x ∈ timers w0 →
              1 ≤ tid x < nextTimerId w
              ∧ ∃ c', callback x = CbRoundComplete c' ∧ period x = None
                      ∧ delay x = 2000%Z
                      ∧ timerRef w ≠ Some (tid x) ∧ intervalRef w ≠ Some (tid x)).
    { intros x Hx. subst w0. apply clearRef_elem in Hx as [Hx Hntr].
      apply clearRef_elem in Hx as [Hx Hnir]. subst w1. simpl in *.
      apply rearm_elem_full in Hx as (y & Hy & Hid & Hc & Hdl & Hpd).
      rewrite <- Hid, <- Hc, <- Hdl, <- Hpd in *. split; [by apply Hfr|].
      destruct (callback y) as [c'|c'|c'] eqn:Hcy.
      - destruct (Htk y c' Hy Hcy) as (? & _). done.
      - destruct (inv_spin _ Hd y c' Hy Hcy) as (? & _). done.
      - exists c'. destruct (Htrn y c' Hy Hcy) as (? & ? & ? & ?). done. }
    assert (Hnd0 : NoDup (tid <$> timers w0)).
    { subst w0 w1. simpl. rewrite (rearm_timeout _ _ Hp).
      destruct (timerRef w), (intervalRef w); simpl;
        repeat apply NoDup_tid_filter; done. }
    assert (Hs' : isSpinning (st (stopSpin c u w1)) = false).
    { rewrite Hst. by destruct (round_done c cur). }
    split.
    + destruct Hts as [[-> _]|[-> _]]; [done|].
      rewrite fmap_app. apply NoDup_app. split_and!; [done| |apply NoDup_singleton].
      intros i (x & -> & Hx)%list_elem_of_fmap Hi%list_elem_of_singleton.
      simpl in Hi. destruct (Hold x Hx) as [? _]. lia.
    + intros x Hx. destruct Hts as [[Hts Hn]|[Hts Hn]]; rewrite Hts in Hx; rewrite Hn.
      * destruct (Hold x Hx) as [? _]. simpl. lia.
      * apply elem_of_app in Hx as [Hx| ->%list_elem_of_singleton].
        -- destruct (Hold x Hx) as [? _]. simpl. lia.
        -- simpl. lia.
    + intros x c0 Hx Hc. exfalso.
      destruct Hts as [[Hts Hn]|[Hts Hn]]; rewrite Hts in Hx.
      * destruct (Hold x Hx) as (_ & c' & Hc' & _). congruence.
      * apply elem_of_app in Hx as [Hx| ->%list_elem_of_singleton].
        -- destruct (Hold x Hx) as (_ & c' & Hc' & _). congruence.
        -- done.
    + intros x c0 Hx Hc. exfalso.
      destruct Hts as [[Hts Hn]|[Hts Hn]]; rewrite Hts in Hx.
      * destruct (Hold x Hx) as (_ & c' & Hc' & _). congruence.
      * apply elem_of_app in Hx as [Hx| ->%list_elem_of_singleton].
        -- destruct (Hold x Hx) as (_ & c' & Hc' & _). congruence.
        -- done.
    + intros x c0 Hx Hc. rewrite Htr, Hir.
      destruct Hts as [[Hts Hn]|[Hts Hn]]; rewrite Hts in Hx.
      * destruct (Hold x Hx) as (_ & c' & Hc' & ? & ? & ? & ?). done.
      * apply elem_of_app in Hx as [Hx| ->%list_elem_of_singleton].
        -- destruct (Hold x Hx) as (_ & c' & Hc' & ? & ? & ? & ?). done.
        -- simpl. split_and!; try done; intros Heq.
           ++ specialize (Hrf (nextTimerId w) (or_introl Heq)). lia.
           ++ specialize (Hrf (nextTimerId w) (or_intror Heq)). lia.
    + intros i Hi. rewrite Htr, Hir in Hi. specialize (Hrf i Hi).
      destruct Hts as [[_ ->]|[_ ->]]; simpl; lia.
    + intros _ Hs. congruence.
    + destruct Hts as [[_ ->]|[_ ->]]; simpl; lia.
  - destruct (roundComplete_fields c (with_timers (rearm t (timers w)) w))
      as (? & ? & _ & _ & _ & _ & ? & _).
    destruct (roundComplete_refs c (with_timers (rearm t (timers w)) w))
      as (? & ? & ?).
    eapply timer_inv_frame; [done..|].
    apply timer_inv_rearm; [done..|]. unfold is_spin_timer. rewrite Hcb. tauto.
  - destruct Ht as [Hnd Hfr Htk Hsp Htrn Hrf Hspn Hnx].
    assert (Hfs : timerRef (cleanup w) = timerRef w
                  ∧ intervalRef (cleanup w) = intervalRef w
                  ∧ nextTimerId (cleanup w) = nextTimerId w).
    { unfold cleanup. simpl.
      destruct (clearRef_fields (timerRef (clearRef (intervalRef w) w))
                  (clearRef (intervalRef w) w)) as (-> & -> & _ & _ & _ & ->).
      by destruct (clearRef_fields (intervalRef w) w) as (-> & -> & _ & _ & _ & ->). }
    destruct Hfs as (Htr & Hir & Hn).
    assert (Hold : ∀ x, x ∈ timers (cleanup w) →
              x ∈ timers w ∧ ∃ c', callback x = CbRoundComplete c').
    { intros x Hx. unfold cleanup in Hx. simpl in Hx.
      apply clearRef_elem in Hx as [Hx Hntr].
      apply clearRef_elem in Hx as [Hx Hnir]. split; [done|].
      destruct (clearRef_fields (intervalRef w) w) as (Heq & _).
      rewrite Heq in Hntr.
      destruct (callback x) as [c'|c'|c'] eqn:Hcy.
      - destruct (Htk x c' Hx Hcy) as (? & _). done.
      - destruct (inv_spin _ Hd x c' Hx Hcy) as (? & _). done.
      - by exists c'. }
    split.
    + unfold cleanup. simpl. destruct (intervalRef w); simpl; destruct (timerRef w);
        simpl; repeat apply NoDup_tid_filter; done.
    + intros x [Hx _]%Hold. rewrite Hn. by apply Hfr.
    + intros x c0 (_ & c' & Hc')%Hold Hc. congruence.
    + intros x c0 (_ & c' & Hc')%Hold Hc. congruence.
    + intros x c0 [Hx _]%Hold Hc. rewrite Htr, Hir. by eapply Htrn.
    + intros i Hi. rewrite Htr, Hir in Hi. rewrite Hn. by apply Hrf.
    + done.
    + by rewrite Hn.
Qed.

Lemma reachable_timer_inv (es : list Event) (w : World) :
  run initial_world es = Some w → timer_inv w.
Proof.
  revert es w. apply run_induction; [apply timer_inv_initial|].
  intros w e w' Hd Hsm Ht Hstep. by eapply timer_inv_step.
Qed.

Lemma step_Fire (w w' : World) (t : Timer) (u : Rand) :
  NoDup (tid <$> timers w) → t ∈ timers w → step w (Fire (tid t) u) = Some w' →
  rand_ok u = true ∧ (due t ≤ clock w)%Z
  ∧ w' = run_callback (callback t) u (with_timers (rearm t (timers w)) w).
Proof.
  intros Hnd Hin Hstep. simpl in Hstep.
  destruct (find_timer (tid t) (timers w)) as [t0|] eqn:Hf; [|done].
  apply find_timer_Some in Hf as [Hin0 Hid].
  apply (tid_inj _ _ _ Hnd Hin0 Hin) in Hid as ->.
  destruct (bool_decide (due t ≤ clock w)%Z) eqn:Hdue; [|done].
  destruct (rand_ok u) eqn:Hu; [|done]. simpl in Hstep.
  apply bool_decide_eq_true in Hdue. by simplify_eq.
Qed.

(** X6.  The timers of the component, in every run.  Pending timers have
    pairwise distinct handles, all at least 1 (so the truthiness tests of
    [stopSpin] and of the cleanup see them) and below the next handle.  A
    pending flicker is the 120 ms interval held in [intervalRef]; a pending
    [stopSpin] is the 3000 ms one-shot timeout held in [timerRef]; the two
    are pending together and close over the same render; so at most one
    flicker and at most one [stopSpin] are pending.  A pending round
    transition is a 2000 ms one-shot timeout held by neither ref. *)
Theorem timers_discipline (es : list Event) (w : World) :
  run initial_world es = Some w →
  NoDup (tid <$> timers w)
  ∧ (∀ t, t ∈ timers w → 1 ≤ tid t < nextTimerId w)
  ∧ (∀ t c, t ∈ timers w → callback t = CbTick c →
       intervalRef w = Some (tid t) ∧ period t = Some 120%Z
       ∧ ∃ t', t' ∈ timers w ∧ callback t' = CbStopSpin c)
  ∧ (∀ t c, t ∈ timers w → callback t = CbStopSpin c →
       timerRef w = Some (tid t) ∧ period t = None ∧ delay t = 3000%Z
       ∧ ∃ t', t' ∈ timers w ∧ callback t' = CbTick c)
  ∧ (∀ t c, t ∈ timers w → callback t = CbRoundComplete c →
       period t = None ∧ delay t = 2000%Z
       ∧ timerRef w ≠ Some (tid t) ∧ intervalRef w ≠ Some (tid t))
  ∧ (∀ x y, x ∈ timers w → y ∈ timers w → is_tick_timer x → is_tick_timer y → x = y)
  ∧ (∀ x y, x ∈ timers w → y ∈ timers w → is_spin_timer x → is_spin_timer y → x = y).
Proof.
  intros Hrun. destruct (reachable_inv _ _ Hrun) as [Hd _].
  destruct (reachable_timer_inv _ _ Hrun) as [Hnd Hfr Htk Hsp Htrn Hrf Hspn Hnx].
  split_and!; try done.
  - intros t c Hin Hc. destruct (Htk t c Hin Hc) as (? & ? & _ & ?). done.
  - intros t c Hin Hc. destruct (Hsp t c Hin Hc) as (? & ? & ?).
    destruct (inv_spin _ Hd t c Hin Hc) as (? & _). done.
  - intros x y Hx Hy Hcx Hcy. unfold is_tick_timer in *.
    destruct (callback x) as [cx| |] eqn:Ex; try done.
    destruct (callback y) as [cy| |] eqn:Ey; try done.
    destruct (Htk x cx Hx Ex) as (Hix & _). destruct (Htk y cy Hy Ey) as (Hiy & _).
    apply (tid_inj _ _ _ Hnd Hx Hy). congruence.
  - intros x y Hx Hy Hcx Hcy. unfold is_spin_timer in *.
    destruct (callback x) as [|cx|] eqn:Ex; try done.
    destruct (callback y) as [|cy|] eqn:Ey; try done.
    destruct (inv_spin _ Hd x cx Hx Ex) as (Hix & _).
    destruct (inv_spin _ Hd y cy Hy Ey) as (Hiy & _).
    apply (tid_inj _ _ _ Hnd Hx Hy). congruence.
Qed.

Lemma timers_discipline_witness :
  ∃ w, run initial_world (game_1_5 ++ [ClickSpin; Wait 120; Fire 1 half]) = Some w
       ∧ tid <$> timers w = [1; 2] ∧ NoDup (tid <$> timers w).
Proof.
  eexists. split; [vm_compute; reflexivity|]. split; [vm_compute; reflexivity|].
  eapply (timers_discipline (game_1_5 ++ [ClickSpin; Wait 120; Fire 1 half])).
  vm_compute. reflexivity.
Defined.

(** X7.  In every run, while the component is mounted, [isSpinning] is true
    exactly when a [stopSpin] timeout is pending. *)
Theorem spinning_iff_timeout (es : list Event) (w : World) :
  run initial_world es = Some w → mounted w = true →
  isSpinning (st w) = true ↔ ∃ t, t ∈ timers w ∧ is_spin_timer t.
Proof.
  intros Hrun Hm. destruct (reachable_inv _ _ Hrun) as [Hd _].
  pose proof (reachable_timer_inv _ _ Hrun) as Ht. split.
  - intros Hs. destruct (t_spinning _ Ht Hm Hs) as (t & c & Hin & Hc).
    exists t. split; [done|]. unfold is_spin_timer. by rewrite Hc.
  - intros (t & Hin & Hc). unfold is_spin_timer in Hc.
    destruct (callback t) as [|c|] eqn:E; try done.
    by destruct (inv_spin _ Hd t c Hin E) as (_ & ? & _).
Qed.

Lemma spinning_iff_timeout_witness :
  ∃ w, run initial_world (game_1_5 ++ [ClickSpin]) = Some w
       ∧ isSpinning (st w) = true
       ∧ (isSpinning (st w) = true ↔ ∃ t, t ∈ timers w ∧ is_spin_timer t).
Proof.
  eexists. split; [vm_compute; reflexivity|]. split; [vm_compute; reflexivity|].
  eapply (spinning_iff_timeout (game_1_5 ++ [ClickSpin])); vm_compute; reflexivity.
Defined.

(** X8.  After the unmount, in every run: neither the flicker nor the
    [stopSpin] timeout of the component is pending, the cleanup having
    cleared both; and no event, the firing of a round transition that the
    cleanup left pending included, changes the state of the component any
    more. *)
Theorem unmount_freezes (es : list Event) (w : World) :
  run initial_world es = Some w → mounted w = false →
  (∀ t, t ∈ timers w → ¬ is_tick_timer t ∧ ¬ is_spin_timer t)
  ∧ ∀ e w', step w e = Some w' → st w' = st w ∧ mounted w' = false.
Proof.
  intros Hrun Hm. destruct (reachable_inv _ _ Hrun) as [Hd Hsm].
  pose proof (reachable_timer_inv _ _ Hrun) as Ht.
  assert (Hall : ∀ t, t ∈ timers w → is_transition_timer t).
  { intros t Hin. unfold is_transition_timer.
    destruct (callback t) as [c|c|c] eqn:E; [| |done].
    - destruct (t_tick _ Ht t c Hin E) as (_ & _ & _ & y & Hy & Hcy).
      specialize (Hsm y c Hy Hcy). congruence.
    - specialize (Hsm t c Hin E). congruence. }
  split.
  { intros t Hin. specialize (Hall t Hin).
    unfold is_transition_timer, is_tick_timer, is_spin_timer in *.
    destruct (callback t); tauto. }
  intros e w' Hstep.
  destruct e; simpl in Hstep; rewrite ?Hm in Hstep; simpl in Hstep; try done.
  - case_match; by simplify_eq.
  - destruct (find_timer i (timers w)) as [t|] eqn:Hf; [|done].
    apply find_timer_Some in Hf as [Hin _].
    case_match; [|done]. simplify_eq.
    specialize (Hall t Hin). unfold is_transition_timer in Hall.
    destruct (callback t) as [c|c|c] eqn:E; try done. simpl.
    destruct (roundComplete_fields c (with_timers (rearm t (timers w)) w))
      as (_ & -> & _ & _ & _ & _ & _ & ->); done.
Qed.

Lemma unmount_freezes_witness :
  ∃ w, run initial_world (zero_count_game ++ [Unmount]) = Some w
       ∧ length (timers w) = 1
       ∧ (∀ t, t ∈ timers w → ¬ is_tick_timer t ∧ ¬ is_spin_timer t).
Proof.
  eexists. split; [vm_compute; reflexivity|]. split; [vm_compute; reflexivity|].
  eapply (unmount_freezes (zero_count_game ++ [Unmount])); vm_compute; reflexivity.
Defined.

(** X9.  A tick of the flicker, in every run: it shows a number of the pool
    of the render that started the spin, a number that is not in the
    history; it writes nothing but [currentNumber], plays the tick sound,
    and leaves every timer pending, itself re-armed 120 ms later. *)
Theorem tick_shows_undrawn (es : list Event) (w w' : World) (t : Timer)
    (c : AppState) (u : Rand) :
  run initial_world es = Some w →
  t ∈ timers w → callback t = CbTick c → step w (Fire (tid t) u) = Some w' →
  ∃ n, n ∈ availableNumbers c ∧ (Some n ∉ drawn (st w))
       ∧ st w' = setCurrentNumber (VNum n) (st w)
       ∧ log w' = PlayTick :: log w
       ∧ tid <$> timers w' = tid <$> timers w
       ∧ callback <$> timers w' = callback <$> timers w
       ∧ mkTimer (tid t) (due t + 120) (delay t) (period t) (callback t) ∈ timers w'.
Proof.
  intros Hrun Hin Hc Hstep. destruct (reachable_inv _ _ Hrun) as [Hd Hsm].
  pose proof (reachable_timer_inv _ _ Hrun) as Ht.
  destruct (step_Fire _ _ _ _ (t_ids _ Ht) Hin Hstep) as (Hu & _ & ->).
  destruct (t_tick _ Ht t c Hin Hc) as (_ & Hp & Hne & y & Hy & Hcy).
  pose proof (Hsm y c Hy Hcy) as Hm.
  destruct (inv_spin _ Hd y c Hy Hcy) as (_ & _ & _ & _ & _ & Hfresh).
  rewrite Hc. simpl. unfold tick.
  assert (Hlt : floor_random_times u (length (availableNumbers c))
                < length (availableNumbers c)).
  { apply floor_random_times_lt; [done|]. destruct (availableNumbers c); simpl; [done|lia]. }
  destruct (lookup_lt_is_Some_2 _ _ Hlt) as [n Hn]. rewrite Hn. simpl.
  exists n. pose proof (list_elem_of_lookup_2 _ _ _ Hn) as Hnin.
  rewrite setState_mounted by done. simpl. split_and!; try done.
  - by apply Hfresh.
  - unfold rearm. rewrite Hp. rewrite <- list_fmap_compose.
    apply list_fmap_ext. intros ? x _. simpl. by case_bool_decide.
  - unfold rearm. rewrite Hp. rewrite <- list_fmap_compose.
    apply list_fmap_ext. intros ? x _. simpl. by case_bool_decide.
  - unfold rearm. rewrite Hp. apply list_elem_of_fmap. exists t.
    split; [|done]. simpl. rewrite bool_decide_eq_true_2 by done.
    rewrite ?Hc, ?Hp. congruence.
Qed.

Lemma tick_shows_undrawn_witness :
  ∃ w w' n, run initial_world (game_1_5 ++ [ClickSpin; Wait 120]) = Some w
    ∧ step w (Fire 1 half) = Some w'
    ∧ st w' = setCurrentNumber (VNum n) (st w) ∧ (Some n ∉ drawn (st w)).
Proof.
  eexists _, _.
  destruct (tick_shows_undrawn (game_1_5 ++ [ClickSpin; Wait 120]) _ _
              (mkTimer 1 120 120 (Some 120%Z)
                 (CbTick (mkAppState (Int 1) (Int 5)
                    [Step.mk 1 "Round 1" (Int 1); Step.mk 2 "Round 2" (Int 1)]
                    [1; 2; 3; 4; 5]%Z [] (VStr "?") false false VNull 0 false
                    {[ 1%Z := true ]})))
              _ half ltac:(vm_compute; reflexivity)
              ltac:(apply list_elem_of_here) eq_refl ltac:(vm_compute; reflexivity))
    as (n & _ & Hnd & Hst & _).
  exists n. split; [vm_compute; reflexivity|]. split; [vm_compute; reflexivity|].
  split; [exact Hst|exact Hnd].
Defined.

(** X10.  Nothing cancels a round transition: in every run a pending
    transition timeout stays pending, unchanged, through every event but
    its own firing, the unmount included. *)
Theorem transition_never_cancelled (es : list Event) (w w' : World) (e : Event)
    (t : Timer) :
  run initial_world es = Some w →
  t ∈ timers w → is_transition_timer t → step w e = Some w' →
  (∀ u, e ≠ Fire (tid t) u) → t ∈ timers w'.
Proof.
  intros Hrun Hin Hc Hstep Hne. destruct (reachable_inv _ _ Hrun) as [Hd Hsm].
  destruct (reachable_timer_inv _ _ Hrun) as [Hnd Hfr Htk Hsp Htrn Hrf Hspn Hnx].
  unfold is_transition_timer in Hc. destruct (callback t) as [|?|c] eqn:E; try done.
  destruct (Htrn t c Hin E) as (Hp & _ & Hntr & Hnir).
  assert (Hre : ∀ t0, t0 ∈ timers w → tid t0 ≠ tid t → t ∈ rearm t0 (timers w)).
  { intros t0 Hin0 Hid. unfold rearm. destruct (period t0).
    - apply list_elem_of_fmap. exists t. by rewrite bool_decide_eq_false_2.
    - apply list_elem_of_filter. by split. }
  apply timer_step_cases in Hstep.
  destruct Hstep as [Hts _ _ _ _ _ | Hm Hv -> | t0 c0 u -> Hin0 Hc0 Hu ->
                    | t0 c0 u -> Hin0 Hc0 Hu -> | t0 c0 u -> Hin0 Hc0 -> | -> Hm ->].
  - by rewrite Hts.
  - rewrite (handleSpin_accepted w Hv). simpl. rewrite !setState_timers.
    apply elem_of_app. left. apply elem_of_app. by left.
  - destruct (tick_fields c0 u (with_timers (rearm t0 (timers w)) w)) as (-> & _).
    simpl. apply Hre; [done|]. intros Hid.
    apply (tid_inj _ _ _ Hnd Hin0 Hin) in Hid as ->. congruence.
  - set (w1 := with_timers (rearm t0 (timers w)) w).
    assert (H0 : t ∈ timers (clearRef (timerRef w1) (clearRef (intervalRef w1) w1))).
    { apply clearRef_elem. split; [|done]. apply clearRef_elem. split; [|done].
      simpl. apply Hre; [done|]. intros Hid.
      apply (tid_inj _ _ _ Hnd Hin0 Hin) in Hid as ->. congruence. }
    destruct (stopSpin_timers c0 u w1) as (_ & _ & _ & [[-> _]|[-> _]]); [done|].
    apply elem_of_app. by left.
  - destruct (roundComplete_fields c0 (with_timers (rearm t0 (timers w)) w)) as (-> & _).
    simpl. apply Hre; [done|]. intros Hid. by apply (Hne u); rewrite Hid.
  - unfold cleanup. simpl. apply clearRef_elem.
    destruct (clearRef_fields (intervalRef w) w) as (-> & _).
    split; [|done]. by apply clearRef_elem.
Qed.

Lemma transition_never_cancelled_witness :
  ∃ w w' t, run initial_world zero_count_game = Some w
    ∧ step w Unmount = Some w'
    ∧ timers w = [t] ∧ t ∈ timers w'.
Proof.
  eexists _, _, _. split; [vm_compute; reflexivity|].
  split; [vm_compute; reflexivity|]. split; [vm_compute; reflexivity|].
  eapply (transition_never_cancelled zero_count_game _ _ Unmount);
    [vm_compute; reflexivity|apply list_elem_of_here|exact I
    |vm_compute; reflexivity|done].
Defined.

(** ** Alerts *)

Lemma setState_log_eq (f : AppState → AppState) (w : World) : log (setState f w) = log w.
Proof. unfold setState. by destruct (mounted w). Qed.

Lemma stopSpin_log (c : AppState) (u : Rand) (w : World) :
  ∃ l, log (stopSpin c u w) = l ++ log w ∧ quiet l.
Proof.
  assert (H0 : log (clearRef (timerRef w) (clearRef (intervalRef w) w)) = log w).
  { destruct (clearRef_fields (timerRef w) (clearRef (intervalRef w) w))
      as (_ & _ & _ & _ & -> & _).
    by destruct (clearRef_fields (intervalRef w) w) as (_ & _ & _ & _ & -> & _). }
  destruct (steps c !! currentStepIndex c) as [cur|] eqn:Hcur.
  - rewrite (stopSpin_unfold c u w cur Hcur).
    exists [PlayWin; FireConfetti]. split.
    + destruct (round_done c cur); simpl; rewrite ?setState_log_eq; simpl;
        rewrite ?setState_log_eq; by rewrite H0.
    + intros m Hm. apply elem_of_cons in Hm as [?|Hm]; [done|].
      apply elem_of_cons in Hm as [?|Hm]; [done|]. by apply elem_of_nil in Hm.
  - rewrite (stopSpin_throw c u w Hcur). exists []. split; [by rewrite H0|].
    intros m Hm. by apply elem_of_nil in Hm.
Qed.

Lemma roundComplete_log (c : AppState) (w : World) :
  log (roundComplete c w) = PlayComplete :: log w.
Proof.
  unfold roundComplete. repeat case_match; simpl; by rewrite ?setState_log_eq.
Qed.

Lemma quiet_nil : quiet [].
Proof. intros m Hm. by apply elem_of_nil in Hm. Qed.

Lemma quiet_one (x : Effect) : (∀ m, x ≠ Alert m) → quiet [x].
Proof. intros Hx m Hm. apply list_elem_of_singleton in Hm. by eapply Hx. Qed.

Lemma log_step (w w' : World) (e : Event) :
  step w e = Some w' →
  (∃ l, log w' = l ++ log w ∧ quiet l)
  ∨ ((e = ClickInitialize ∨ e = ClickReset)
     ∧ js_gt (totalWinnersNeeded (st w)) (totalAvailable (st w)) = true
     ∧ w' = emit (Alert (InsufficientPool (totalWinnersNeeded (st w))
                           (totalAvailable (st w)))) w).
Proof.
  intros Hstep.
  assert (Hinit : ∀ e0, e0 = ClickInitialize ∨ e0 = ClickReset →
    (∃ l, log (initializeNumbers w) = l ++ log w ∧ quiet l)
    ∨ ((e0 = ClickInitialize ∨ e0 = ClickReset)
       ∧ js_gt (totalWinnersNeeded (st w)) (totalAvailable (st w)) = true
       ∧ initializeNumbers w
         = emit (Alert (InsufficientPool (totalWinnersNeeded (st w))
                          (totalAvailable (st w)))) w)).
  { intros e0 He0.
    destruct (js_gt (totalWinnersNeeded (st w)) (totalAvailable (st w))) eqn:Hgt.
    - right. by rewrite initializeNumbers_rejected.
    - left. destruct (loop_throws (range_min (st w)) (range_max (st w))) eqn:Hloop.
      { rewrite initializeNumbers_throws by done. exists []. split; [done|].
        intros m Hm. by apply elem_of_nil in Hm. }
      rewrite initializeNumbers_accepted by done. simpl.
      exists [StopAll]. rewrite setState_log_eq. split; [done|]. by apply quiet_one. }
  destruct e; simpl in Hstep;
    repeat match type of Hstep with
    | (if ?b then _ else _) = Some _ => destruct b eqn:?; simplify_eq
    | match ?o with Some _ => _ | None => _ end = Some _ => destruct o eqn:?; simplify_eq
    | Some _ = Some _ => simplify_eq
    | None = Some _ => discriminate
    end;
    try (left; exists []; split; [|apply quiet_nil]; simpl;
         unfold addStep, removeStep, updateStep, toggleStepExpansion, clickSettings;
         repeat case_match; by rewrite ?setState_log_eq).
  - apply Hinit. by left.
  - left. unfold clickSpin. destruct (spinDisabled (st w)) eqn:Hd.
    + exists []. split; [done|apply quiet_nil].
    + apply spinDisabled_false in Hd. rewrite (handleSpin_accepted _ Hd). simpl.
      rewrite !setState_log_eq. exists [StopAll]. split; [done|]. by apply quiet_one.
  - apply Hinit. by right.
  - left. destruct (callback t) as [c|c|c]; simpl.
    + exists [PlayTick]. unfold tick. simpl. rewrite setState_log_eq.
      split; [done|]. by apply quiet_one.
    + destruct (stopSpin_log c u (with_timers (rearm t (timers w)) w)) as (l & Hl & Hq).
      exists l. by rewrite Hl.
    + rewrite roundComplete_log. exists [PlayComplete]. split; [done|]. by apply quiet_one.
  - left. exists []. split; [|apply quiet_nil]. unfold cleanup. simpl.
    destruct (clearRef_fields (timerRef (clearRef (intervalRef w) w))
                (clearRef (intervalRef w) w)) as (_ & _ & _ & _ & -> & _).
    by destruct (clearRef_fields (intervalRef w) w) as (_ & _ & _ & _ & -> & _).
Qed.

(** X11.  The alerts, in every run.  The only alert ever raised is the
    insufficient-pool alert of [initializeNumbers], with a needed total
    that exceeds the available total; the two alerts of [handleSpin] are
    never raised, the spin button being disabled in the states they
    test. *)
Theorem alerts_only_insufficient (es : list Event) (w : World) (m : AlertMsg) :
  run initial_world es = Some w → Alert m ∈ log w →
  ∃ a b, m = InsufficientPool a b ∧ js_gt a b = true.
Proof.
  intros Hrun. revert m. revert es w Hrun.
  apply (run_induction (λ w, ∀ m, Alert m ∈ log w →
           ∃ a b, m = InsufficientPool a b ∧ js_gt a b = true)).
  - intros m Hm. by apply elem_of_nil in Hm.
  - intros w e w' _ _ IH Hstep m Hm.
    destruct (log_step _ _ _ Hstep) as [(l & Hl & Hq)|(_ & Hgt & ->)].
    + rewrite Hl in Hm. apply elem_of_app in Hm as [Hm|Hm]; [by apply Hq in Hm|].
      by apply IH.
    + simpl in Hm. apply elem_of_cons in Hm as [[= ->]|Hm]; [by eexists _, _|].
      by apply IH.
Qed.

Lemma alerts_only_insufficient_witness :
  ∃ w, run initial_world [EditRangeMax (Int 1); ClickAddStep; ClickInitialize] = Some w
       ∧ log w = [Alert (InsufficientPool (Int 2) (Int 1))]
       ∧ ∃ a b, InsufficientPool (Int 2) (Int 1) = InsufficientPool a b
                ∧ js_gt a b = true.
Proof.
  eexists. split; [vm_compute; reflexivity|]. split; [vm_compute; reflexivity|].
  eapply (alerts_only_insufficient [EditRangeMax (Int 1); ClickAddStep; ClickInitialize]);
    [vm_compute; reflexivity|apply list_elem_of_here].
Defined.

(** ** The books of a game *)

Lemma ledger_inv_eq (s s' : AppState) :
  steps s' = steps s → history s' = history s →
  availableNumbers s' = availableNumbers s →
  currentStepIndex s' = currentStepIndex s →
  range_min s' = range_min s → range_max s' = range_max s →
  ledger_inv s → ledger_inv s'.
Proof.
  intros Hst Hh Hp Hi Hlo Hhi [L1 L2 L3].
  split; unfold drawn; rewrite ?Hst, ?Hh, ?Hp, ?Hi, ?Hlo, ?Hhi; done.
Qed.

Lemma ledger_inv_initialized (s : AppState) : ledger_inv (initialized s).
Proof.
  split; simpl.
  - by intros r ?%elem_of_nil.
  - unfold drawn. simpl. by rewrite app_nil_r.
  - intros j x _ ?. lia.
Qed.

Lemma pool_commit (pool : list Z) (n : Z) :
  NoDup pool → n ∈ pool → n :: filter (λ m, Some m ≠ Some n) pool ≡ₚ pool.
Proof.
  intros Hnd Hin. induction Hnd as [|x l Hx Hnd IH]; [by apply elem_of_nil in Hin|].
  rewrite filter_cons. case_decide as Hd.
  - apply elem_of_cons in Hin as [->|Hin]; [done|].
    rewrite Permutation_swap. by rewrite (IH Hin).
  - injection Hd as ->.
    assert (filter (λ m, Some m ≠ Some n) l = l) as ->; [|done].
    clear IH Hin Hnd. induction l as [|y l IH]; [done|].
    rewrite filter_cons. apply not_elem_of_cons in Hx as [Hxy Hx].
    rewrite decide_True by congruence. f_equal. by apply IH.
Qed.

Lemma js_ge_mono (a b : Z) (c : jsnum) :
  (a ≤ b)%Z → js_ge (Int a) c = true → js_ge (Int b) c = true.
Proof.
  destruct c as [k|]; simpl; [|done]. intros Hab Ha%Z.leb_le. apply Z.leb_le. lia.
Qed.

Lemma ledger_step (w w' : World) (e : Event) :
  draw_inv w → spin_mounted w → game_inv w → ledger w →
  step w e = Some w' → ledger w'.
Proof.
  intros Hd Hsm G L Hstep Hsc'.
  pose proof (config_frame _ _ _ Hstep) as Hcf.
  destruct (game_step_cases _ _ _ Hstep)
    as [(Hp & Hh & Hi & _ & _ & Hcfg) _ | He Hm -> | -> Hm Hsc Hv ->
       | t c u -> Hin Hcb Hu -> | t c u -> Hin Hcb ->].
  - destruct (Hcfg Hsc') as [Hsc Hst].
    assert (Hr : range_min (st w') = range_min (st w)
                 ∧ range_max (st w') = range_max (st w)).
    { destruct e; simpl in Hcf; try (by destruct Hcf as (? & ? & ?));
        destruct Hcf; congruence. }
    destruct Hr. apply (ledger_inv_eq (st w)); try done. by apply L.
  - destruct (js_gt (totalWinnersNeeded (st w)) (totalAvailable (st w))) eqn:Hgt.
    + rewrite initializeNumbers_rejected in * by done. by apply L.
    + destruct (loop_throws (range_min (st w)) (range_max (st w))) eqn:Hloop.
      { rewrite initializeNumbers_throws in * by done. by apply L. }
      rewrite initializeNumbers_accepted by done. simpl.
      rewrite setState_mounted by done. apply ledger_inv_initialized.
  - rewrite (handleSpin_accepted _ Hv). specialize (L Hsc). clear -L Hm.
    destruct w as [s tr ir ts n k m l]. simpl in *. subst m. simpl.
    by apply (ledger_inv_eq s).
  - simpl in Hcf. destruct Hcf as (Hst' & Hlo & Hhi).
    destruct (commit_outcome t c u w Hd Hsm Hin Hcb Hu)
      as (n & cur & _ & Hn & Hcur & Hst & _).
    destruct (g_spin _ G t c Hin Hcb) as (Hpc & Hhc & Hic & _ & Hsteps).
    destruct (inv_spin _ Hd t c Hin Hcb) as (_ & _ & Hndc & _).
    set (w' := stopSpin c u (with_timers (rearm t (timers w)) w)) in *.
    assert (Hsc : showConfig (st w) = false).
    { rewrite Hst in Hsc'. by destruct (round_done c cur). }
    assert (Hfields : history (st w')
                      = WinRecord.mk (Some n) (Step.id cur) (Step.name cur) (clock w)
                        :: history (st w)
                      ∧ availableNumbers (st w')
                        = filter (λ m, Some m ≠ Some n) (availableNumbers c)
                      ∧ currentStepIndex (st w') = currentStepIndex (st w)).
    { rewrite Hst. by destruct (round_done c cur). }
    destruct Hfields as (Hh' & Hp' & Hi').
    specialize (Hsteps Hsc). destruct (L Hsc) as [L1 L2 L3].
    split.
    + intros r. rewrite Hh', Hst'. intros [->|Hr]%elem_of_cons; [|by apply L1].
      exists cur. split; [|done]. rewrite <- Hsteps. by eapply list_elem_of_lookup_2.
    + unfold drawn in *. rewrite Hh', Hp', Hlo, Hhi, <- L2, <- Hpc. simpl.
      rewrite <- (pool_commit (availableNumbers c) n Hndc Hn) at 2.
      rewrite !fmap_cons. simpl. symmetry. apply Permutation_middle.
    + intros j x. rewrite Hst', Hh', Hi', winnersOf_cons. intros Hj Hlt.
      destruct (L3 j x Hj Hlt) as [H1 H2]. simpl. split; [lia|].
      eapply js_ge_mono; [|exact H2]. lia.
  - simpl in Hcf. destruct Hcf as (Hst' & Hlo & Hhi).
    set (w1 := with_timers (rearm t (timers w)) w) in *.
    destruct (roundComplete_fields c w1) as (_ & _ & Hp & Hh & _ & Hsc & _ & Hfrozen).
    rewrite Hsc in Hsc'. change (st w1) with (st w) in *.
    destruct (L Hsc') as [L1 L2 L3].
    destruct (mounted w) eqn:Hm.
    + destruct (g_trans _ G t c Hin Hcb)
        as (Hic & _ & _ & _ & Hsteps & cur & Hcur & H1 & H2).
      specialize (Hsteps Hsc').
      destruct (roundComplete_advance c w1 Hm) as [Hi _].
      { by eapply lookup_lt_Some. }
      assert (Hi' : currentStepIndex (st (roundComplete c w1))
                    = currentStepIndex (st w) + 1).
      { rewrite Hi. change (st w1) with (st w). rewrite Hic.
        by destruct (bool_decide (currentStepIndex (st w) + 1 < length (steps c))). }
      split.
      * intros r. rewrite Hh, Hst'. apply L1.
      * unfold drawn in *. by rewrite Hh, Hp, Hlo, Hhi.
      * intros j x. rewrite Hst', Hh, Hi'. intros Hj Hlt.
        destruct (decide (j = currentStepIndex (st w))) as [->|Hne].
        -- rewrite <- Hsteps, <- Hic, Hcur in Hj. by simplify_eq.
        -- apply (L3 j); [done|lia].
    + rewrite (Hfrozen Hm). by split.
Qed.

Lemma reachable_ledger (es : list Event) (w : World) :
  run_clean initial_world es = Some w → ledger w.
Proof.
  revert es w. apply clean_induction; [done|].
  intros w e w' Hd Hsm G L Hstep. eapply ledger_step; [done..|].
  by apply step_clean_step.
Qed.

(** The winners of the rounds of a plan add up to the history, when every
    record names one round of the plan. *)
Lemma sum_winners_nil (ss : list Step.t) :
  sum_list ((λ x, winnersOf (Step.id x) []) <$> ss) = 0.
Proof. induction ss as [|x ss IH]; [done|]. rewrite fmap_cons. simpl sum_list. by rewrite IH. Qed.

Lemma sum_winners_cons (ss : list Step.t) (r : WinRecord.t) (h : list WinRecord.t) :
  sum_list ((λ x, winnersOf (Step.id x) (r :: h)) <$> ss)
  = length (filter (λ x, WinRecord.stepId r = Step.id x) ss)
    + sum_list ((λ x, winnersOf (Step.id x) h) <$> ss).
Proof.
  induction ss as [|x ss IH]; [done|]. rewrite !fmap_cons. simpl sum_list.
  rewrite IH, winnersOf_cons, filter_cons.
  destruct (decide (WinRecord.stepId r = Step.id x)); simpl; lia.
Qed.

Lemma one_round (ss : list Step.t) (i : Z) :
  NoDup (Step.id <$> ss) → i ∈ Step.id <$> ss →
  length (filter (λ x, i = Step.id x) ss) = 1.
Proof.
  induction ss as [|x ss IH]; [by intros _ ?%elem_of_nil|].
  rewrite fmap_cons. intros [Hx Hnd]%NoDup_cons Hin. rewrite filter_cons.
  case_decide as Hd.
  - subst i. simpl. f_equal. clear IH Hin Hnd.
    induction ss as [|y ss IH]; [done|]. rewrite fmap_cons in Hx.
    apply not_elem_of_cons in Hx as [Hxy Hx]. rewrite filter_cons.
    rewrite decide_False by done. by apply IH.
  - apply elem_of_cons in Hin as [?|Hin]; [done|]. by apply IH.
Qed.

Lemma sum_winners (ss : list Step.t) (h : list WinRecord.t) :
  NoDup (Step.id <$> ss) →
  (∀ r, r ∈ h → WinRecord.stepId r ∈ Step.id <$> ss) →
  sum_list ((λ x, winnersOf (Step.id x) h) <$> ss) = length h.
Proof.
  intros Hnd. induction h as [|r h IH]; intros Hin.
  - apply sum_winners_nil.
  - rewrite sum_winners_cons, one_round; [|done|apply Hin, list_elem_of_here].
    rewrite IH; [done|]. intros r' Hr'. apply Hin. by apply list_elem_of_further.
Qed.

Lemma sum_bounded (ws : list nat) (cs : list Z) :
  Forall2 (λ w k, (Z.of_nat w ≤ k)%Z) ws cs →
  (Z.of_nat (sum_list ws) ≤ foldr Z.add 0 cs)%Z
  ∧ ∀ i w k, ws !! i = Some w → cs !! i = Some k → (Z.of_nat w < k)%Z →
      (Z.of_nat (sum_list ws) < foldr Z.add 0 cs)%Z.
Proof.
  induction 1 as [|w k ws cs Hwk HF [IH1 IH2]]; simpl.
  - split; [lia|]. by intros i w k ?.
  - split; [lia|]. intros [|i] w' k' Hw Hk Hlt; simpl in *.
    + simplify_eq. lia.
    + specialize (IH2 i w' k' Hw Hk Hlt). lia.
Qed.

Lemma sum_exact (ws : list nat) (cs : list Z) :
  Forall2 (λ w k, Z.of_nat w = Z.max k 1) ws cs →
  Z.of_nat (sum_list ws) = foldr (λ k acc, (Z.max k 1 + acc)%Z) 0%Z cs.
Proof. induction 1 as [|w k ws cs Hwk HF IH]; simpl; lia. Qed.

(** X12.  The history panel, on the draw screen of a clean run.  Every
    record of the history carries the id and the name of a round of the
    plan, the header of that round is shown, and its number is an integer
    of the configured range that is no longer in the pool. *)
Theorem history_in_plan (es : list Event) (w : World) (r : WinRecord.t) :
  run_clean initial_world es = Some w → showConfig (st w) = false →
  r ∈ history (st w) →
  ∃ x n, x ∈ steps (st w) ∧ Step.id x = WinRecord.stepId r
    ∧ Step.name x = WinRecord.stepName r
    ∧ stepHeaderVisible (Step.id x) (st w) = true
    ∧ WinRecord.number r = Some n
    ∧ n ∈ build_nums (range_min (st w)) (range_max (st w))
    ∧ n ∉ availableNumbers (st w).
Proof.
  intros Hrun Hsc Hr. destruct (reachable_clean_inv _ _ Hrun) as (Hd & _ & _).
  destruct (reachable_ledger _ _ Hrun Hsc) as [L1 L2 _].
  destruct (L1 r Hr) as (x & Hx & Hid & Hname).
  assert (Hn : WinRecord.number r ∈ Some <$> build_nums (range_min (st w)) (range_max (st w))).
  { rewrite <- L2. apply elem_of_app. right. unfold drawn. by apply list_elem_of_fmap_2. }
  apply list_elem_of_fmap in Hn as (n & Hn & Hin).
  exists x, n. split_and!; try done.
  - unfold stepHeaderVisible. apply andb_true_iff. split; apply bool_decide_eq_true.
    + destruct (history (st w)); [by apply elem_of_nil in Hr|simpl; lia].
    + apply Exists_exists. exists x. split; [done|]. split; [done|]. left.
      assert (Hf : r ∈ filter (λ h, WinRecord.stepId h = Step.id x) (history (st w))).
      { by apply list_elem_of_filter. }
      destruct (filter _ (history (st w))); [by apply elem_of_nil in Hf|simpl; lia].
  - intros Hp. apply (inv_fresh _ Hd n Hp). rewrite <- Hn. unfold drawn.
    by apply list_elem_of_fmap_2.
Qed.

Lemma history_in_plan_witness :
  ∃ w r, run_clean initial_world two_rounds_played = Some w
    ∧ history (st w) !! 0 = Some r
    ∧ ∃ x n, x ∈ steps (st w) ∧ Step.id x = WinRecord.stepId r
        ∧ Step.name x = WinRecord.stepName r
        ∧ stepHeaderVisible (Step.id x) (st w) = true
        ∧ WinRecord.number r = Some n
        ∧ n ∈ build_nums (range_min (st w)) (range_max (st w))
        ∧ n ∉ availableNumbers (st w).
Proof.
  eexists _, _. split; [vm_compute; reflexivity|]. split; [vm_compute; reflexivity|].
  eapply (history_in_plan two_rounds_played);
    [vm_compute; reflexivity|vm_compute; reflexivity|apply list_elem_of_here].
Defined.

(** X13.  The numbers of a game, on the draw screen of a clean run: the
    pool and the numbers of the history together are, up to order, the
    array that the loop of [initializeNumbers] builds for the configured
    range, each number once; they are integers of the range.  With bounds
    between -2^53 and 2^53 they are all the integers of the range, so the
    lengths of the pool and of the history add up to the size of the
    range. *)
Theorem pool_partition (es : list Event) (w : World) :
  run_clean initial_world es = Some w → showConfig (st w) = false →
  (Some <$> availableNumbers (st w)) ++ drawn (st w)
  ≡ₚ Some <$> build_nums (range_min (st w)) (range_max (st w))
  ∧ NoDup ((Some <$> availableNumbers (st w)) ++ drawn (st w))
  ∧ length (availableNumbers (st w)) + length (history (st w))
    = length (build_nums (range_min (st w)) (range_max (st w)))
  ∧ (∀ a b, range_min (st w) = Int a → range_max (st w) = Int b →
     (∀ x, Some x ∈ (Some <$> availableNumbers (st w)) ++ drawn (st w) →
           (a ≤ x ≤ b)%Z)
     ∧ ((- 2 ^ 53 ≤ a)%Z → (b < 2 ^ 53)%Z →
        (∀ x, Some x ∈ (Some <$> availableNumbers (st w)) ++ drawn (st w)
              ↔ (a ≤ x ≤ b)%Z)
        ∧ Z.of_nat (length (availableNumbers (st w)) + length (history (st w)))
          = Z.max 0 (b - a + 1))).
Proof.
  intros Hrun Hsc. destruct (reachable_ledger _ _ Hrun Hsc) as [_ L2 _].
  destruct (reachable_clean_inv _ _ Hrun) as (Hd & _ & _).
  destruct (inv_config _ Hd Hsc) as [_ Hloop].
  assert (Hlen : length (availableNumbers (st w)) + length (history (st w))
                 = length (build_nums (range_min (st w)) (range_max (st w)))).
  { pose proof (Permutation_length L2) as HL. unfold drawn in HL.
    by rewrite length_app, !length_fmap in HL. }
  assert (Hin : ∀ x, Some x ∈ (Some <$> availableNumbers (st w)) ++ drawn (st w)
                     ↔ x ∈ build_nums (range_min (st w)) (range_max (st w))).
  { intros x. rewrite L2. split.
    - by intros (y & [= ->] & Hy)%list_elem_of_fmap.
    - apply list_elem_of_fmap_2. }
  split_and!; [done| |done|].
  - rewrite L2. apply (NoDup_fmap_2 _). apply build_nums_NoDup.
  - intros a b Ha Hb. split.
    + intros x Hx%Hin. rewrite Ha, Hb in Hx. by apply build_nums_range.
    + intros Hlo Hhi.
      assert (Hsize : (b - a + 1 ≤ MAX_ARRAY)%Z).
      { unfold loop_throws in Hloop. rewrite Ha, Hb, loop_int in Hloop by done.
        by destruct (Z.leb_spec (b - a + 1) MAX_ARRAY). }
      split.
      * intros x. rewrite Hin, Ha, Hb. by apply build_nums_elem.
      * rewrite Hlen, Ha, Hb, build_nums_int, length_seqZ by done. lia.
Qed.

Lemma pool_partition_witness :
  ∃ w, run_clean initial_world two_rounds_played = Some w
    ∧ availableNumbers (st w) = [1; 2; 5]%Z ∧ drawn (st w) = [Some 4; Some 3]%Z
    ∧ (Some <$> availableNumbers (st w)) ++ drawn (st w)
      ≡ₚ Some <$> build_nums (range_min (st w)) (range_max (st w)).
Proof.
  eexists. split; [vm_compute; reflexivity|]. split; [vm_compute; reflexivity|].
  split; [vm_compute; reflexivity|].
  eapply (pool_partition two_rounds_played); vm_compute; reflexivity.
Defined.

Lemma plan_counts (ss : list Step.t) (cs : list Z) (j : nat) (x : Step.t) :
  Step.count <$> ss = Int <$> cs → ss !! j = Some x →
  ∃ k, cs !! j = Some k ∧ Step.count x = Int k.
Proof.
  intros Hcs Hj. assert (H : (Step.count <$> ss) !! j = Some (Step.count x)).
  { by rewrite list_lookup_fmap, Hj. }
  rewrite Hcs, list_lookup_fmap in H.
  destruct (cs !! j) as [k|]; [|done]. exists k. split; [done|]. simpl in H. congruence.
Qed.

Lemma winners_Forall2 (P : nat → Z → Prop) (ss : list Step.t) (cs : list Z)
    (h : list WinRecord.t) :
  Step.count <$> ss = Int <$> cs →
  (∀ j x k, ss !! j = Some x → cs !! j = Some k → P (winnersOf (Step.id x) h) k) →
  Forall2 P ((λ x, winnersOf (Step.id x) h) <$> ss) cs.
Proof.
  intros Hcs HP. apply Forall2_same_length_lookup_2.
  - rewrite length_fmap. apply (f_equal length) in Hcs. by rewrite !length_fmap in Hcs.
  - intros j w k Hw Hk. rewrite list_lookup_fmap in Hw.
    destruct (ss !! j) as [x|] eqn:Hj; [|done]. simpl in Hw. injection Hw as <-.
    by eapply HP.
Qed.

(** X14.  Closed rounds, on the draw screen of a clean run: a round before
    the current one whose count is the integer [k] has exactly [max k 1]
    winners.  So when the game is finished and the counts are the integers
    [cs], the history has [max k 1] records for each count [k], and the
    pool has lost as many numbers. *)
Theorem closed_rounds_exact (es : list Event) (w : World) (cs : list Z) :
  run_clean initial_world es = Some w → showConfig (st w) = false →
  Step.count <$> steps (st w) = Int <$> cs →
  (∀ j x k, steps (st w) !! j = Some x → cs !! j = Some k →
     j < currentStepIndex (st w) →
     Z.of_nat (winnersOf (Step.id x) (history (st w))) = Z.max k 1)
  ∧ (isGameFinished (st w) = true →
     Z.of_nat (length (history (st w))) = foldr (λ k acc, (Z.max k 1 + acc)%Z) 0%Z cs
     ∧ Z.of_nat (length (availableNumbers (st w)))
       = (Z.of_nat (length (build_nums (range_min (st w)) (range_max (st w))))
          - foldr (λ k acc, (Z.max k 1 + acc)%Z) 0%Z cs)%Z).
Proof.
  intros Hrun Hsc Hcs. destruct (reachable_clean_inv _ _ Hrun) as (Hd & _ & G).
  destruct (reachable_ledger _ _ Hrun Hsc) as [L1 L2 L3].
  assert (Hex : ∀ j x k, steps (st w) !! j = Some x → cs !! j = Some k →
            j < currentStepIndex (st w) →
            Z.of_nat (winnersOf (Step.id x) (history (st w))) = Z.max k 1).
  { intros j x k Hj Hk Hlt.
    destruct (plan_counts _ _ _ _ Hcs Hj) as (k' & Hk' & Hc). simplify_eq.
    destruct (L3 j x Hj Hlt) as [H1 H2].
    destruct (g_counts _ G Hsc j x Hj) as (_ & Hmax & _). specialize (Hmax k Hc).
    rewrite Hc in H2. simpl in H2. apply Z.leb_le in H2. lia. }
  split; [done|]. intros Hfin. apply bool_decide_eq_true in Hfin.
  assert (Hlen : Z.of_nat (length (history (st w)))
                 = foldr (λ k acc, (Z.max k 1 + acc)%Z) 0%Z cs).
  { rewrite <- (sum_winners (steps (st w)) (history (st w))).
    - apply sum_exact. apply winners_Forall2; [done|].
      intros j x k Hj Hk. apply (Hex j x k Hj Hk).
      apply lookup_lt_Some in Hj. lia.
    - apply G.
    - intros r Hr. destruct (L1 r Hr) as (x & Hx & <- & _).
      by apply list_elem_of_fmap_2. }
  split; [done|].
  apply Permutation_length in L2. unfold drawn in L2.
  rewrite length_app, !length_fmap in L2. lia.
Qed.

Lemma closed_rounds_exact_witness :
  ∃ w, run_clean initial_world (zero_count_game ++ [Wait 2000; Fire 3 zero]) = Some w
    ∧ Step.count <$> steps (st w) = [Int 0]
    ∧ isGameFinished (st w) = true
    ∧ Z.of_nat (length (history (st w))) = 1%Z.
Proof.
  eexists. split; [vm_compute; reflexivity|]. split; [vm_compute; reflexivity|].
  split; [vm_compute; reflexivity|].
  eapply (closed_rounds_exact (zero_count_game ++ [Wait 2000; Fire 3 zero]) _ [0%Z]);
    vm_compute; reflexivity.
Defined.

(** X15.  The game can always go on: on the draw screen of a clean run with
    bounds between -2^52 and 2^52 and integer counts that are all at least
    1 and add up to at most 2^53, the pool is not empty while a round is
    open (the game is not finished and no transition is running); the spin
    button then reads "SPIN", or "Spinning..." while the spin runs, never
    "No numbers left". *)
Theorem open_round_has_numbers (es : list Event) (w : World) (a b : Z) (cs : list Z) :
  run_clean initial_world es = Some w → showConfig (st w) = false →
  range_min (st w) = Int a → range_max (st w) = Int b →
  safe_bound a → safe_bound b →
  Step.count <$> steps (st w) = Int <$> cs → Forall (λ k, (1 ≤ k)%Z) cs →
  (foldr Z.add 0 cs ≤ 2 ^ 53)%Z →
  isGameFinished (st w) = false → isTransitioning (st w) = false →
  availableNumbers (st w) ≠ []
  ∧ (Z.of_nat (length (history (st w))) < foldr Z.add 0 cs)%Z
  ∧ spinLabel (st w) = (if isSpinning (st w) then "Spinning..." else "SPIN").
Proof.
  intros Hrun Hsc Hlo Hhi Hsa Hsb Hcs Hpos Hsum Hfin Htr.
  destruct (reachable_clean_inv _ _ Hrun) as (Hd & _ & G).
  destruct (reachable_ledger _ _ Hrun Hsc) as [L1 L2 L3].
  apply bool_decide_eq_false in Hfin.
  destruct (lookup_lt_is_Some_2 (steps (st w)) (currentStepIndex (st w)))
    as [cur Hcur]; [lia|].
  destruct (plan_counts _ _ _ _ Hcs Hcur) as (kc & Hkc & Hcc).
  assert (Hlt : (Z.of_nat (length (history (st w))) < foldr Z.add 0 cs)%Z).
  { rewrite <- (sum_winners (steps (st w)) (history (st w))).
    - eapply (sum_bounded _ cs); [|by rewrite list_lookup_fmap, Hcur|exact Hkc|].
      + apply winners_Forall2; [done|]. intros j x k Hj Hk.
        destruct (plan_counts _ _ _ _ Hcs Hj) as (k' & Hk' & Hc). simplify_eq.
        destruct (g_counts _ G Hsc j x Hj) as (_ & Hmax & _). specialize (Hmax k Hc).
        rewrite Forall_forall in Hpos.
        specialize (Hpos k (list_elem_of_lookup_2 _ _ _ Hk)). lia.
      + destruct (g_counts _ G Hsc _ cur Hcur) as (_ & _ & H3).
        rewrite Forall_forall in Hpos.
        specialize (Hpos kc (list_elem_of_lookup_2 _ _ _ Hkc)).
        destruct (H3 eq_refl Htr) as [->|Hge]; [lia|].
        rewrite Hcc in Hge. simpl in Hge. apply Z.leb_gt in Hge. lia.
    - apply G.
    - intros r Hr. destruct (L1 r Hr) as (x & Hx & <- & _).
      by apply list_elem_of_fmap_2. }
  assert (Hne : availableNumbers (st w) ≠ []).
  { destruct (inv_config _ Hd Hsc) as [Hok Hloop].
    rewrite (totalWinnersNeeded_exact _ cs Hcs) in Hok;
      [|by eapply Forall_impl; [exact Hpos|]; simpl; intros; lia|done].
    rewrite (totalAvailable_small _ a b Hlo Hhi Hsa Hsb) in Hok. simpl in Hok.
    apply Z.ltb_ge in Hok. unfold safe_bound in Hsa, Hsb.
    assert (Hsize : (b - a + 1 ≤ MAX_ARRAY)%Z).
    { unfold loop_throws in Hloop. rewrite Hlo, Hhi, loop_int in Hloop by lia.
      by destruct (Z.leb_spec (b - a + 1) MAX_ARRAY). }
    apply Permutation_length in L2. unfold drawn in L2.
    rewrite length_app, !length_fmap, Hlo, Hhi, build_nums_int, length_seqZ in L2
      by lia.
    intros Hnil. rewrite Hnil in L2. simpl in L2. lia. }
  split_and!; [done..|].
  unfold spinLabel. rewrite Htr. destruct (isSpinning (st w)); [done|].
  unfold isGameFinished. rewrite bool_decide_eq_false_2 by done.
  rewrite bool_decide_eq_false_2; [done|].
  destruct (availableNumbers (st w)); [done|simpl; lia].
Qed.

Lemma open_round_has_numbers_witness :
  ∃ w, run_clean initial_world
         ([EditRangeMax (Int 2); ClickAddStep; ClickInitialize] ++ spin_once 1 half
          ++ [Wait 2000; Fire 3 zero]) = Some w
    ∧ currentStepIndex (st w) = 1
    ∧ length (availableNumbers (st w)) = 1
    ∧ availableNumbers (st w) ≠ [].
Proof.
  eexists. split; [vm_compute; reflexivity|]. split; [vm_compute; reflexivity|].
  split; [vm_compute; reflexivity|].
  eapply (open_round_has_numbers
            ([EditRangeMax (Int 2); ClickAddStep; ClickInitialize] ++ spin_once 1 half
             ++ [Wait 2000; Fire 3 zero]) _ 1 2 [1; 1]%Z);
    [vm_compute; reflexivity|vm_compute; reflexivity|vm_compute; reflexivity
    |vm_compute; reflexivity|by vm_compute|by vm_compute|vm_compute; reflexivity
    |repeat constructor; lia|by vm_compute|vm_compute; reflexivity
    |vm_compute; reflexivity].
Defined.

(** ** The spin button and the banner *)

(** X16.  The spin button reads "SPIN" exactly when it is enabled. *)
Theorem spinLabel_enabled (s : AppState) :
  spinLabel s = "SPIN" ↔ spinDisabled s = false.
Proof.
  unfold spinLabel, spinDisabled.
  destruct (isSpinning s), (isTransitioning s), (isGameFinished s),
    (bool_decide (length (availableNumbers s) = 0)); simpl; split; done.
Qed.

Lemma winner_frame (w w' : World) (e : Event) :
  step w e = Some w' →
  (winner (st w') = winner (st w) ∧ history (st w') = history (st w))
  ∨ winner (st w') = VNull
  ∨ ∃ t c u, t ∈ timers w ∧ callback t = CbStopSpin c ∧ rand_ok u = true
             ∧ w' = stopSpin c u (with_timers (rearm t (timers w)) w).
Proof.
  intros Hstep.
  assert (Hinit : (winner (st (initializeNumbers w)) = winner (st w)
                   ∧ history (st (initializeNumbers w)) = history (st w))
                  ∨ winner (st (initializeNumbers w)) = VNull).
  { destruct (js_gt (totalWinnersNeeded (st w)) (totalAvailable (st w))) eqn:Hgt.
    - left. by rewrite initializeNumbers_rejected.
    - destruct (loop_throws (range_min (st w)) (range_max (st w))) eqn:Hloop;
        [left; by rewrite initializeNumbers_throws|].
      rewrite initializeNumbers_accepted by done. simpl. unfold setState.
      destruct (mounted w); [by right|by left]. }
  destruct e; simpl in Hstep;
    repeat match type of Hstep with
    | (if ?b then _ else _) = Some _ => destruct b eqn:?; simplify_eq
    | match ?o with Some _ => _ | None => _ end = Some _ => destruct o eqn:?; simplify_eq
    | Some _ = Some _ => simplify_eq
    | None = Some _ => discriminate
    end;
    try (left; unfold addStep, removeStep, updateStep, toggleStepExpansion,
           clickSettings, setState; repeat case_match; done).
  - destruct Hinit as [?|?]; [by left|by right; left].
  - unfold clickSpin. destruct (spinDisabled (st w)) eqn:Hd; [by left|].
    apply spinDisabled_false in Hd. rewrite (handleSpin_accepted _ Hd). simpl.
    unfold setState. destruct (mounted w) eqn:Hm; simpl; rewrite ?Hm; simpl;
      [by right; left|by left].
  - destruct Hinit as [?|?]; [by left|by right; left].
  - match goal with H : find_timer _ _ = Some ?t |- _ =>
      apply find_timer_Some in H as [Ht Htid]; rename t into tm end.
    match goal with H : _ && _ = true |- _ => apply andb_true_iff in H as [_ Hu] end.
    destruct (callback tm) as [c|c|c] eqn:Hcb; simpl.
    + left. unfold tick, setState. simpl. by destruct (mounted w).
    + right. right. by exists tm, c, u.
    + left. unfold roundComplete, setState. simpl.
      repeat case_match; try done; by destruct (mounted w).
  - left. unfold cleanup. simpl. by rewrite !clearRef_st.
Qed.

Lemma reachable_winner_inv (es : list Event) (w : World) :
  run initial_world es = Some w → winner_inv (st w).
Proof.
  revert es w. apply run_induction; [by left|].
  intros w e w' Hd Hsm IH Hstep.
  destruct (winner_frame _ _ _ Hstep)
    as [[Hw Hh]|[Hw|(t & c & u & Hin & Hcb & Hu & ->)]].
  - unfold winner_inv. by rewrite Hw, Hh.
  - by left.
  - destruct (commit_outcome t c u w Hd Hsm Hin Hcb Hu)
      as (n & cur & _ & _ & _ & Hst & _).
    right. rewrite Hst. eexists _, _, n.
    by destruct (round_done c cur).
Qed.

(** X17.  The congratulation banner, in every run.  When it is shown, the
    history is not empty, the winner is the number of the newest record,
    which is not 0, and the round name shown is the name in that record;
    the fallback name is never shown.  A win of the number 0 shows no
    congratulation. *)
Theorem banner_names_winner (es : list Event) (w : World) :
  run initial_world es = Some w →
  (∀ nm, banner (st w) = Congratulation nm →
     ∃ r rest n, history (st w) = r :: rest ∧ WinRecord.number r = Some n
       ∧ n ≠ 0%Z ∧ winner (st w) = VNum n ∧ nm = WinRecord.stepName r)
  ∧ (winner (st w) = VNum 0 → ∀ nm, banner (st w) ≠ Congratulation nm).
Proof.
  intros Hrun. pose proof (reachable_winner_inv _ _ Hrun) as Hw. split.
  - intros nm Hb. unfold banner in Hb.
    destruct Hw as [Hw|(r & rest & n & Hh & Hn & Hw)]; rewrite Hw in Hb; simpl in Hb.
    + by destruct (isGameFinished (st w)).
    + destruct (Z.eqb_spec n 0) as [->|Hn0]; simpl in Hb.
      * by destruct (isGameFinished (st w)).
      * rewrite Hh in Hb. simpl in Hb. injection Hb as <-. by exists r, rest, n.
  - intros H0 nm. unfold banner. rewrite H0. simpl.
    by destruct (isGameFinished (st w)).
Qed.

Lemma banner_names_winner_witness :
  ∃ w, run initial_world two_rounds_played = Some w
    ∧ banner (st w) = Congratulation "Round 2"
    ∧ ∃ r rest n, history (st w) = r :: rest ∧ WinRecord.number r = Some n
        ∧ n ≠ 0%Z ∧ winner (st w) = VNum n ∧ "Round 2" = WinRecord.stepName r.
Proof.
  eexists. split; [vm_compute; reflexivity|]. split; [vm_compute; reflexivity|].
  eapply (banner_names_winner two_rounds_played); vm_compute; reflexivity.
Defined.

(** ** Inputs that do not parse *)

Lemma foldl_js_add_NaN_elem (ss : list Step.t) (acc : jsnum) (x : Step.t) :
  x ∈ ss → Step.count x = NaN →
  foldl (λ sum step, js_add sum (Step.count step)) acc ss = NaN.
Proof.
  intros Hx Hc. revert acc. induction ss as [|y ss IH]; intros acc.
  - by apply elem_of_nil in Hx.
  - simpl. apply elem_of_cons in Hx as [<-|Hx].
    + rewrite Hc. destruct acc; simpl; apply foldl_js_add_NaN.
    + by apply IH.
Qed.

(** X18.  A bound or a count that does not parse passes the validation of
    [initializeNumbers]: the comparison with [NaN] is false, whatever the
    other inputs are.  No alert is raised and, the loop over the range
    ending, the game starts.  With such a bound the loop ends at once: the
    game starts with an empty pool and the spin button disabled. *)
Theorem initializeNumbers_NaN (w : World) :
  mounted w = true →
  range_min (st w) = NaN ∨ range_max (st w) = NaN
  ∨ (∃ x, x ∈ steps (st w) ∧ Step.count x = NaN) →
  js_gt (totalWinnersNeeded (st w)) (totalAvailable (st w)) = false
  ∧ (loop_throws (range_min (st w)) (range_max (st w)) = false →
     st (initializeNumbers w) = initialized (st w)
     ∧ log (initializeNumbers w) = StopAll :: log w)
  ∧ (range_min (st w) = NaN ∨ range_max (st w) = NaN →
     st (initializeNumbers w) = initialized (st w)
     ∧ log (initializeNumbers w) = StopAll :: log w
     ∧ availableNumbers (st (initializeNumbers w)) = []
     ∧ spinDisabled (st (initializeNumbers w)) = true
     ∧ spinLabel (st (initializeNumbers w))
       = (if isSpinning (st w) then "Spinning..."
          else if bool_decide (steps (st w) = []) then "Finished"
          else "No numbers left")).
Proof.
  intros Hm Hnan.
  assert (Hok : js_gt (totalWinnersNeeded (st w)) (totalAvailable (st w)) = false).
  { unfold totalAvailable, totalWinnersNeeded.
    destruct Hnan as [->|[->|(x & Hx & Hc)]].
    - rewrite js_sub_NaN_r. simpl. by destruct (foldl _ _ _).
    - simpl. by destruct (foldl _ _ _).
    - by rewrite (foldl_js_add_NaN_elem _ _ x Hx Hc). }
  assert (Hstart : loop_throws (range_min (st w)) (range_max (st w)) = false →
    st (initializeNumbers w) = initialized (st w)
    ∧ log (initializeNumbers w) = StopAll :: log w).
  { intros Hloop. rewrite (initializeNumbers_accepted _ Hok Hloop). simpl.
    by rewrite setState_log_eq, setState_mounted by done. }
  split_and!; [done|done|]. intros Hb.
  assert (Hloop : loop_throws (range_min (st w)) (range_max (st w)) = false).
  { destruct Hb as [->| ->]; [done|]. by destruct (range_min (st w)). }
  destruct (Hstart Hloop) as [Hst Hlog]. rewrite Hst.
  assert (Hnil : build_nums (range_min (st w)) (range_max (st w)) = []).
  { destruct Hb as [->| ->]; [done|]. by destruct (range_min (st w)). }
  unfold spinDisabled, spinLabel, isGameFinished. simpl. rewrite Hnil. simpl.
  split_and!; [done|done|done|by destruct (isSpinning (st w))|].
  destruct (isSpinning (st w)); [done|].
  destruct (steps (st w)); simpl; by repeat case_bool_decide.
Qed.

Lemma initializeNumbers_NaN_witness :
  st (initializeNumbers (setState (setRangeMax NaN) initial_world))
  = initialized (setRangeMax NaN initial_state)
  ∧ log (initializeNumbers (setState (setRangeMax NaN) initial_world)) = [StopAll].
Proof.
  destruct (initializeNumbers_NaN (setState (setRangeMax NaN) initial_world))
    as (_ & _ & H); [reflexivity|right; left; reflexivity|].
  destruct H as (H1 & H2 & _); [right; reflexivity|].
  split; [exact H1|exact H2].
Defined.

(** X19.  A round whose count does not parse never closes.  On the draw
    screen of a clean run, while such a round is the open current round,
    no event but "Initialize & Start" and "Reset Game" changes the round
    index or starts a transition: every commit goes into that round. *)
Theorem NaN_round_stays_open (es : list Event) (w w' : World) (e : Event)
    (cur : Step.t) :
  run_clean initial_world es = Some w → showConfig (st w) = false →
  steps (st w) !! currentStepIndex (st w) = Some cur → Step.count cur = NaN →
  isTransitioning (st w) = false →
  step w e = Some w' → e ≠ ClickInitialize → e ≠ ClickReset →
  currentStepIndex (st w') = currentStepIndex (st w)
  ∧ isTransitioning (st w') = false
  ∧ steps (st w') = steps (st w).
Proof.
  intros Hrun Hsc Hcur Hnan Htr Hstep Hni Hnr.
  destruct (reachable_clean_inv _ _ Hrun) as (Hd & Hsm & G).
  pose proof (config_frame _ _ _ Hstep) as Hcf.
  destruct (game_step_cases _ _ _ Hstep)
    as [(Hp & Hh & Hi & Ht & _ & Hcfg) _ | [?|?] _ _ | -> Hm _ Hv ->
       | t c u -> Hin Hcb Hu -> | t c u -> Hin Hcb ->]; try done.
  - split_and!; [done|congruence|].
    destruct e; simpl in Hcf; try (by destruct Hcf as (? & ? & ?));
      destruct Hcf; congruence.
  - rewrite (handleSpin_accepted _ Hv). clear -Hm Htr.
    destruct w as [s tr ir ts n k m l]. simpl in *. by subst m.
  - simpl in Hcf. destruct Hcf as (Hst' & _).
    destruct (commit_outcome t c u w Hd Hsm Hin Hcb Hu)
      as (n & cur' & _ & _ & Hcur' & Hst & _).
    destruct (g_spin _ G t c Hin Hcb) as (_ & _ & Hic & _ & Hsteps).
    rewrite (Hsteps Hsc), Hic, Hcur in Hcur'. injection Hcur' as <-.
    assert (Hrd : round_done c cur = false) by (unfold round_done; by rewrite Hnan).
    rewrite Hrd in Hst. split_and!; [by rewrite Hst| by rewrite Hst|done].
  - destruct (g_trans _ G t c Hin Hcb) as (_ & ? & _). congruence.
Qed.

Lemma NaN_round_stays_open_witness :
  ∃ w w', run_clean initial_world
            ([EditRangeMax (Int 3); EditStep 1 (FCount NaN); ClickAddStep; ClickInitialize]
             ++ [ClickSpin] ++ flicker 1 half 24 ++ [Wait 120])
          = Some w
    ∧ step w (Fire 2 half) = Some w'
    ∧ length (history (st w')) = 1
    ∧ currentStepIndex (st w') = currentStepIndex (st w)
    ∧ isTransitioning (st w') = false
    ∧ steps (st w') = steps (st w).
Proof.
  eexists _, _. split; [vm_compute; reflexivity|]. split; [vm_compute; reflexivity|].
  split; [vm_compute; reflexivity|].
  eapply (NaN_round_stays_open
            ([EditRangeMax (Int 3); EditStep 1 (FCount NaN); ClickAddStep; ClickInitialize]
             ++ [ClickSpin] ++ flicker 1 half 24 ++ [Wait 120])
            _ _ (Fire 2 half) (Step.mk 1 "Round 1" NaN));
    try (vm_compute; reflexivity); done.
Defined.

(** ** The end of a round *)

(** X20.  The round transition, on the draw screen of a clean run.  When
    the 2000 ms timeout fires in a mounted component, no spin is running;
    the round index grows by one and the transition flag falls.  If a next
    round exists, its panel is shown and expanded and the panel of the
    closed round is collapsed, every other panel staying as it was; if
    not, the panels stay as they were, the game is finished and the spin
    button reads "Finished". *)
Theorem transition_opens_next (es : list Event) (w w' : World) (t : Timer)
    (c : AppState) (u : Rand) :
  run_clean initial_world es = Some w → mounted w = true → showConfig (st w) = false →
  t ∈ timers w → callback t = CbRoundComplete c →
  step w (Fire (tid t) u) = Some w' →
  let i := currentStepIndex (st w) in
  isSpinning (st w) = false
  ∧ currentStepIndex (st w') = i + 1 ∧ isTransitioning (st w') = false
  ∧ (∀ cur next, steps (st w) !! i = Some cur → steps (st w) !! (i + 1) = Some next →
       isExpanded (Step.id next) (st w') = true
       ∧ isExpanded (Step.id cur) (st w') = false
       ∧ (∀ j, j ≠ Step.id cur → j ≠ Step.id next →
            isExpanded j (st w') = isExpanded j (st w))
       ∧ stepHeaderVisible (Step.id next) (st w') = true)
  ∧ (length (steps (st w)) ≤ i + 1 →
       expandedSteps (st w') = expandedSteps (st w)
       ∧ isGameFinished (st w') = true ∧ spinLabel (st w') = "Finished").
Proof.
  intros Hrun Hm Hsc Hin Hcb Hstep i. subst i.
  destruct (reachable_clean_inv _ _ Hrun) as (Hd & Hsm & G).
  pose proof (reachable_timer_inv _ _ (run_clean_run _ _ _ Hrun)) as Ht.
  destruct (step_Fire _ _ _ _ (t_ids _ Ht) Hin Hstep) as (_ & _ & ->).
  rewrite Hcb. simpl.
  destruct (g_trans _ G t c Hin Hcb)
    as (Hic & Htr & _ & _ & Hsteps & cur & Hcur & H1 & H2).
  specialize (Hsteps Hsc).
  assert (Hs : isSpinning (st w) = false).
  { destruct (isSpinning (st w)) eqn:Hs; [|done].
    destruct (t_spinning _ Ht Hm Hs) as (y & cy & Hy & Hcy).
    destruct (g_spin _ G y cy Hy Hcy) as (_ & _ & _ & ? & _). congruence. }
  set (w1 := with_timers (rearm t (timers w)) w).
  assert (Hm1 : mounted w1 = true) by done.
  destruct (roundComplete_fields c w1) as (_ & _ & Hp & Hh & Hst & Hsc' & Hsp & _).
  change (st w1) with (st w) in *.
  destruct (roundComplete_advance c w1 Hm1) as [Hi Htr'].
  { by eapply lookup_lt_Some. }
  assert (Hi' : currentStepIndex (st (roundComplete c w1)) = currentStepIndex (st w) + 1).
  { rewrite Hi. change (st w1) with (st w). rewrite Hic.
    by destruct (bool_decide (currentStepIndex (st w) + 1 < length (steps c))). }
  split_and!; try done.
  - intros cur0 next Hcur0 Hnext.
    rewrite <- Hsteps, <- Hic in Hcur0, Hnext. rewrite Hcur in Hcur0. injection Hcur0 as <-.
    assert (Hne : Step.id cur ≠ Step.id next).
    { intros Heq. pose proof (g_ids _ G) as Hnd. rewrite <- Hsteps in Hnd.
      pose proof (ids_inj _ _ _ _ _ Hnd Hcur Hnext Heq). lia. }
    assert (Hexp : expandedSteps (st (roundComplete c w1))
                   = <[Step.id next := true]>
                       (<[Step.id cur := false]> (expandedSteps (st w)))).
    { unfold roundComplete. rewrite bool_decide_eq_true_2.
      - rewrite Hcur, Hnext. subst w1. clear -Hm.
        destruct w as [s tr ir ts n k m l]. simpl in *. by subst m.
      - apply lookup_lt_Some in Hnext. lia. }
    unfold isExpanded. rewrite Hexp. split_and!.
    + by rewrite lookup_insert_eq.
    + rewrite lookup_insert_ne by done. by rewrite lookup_insert_eq.
    + intros j Hj1 Hj2. by rewrite !lookup_insert_ne.
    + unfold stepHeaderVisible. apply andb_true_iff. split; apply bool_decide_eq_true.
      * rewrite Hh. assert (Hw : 1 ≤ winnersOf (Step.id cur) (history (st w))) by done.
        unfold winnersOf in Hw.
        pose proof (length_filter (λ r, WinRecord.stepId r = Step.id cur)
                      (history (st w))). lia.
      * apply Exists_exists. exists next. rewrite Hst, Hi', <- Hsteps, <- Hic.
        split; [by eapply list_elem_of_lookup_2|]. split; [done|]. right.
        by rewrite Hnext.
  - intros Hlast.
    assert (Hexp : expandedSteps (st (roundComplete c w1)) = expandedSteps (st w)).
    { unfold roundComplete. rewrite bool_decide_eq_false_2.
      - subst w1. clear -Hm. destruct w as [s tr ir ts n k m l]. simpl in *. by subst m.
      - rewrite Hsteps, Hic. lia. }
    assert (Hfin : isGameFinished (st (roundComplete c w1)) = true).
    { unfold isGameFinished. apply bool_decide_eq_true. rewrite Hst, Hi'. lia. }
    split_and!; try done. unfold spinLabel. by rewrite Hsp, Hs, Htr', Hfin.
Qed.

Lemma transition_opens_next_witness :
  ∃ w w', run_clean initial_world (game_1_5 ++ spin_once 1 half ++ [Wait 2000]) = Some w
    ∧ step w (Fire 3 zero) = Some w'
    ∧ isExpanded 1 (st w) = true ∧ isExpanded 1 (st w') = false
    ∧ isExpanded 2 (st w') = true
    ∧ currentStepIndex (st w') = currentStepIndex (st w) + 1.
Proof.
  eexists _, _. split; [vm_compute; reflexivity|]. split; [vm_compute; reflexivity|].
  do 3 (split; [vm_compute; reflexivity|]).
  eapply (transition_opens_next (game_1_5 ++ spin_once 1 half ++ [Wait 2000]) _ _
            (mkTimer 3 5000 2000 None _) _ zero);
    [vm_compute; reflexivity|vm_compute; reflexivity|vm_compute; reflexivity
    |apply list_elem_of_here|reflexivity|vm_compute; reflexivity].
Defined.

(** ** The audio fallback *)

Lemma indexOf_absent (urls : list string) (x : string) :
  x ∉ urls → indexOf urls x = (-1)%Z.
Proof.
  induction urls as [|y urls IH]; [done|]. intros [Hxy Hx]%not_elem_of_cons. simpl.
  destruct (String.eqb_spec y x) as [->|_]; [done|]. by rewrite (IH Hx).
Qed.

Lemma indexOf_first (urls : list string) (x : string) (i : nat) :
  urls !! i = Some x → (∀ j, j < i → urls !! j ≠ Some x) →
  indexOf urls x = Z.of_nat i.
Proof.
  revert i. induction urls as [|y urls IH]; intros i Hi Hfirst; [done|]. simpl.
  destruct (String.eqb_spec y x) as [->|Hne].
  - destruct i as [|i]; [done|]. by destruct (Hfirst 0); [lia|].
  - destruct i as [|i]; simpl in Hi; [congruence|].
    rewrite (IH i Hi).
    + destruct (Z.eqb_spec (Z.of_nat i) (-1)); lia.
    + intros j Hj. apply (Hfirst (S j)). lia.
Qed.

(** X21.  The fallback of an audio element.  The error listener runs at
    most once: whatever the number of error events, the element is as
    after the first.  If the source is in the list, first at index [i], the
    element moves to the entry at [i + 1], or keeps its source when there
    is none; a source that is not in the list is replaced by the first
    entry. *)
Theorem applyFallback_once (urls : list string) (el : Audio.t) (n : nat) :
  let el' := error_events (S n) urls (applyFallback el) in
  el' = error_event urls (applyFallback el)
  ∧ Audio.listening el' = false
  ∧ (∀ i, urls !! i = Some (Audio.src el) → (∀ j, j < i → urls !! j ≠ Some (Audio.src el)) →
       Audio.src el' = default (Audio.src el) (urls !! S i))
  ∧ (Audio.src el ∉ urls → Audio.src el' = default (Audio.src el) (urls !! 0)).
Proof.
  intros el'. subst el'.
  assert (Hoff : ∀ m a, Audio.listening a = false → error_events m urls a = a).
  { induction m as [|m IH]; intros a Ha; [done|]. simpl. unfold error_event.
    rewrite Ha. by apply IH. }
  assert (Hl : Audio.listening (error_event urls (applyFallback el)) = false).
  { unfold error_event, applyFallback, onError. simpl. by repeat case_match. }
  split_and!.
  - simpl. by apply Hoff.
  - simpl. by rewrite Hoff.
  - intros i Hi Hfirst. simpl. rewrite Hoff by done.
    unfold error_event, applyFallback, onError. simpl.
    rewrite (indexOf_first _ _ _ Hi Hfirst).
    replace (Z.to_nat (Z.of_nat i + 1)) with (S i) by lia.
    destruct (urls !! S i) as [y|] eqn:Hy; simpl.
    + apply lookup_lt_Some in Hy. rewrite (proj2 (Z.ltb_lt _ _)) by lia. done.
    + by case_match.
  - intros Hx. simpl. rewrite Hoff by done.
    unfold error_event, applyFallback, onError. simpl.
    rewrite (indexOf_absent _ _ Hx).
    replace (Z.to_nat (-1 + 1)) with 0 by lia.
    destruct (urls !! 0) as [y|] eqn:Hy; simpl.
    + apply lookup_lt_Some in Hy. rewrite (proj2 (Z.ltb_lt _ _)) by lia. done.
    + by case_match.
Qed.

Lemma applyFallback_once_witness :
  Audio.src (error_events 3 SOUND_URLS_tick
         (applyFallback
            (Audio.mk "https://assets.mixkit.co/active_storage/sfx/2568/2568-preview.m4a"
               false)))
  = "https://assets.mixkit.co/active_storage/sfx/2568/2568.wav".
Proof.
  destruct (applyFallback_once SOUND_URLS_tick
              (Audio.mk "https://assets.mixkit.co/active_storage/sfx/2568/2568-preview.m4a"
                 false) 2) as (_ & _ & H & _).
  apply (H 0); [reflexivity|]. intros j Hj. lia.
Defined.

(** ** The progress of the current round *)

(** X22.  On the draw screen of a clean run [getCurrentStepProgress]
    returns a record: the sentinel [{0, 0, true}] when the game is
    finished; otherwise a record that counts at most [max k 1] winners for
    a round of count [k], and that reports the round as finished only
    during the transition out of the round, or for a round without winners
    whose count is not positive. *)
Theorem progress_of_round (es : list Event) (w : World) :
  run_clean initial_world es = Some w → showConfig (st w) = false →
  ∃ p, getCurrentStepProgress (st w) = Some p
    ∧ (isGameFinished (st w) = true → p = Progress.mk 0 (Int 0) true)
    ∧ (isGameFinished (st w) = false →
       (∀ k, Progress.total p = Int k → (Z.of_nat (Progress.current p) ≤ Z.max k 1)%Z)
       ∧ (Progress.finished p = true → isTransitioning (st w) = false →
          Progress.current p = 0 ∧ ∃ k, Progress.total p = Int k ∧ (k ≤ 0)%Z)).
Proof.
  intros Hrun Hsc. destruct (reachable_clean_inv _ _ Hrun) as (_ & _ & G).
  unfold getCurrentStepProgress, isGameFinished. case_bool_decide as Hfin.
  - eexists. split; [done|]. by split.
  - destruct (lookup_lt_is_Some_2 (steps (st w)) (currentStepIndex (st w)))
      as [cur Hcur]; [lia|].
    rewrite Hcur. eexists. split; [done|]. split; [done|]. intros _.
    cbn [Progress.current Progress.total Progress.finished].
    destruct (g_counts _ G Hsc _ cur Hcur) as (_ & H2 & H3). split; [done|].
    intros Hf Htr. destruct (H3 eq_refl Htr) as [H0|Hlt]; [|congruence].
    split; [done|]. rewrite H0 in Hf. destruct (Step.count cur) as [k|]; [|done].
    exists k. split; [done|]. simpl in Hf. apply Z.leb_le in Hf. lia.
Qed.

Lemma progress_of_round_witness :
  ∃ w, run_clean initial_world zero_count_start = Some w
    ∧ getCurrentStepProgress (st w) = Some (Progress.mk 0 (Int 0) true)
    ∧ ∃ p, getCurrentStepProgress (st w) = Some p
        ∧ (isGameFinished (st w) = true → p = Progress.mk 0 (Int 0) true)
        ∧ (isGameFinished (st w) = false →
           (∀ k, Progress.total p = Int k → (Z.of_nat (Progress.current p) ≤ Z.max k 1)%Z)
           ∧ (Progress.finished p = true → isTransitioning (st w) = false →
              Progress.current p = 0 ∧ ∃ k, Progress.total p = Int k ∧ (k ≤ 0)%Z)).
Proof.
  eexists. split; [vm_compute; reflexivity|]. split; [vm_compute; reflexivity|].
  eapply (progress_of_round zero_count_start); vm_compute; reflexivity.
Defined.

(** ** The fresh draw screen *)

(** X23.  The screen after an accepted initialisation of a mounted
    component, the loop over the range having ended: the draw screen, with an empty history panel (no round
    header, no "Reset Game" button), no banner unless the plan is empty,
    the placeholder in the wheel, and only the first round expanded; the
    spin button reads "SPIN" when the pool is not empty and no spin of an
    earlier game is running. *)
Theorem fresh_game_screen (w : World) :
  mounted w = true →
  js_gt (totalWinnersNeeded (st w)) (totalAvailable (st w)) = false →
  loop_throws (range_min (st w)) (range_max (st w)) = false →
  let s' := st (initializeNumbers w) in
  showConfig s' = false
  ∧ currentNumber s' = VStr "?"
  ∧ resetVisible s' = false
  ∧ (∀ i, stepHeaderVisible i s' = false)
  ∧ banner s' = (if bool_decide (steps (st w) = []) then GameOver else NoBanner)
  ∧ (∀ s0 ss, steps (st w) = s0 :: ss →
       ∀ i, isExpanded i s' = bool_decide (i = Step.id s0))
  ∧ (isSpinning (st w) = false → steps (st w) ≠ [] →
     build_nums (range_min (st w)) (range_max (st w)) ≠ [] →
     spinLabel s' = "SPIN" ∧ spinDisabled s' = false).
Proof.
  intros Hm Hok Hloop s'. subst s'.
  rewrite (initializeNumbers_accepted _ Hok Hloop). simpl.
  rewrite setState_mounted by done. simpl.
  split_and!; try done.
  - unfold banner, isGameFinished. simpl.
    destruct (steps (st w)); simpl; by repeat case_bool_decide.
  - intros s0 ss Hss i. unfold isExpanded. simpl. rewrite Hss.
    case_bool_decide as Hi.
    + subst i. by rewrite lookup_singleton_eq.
    + by rewrite lookup_singleton_ne.
  - intros Hs Hne Hpool. unfold spinLabel, spinDisabled, isGameFinished. simpl.
    rewrite Hs. simpl.
    rewrite (bool_decide_eq_false_2 (length (steps (st w)) ≤ 0)).
    + rewrite bool_decide_eq_false_2; [done|].
      destruct (build_nums _ _); [done|simpl; lia].
    + destruct (steps (st w)); [done|simpl; lia].
Qed.

Lemma fresh_game_screen_witness :
  showConfig (st (initializeNumbers initial_world)) = false
  ∧ currentNumber (st (initializeNumbers initial_world)) = VStr "?".
Proof.
  destruct (fresh_game_screen initial_world) as (H1 & H2 & _);
    [reflexivity|reflexivity|by vm_compute|].
  split; [exact H1|exact H2].
Defined.
